(** * tolinku/web-sdk: the resilient HTTP client and the analytics batcher

    A shallow embedding of the client module (class [HttpClient], imported
    as [./client.js]; its text is the second part of [src/referrals.ts]:
    retry loop, backoff calculator, abortable sleep, typed facade) and of
    [src/analytics.ts] (class [Analytics]: validation, queue, flush timer,
    flush with re-queueing, beacon delivery, destroy), followed by the
    properties of the specification that concern them.

    The rest of the client object (constructor, abort handle) and three
    callers of the facade are embedded as well: [Deferred.claimByToken]
    (the second part of [src/banners.ts]), [Referrals.get]
    ([src/referrals.ts]) and [Tolinku.track] ([src/index.ts]).  Their
    properties, and further ones of the retry loop and of the batcher, are
    in the last part of the file.

    Conventions.
    - An [async] function is cut at its [await]s.  In [Client] the awaited
      operations ([fetch], the retry delay) are answered by an oracle and the
      whole logical request runs in a state-and-exception monad.  In
      [Analytics] the only [await] is the batched POST: the synchronous part
      of [flush] registers a pending POST, and a later step settles it.
    - A JavaScript number is [NaN], an infinity or a rational; zero has no
      sign.  What [Number] makes of a string and the product
      [seconds * 1000] are rounded to binary64, as the code computes them.
      The backoff sum [BASE_DELAY_MS * 2^attempt + Math.random() *
      MAX_JITTER_MS] is kept exact: for the attempts the loop makes its
      first term is exact in binary64 as well, and the rounding of the
      jitter and of the sum, one unit in the last place at most, is
      outside the model.
    - JavaScript strings are [string]; a character is a code unit below 256. *)

From Stdlib Require Import List String Ascii Bool Arith ZArith QArith Lia.
From Stdlib Require Import Qpower Qround Lqa.
Import ListNotations.

Local Open Scope string_scope.

(** ** Values shared by both classes *)

(** What a [throw] or a rejected promise carries. *)
Inductive Thrown : Type :=
| DOMException (name message : string)
| TypeError (message : string)
| Error (message : string)
| TolinkuError (message : string) (status : Z) (code : option string)
| ThrownUndefined.

(** The settlement of a promise.  [Unfinished] is a loop that ran out of
    fuel; the executor is shown never to produce it. *)
Inductive Result (A : Type) : Type :=
| Resolved (a : A)
| Rejected (e : Thrown)
| Unfinished.
Arguments Resolved {A} a.
Arguments Rejected {A} e.
Arguments Unfinished {A}.

(** ** Effects: a state that survives exceptions *)

Module Effects.

Section Monad.
Context {St : Type}.

Definition Eff (A : Type) : Type := St -> Result A * St.

Definition ret {A} (a : A) : Eff A := fun st => (Resolved a, st).

Definition throw {A} (e : Thrown) : Eff A := fun st => (Rejected e, st).

Definition bind {A B} (m : Eff A) (k : A -> Eff B) : Eff B :=
  fun st =>
    match m st with
    | (Resolved a, st') => k a st'
    | (Rejected e, st') => (Rejected e, st')
    | (Unfinished, st') => (Unfinished, st')
    end.

(** [try { m } catch (err) { h err }]: the effects of [m] are kept. *)
Definition try_catch {A} (m : Eff A) (h : Thrown -> Eff A) : Eff A :=
  fun st =>
    match m st with
    | (Rejected e, st') => h e st'
    | other => other
    end.

End Monad.

Declare Scope io_scope.
Delimit Scope io_scope with io.
Notation "x <- m ;; k" := (bind m (fun x => k))
  (at level 61, m at next level, right associativity) : io_scope.
Notation "m ;; k" := (bind m (fun _ => k))
  (at level 61, right associativity) : io_scope.

End Effects.

(** ** JavaScript numbers and [Number(string)] *)

Inductive number : Type :=
| NaN
| PosInf
| NegInf
| Fin (q : Q).

Definition isNaN (x : number) : bool :=
  match x with NaN => true | _ => false end.

(** [x > 0] *)
Definition gt0 (x : number) : bool :=
  match x with
  | Fin q => if Qlt_le_dec 0 q then true else false
  | PosInf => true
  | _ => false
  end.

(** *** Rounding to binary64

    A finite [number] that comes out of [Number] or of a product is a
    double: the rational nearest to the exact value among the doubles, ties
    to the even significand, with gradual underflow and with overflow to
    infinity.  Zero has no sign here ([-0] and [0] compare alike). *)

(** The integer nearest to [x], ties to the even one. *)
Definition roundHalfEven (x : Q) : Z :=
  let f := Qfloor x in
  match Qcompare (x - inject_Z f) (1 # 2) with
  | Lt => f
  | Gt => (f + 1)%Z
  | Eq => if Z.even f then f else (f + 1)%Z
  end.

(** The exponent of the last place of the doubles around [q > 0]:
    [l - 52] for [2^l <= q < 2^(l+1)], and -1074 in the subnormal range. *)
Definition ulpExponent (q : Q) : Z :=
  let k := (Z.log2 (Qnum q) - Z.log2 (Zpos (Qden q)))%Z in
  let l := if Qle_bool (2 ^ k) q then k else (k - 1)%Z in
  Z.max (l - 52) (-1074).

Definition roundPositive (q : Q) : number :=
  let e := ulpExponent q in
  let m := roundHalfEven (q / 2 ^ e) in
  if Qle_bool (2 ^ 1024) (inject_Z m * 2 ^ e) then PosInf
  else Fin (Qred (inject_Z m * 2 ^ e)).

(** The double nearest to [q]. *)
Definition toDouble (q : Q) : number :=
  match Qcompare q 0 with
  | Eq => Fin 0
  | Gt => roundPositive q
  | Lt =>
      match roundPositive (- q) with
      | Fin p => Fin (- p)
      | _ => NegInf
      end
  end.

(** The least positive double. *)
Definition minDouble : Q := 2 ^ (-1074).

(** [x * k] for a positive double [k]: the product of two doubles is the
    double nearest to the exact product. *)
Definition times (x : number) (k : Q) : number :=
  match x with
  | Fin q => toDouble (q * k)
  | other => other
  end.


Module JsString.

(** White space and line terminators of ECMAScript among the code units
    below 256: TAB, LF, VT, FF, CR, SP, NBSP. *)
Definition isWhiteSpace (c : ascii) : bool :=
  let n := nat_of_ascii c in
  (n =? 9)%nat || (n =? 10)%nat || (n =? 11)%nat || (n =? 12)%nat
  || (n =? 13)%nat || (n =? 32)%nat || (n =? 160)%nat.

Fixpoint trimStart (s : string) : string :=
  match s with
  | String c rest => if isWhiteSpace c then trimStart rest else s
  | EmptyString => EmptyString
  end.

Fixpoint rev_onto (s acc : string) : string :=
  match s with
  | String c rest => rev_onto rest (String c acc)
  | EmptyString => acc
  end.

Definition rev (s : string) : string := rev_onto s EmptyString.

Definition trimEnd (s : string) : string := rev (trimStart (rev s)).

(** [String.prototype.trim] *)
Definition trim (s : string) : string := trimEnd (trimStart s).

(** [s.startsWith(p)]; on a match the rest of [s] is returned. *)
Fixpoint stripPrefix (p s : string) : option string :=
  match p, s with
  | EmptyString, _ => Some s
  | String a p', String b s' =>
      if Ascii.eqb a b then stripPrefix p' s' else None
  | String _ _, EmptyString => None
  end.

Definition startsWith (s p : string) : bool :=
  match stripPrefix p s with Some _ => true | None => false end.

Fixpoint forallb (f : ascii -> bool) (s : string) : bool :=
  match s with
  | String c rest => f c && forallb f rest
  | EmptyString => true
  end.

(** Splits at the first character satisfying [f]; the separator is
    dropped.  [None] in second place when no separator occurs. *)
Fixpoint splitAt (f : ascii -> bool) (s : string) : string * option string :=
  match s with
  | EmptyString => (EmptyString, None)
  | String c rest =>
      if f c then (EmptyString, Some rest)
      else let (a, b) := splitAt f rest in (String c a, b)
  end.

End JsString.

Module JsNumber.
Import JsString.

Definition digitValue (c : ascii) : option Z :=
  let n := Z.of_nat (nat_of_ascii c) in
  if (48 <=? n)%Z && (n <=? 57)%Z then Some (n - 48)%Z
  else if (97 <=? n)%Z && (n <=? 102)%Z then Some (n - 87)%Z
  else if (65 <=? n)%Z && (n <=? 70)%Z then Some (n - 55)%Z
  else None.

(** The value of a string of digits in [base], most significant first;
    [None] when a character is not a digit of that base. *)
Fixpoint digitsFrom (base : Z) (acc : Z) (s : string) : option Z :=
  match s with
  | EmptyString => Some acc
  | String c rest =>
      match digitValue c with
      | Some d => if (d <? base)%Z then digitsFrom base (base * acc + d)%Z rest
                  else None
      | None => None
      end
  end.

(** A non-empty string of digits. *)
Definition digits (base : Z) (s : string) : option Z :=
  match s with
  | EmptyString => None
  | _ => digitsFrom base 0%Z s
  end.

Definition isChar (a b : ascii) (c : ascii) : bool :=
  Ascii.eqb c a || Ascii.eqb c b.

Definition stripSign (s : string) : bool * string :=
  match s with
  | String "-"%char rest => (true, rest)
  | String "+"%char rest => (false, rest)
  | _ => (false, s)
  end.

(** [DecimalDigits . DecimalDigits? | . DecimalDigits | DecimalDigits] *)
Definition mantissa (s : string) : option Q :=
  match splitAt (Ascii.eqb "."%char) s with
  | (ip, None) =>
      match digits 10 ip with Some n => Some (inject_Z n) | None => None end
  | (ip, Some fp) =>
      match ip, fp with
      | EmptyString, EmptyString => None
      | _, _ =>
          match digitsFrom 10 0%Z ip, digitsFrom 10 0%Z fp with
          | Some n, Some f =>
              Some (inject_Z n
                    + inject_Z f / inject_Z (10 ^ Z.of_nat (String.length fp)))
          | _, _ => None
          end
      end
  end.

(** [ExponentPart]: the text after [e] or [E]. *)
Definition exponent (s : string) : option Z :=
  let (neg, ds) := stripSign s in
  match digits 10 ds with
  | Some n => Some (if neg then (- n)%Z else n)
  | None => None
  end.

(** [StrUnsignedDecimalLiteral] without [Infinity] *)
Definition unsignedDecimal (s : string) : option Q :=
  match splitAt (isChar "e"%char "E"%char) s with
  | (m, None) => mantissa m
  | (m, Some e) =>
      match mantissa m, exponent e with
      | Some q, Some k => Some (q * (10 ^ k))
      | _, _ => None
      end
  end.

Definition radixLiteral (s : string) : option (option Z) :=
  match s with
  | String "0"%char (String p rest) =>
      if isChar "x"%char "X"%char p then Some (digits 16 rest)
      else if isChar "o"%char "O"%char p then Some (digits 8 rest)
      else if isChar "b"%char "B"%char p then Some (digits 2 rest)
      else None
  | _ => None
  end.

(** [Number(s)] for a string argument (StringToNumber): white space is
    trimmed, the empty string is [0], then a radix literal or a signed
    decimal literal, whose mathematical value is rounded to the nearest
    double (what engines do; beyond 20 significant digits ECMAScript lets
    an implementation pick either neighbour); anything else is [NaN]. *)
Definition Number (s : string) : number :=
  let t := trim s in
  match t with
  | EmptyString => Fin 0
  | _ =>
      match radixLiteral t with
      | Some (Some n) => toDouble (inject_Z n)
      | Some None => NaN
      | None =>
          let (neg, u) := stripSign t in
          if String.eqb u "Infinity" then (if neg then NegInf else PosInf)
          else match unsignedDecimal u with
               | Some q => toDouble (if neg then - q else q)
               | None => NaN
               end
      end
  end.

End JsNumber.

(** ** The client module: class [HttpClient] *)

Module Client.
Import JsNumber Effects.
Local Open Scope io_scope.

Definition MAX_RETRIES : nat := 3.
Definition BASE_DELAY_MS : Q := 500.
Definition MAX_JITTER_MS : Q := 250.

(** What [res.json()] resolves to: the value [null], or any other JSON
    value, of which the client reads the members [error] and [code] next
    to the endpoint's payload.  Either member is [None] when it is absent,
    as it is on a value that is not an object. *)
Inductive JsonBody : Type :=
| JsonNull
| mkJsonBody (error : option string) (code : option string) (payload : string).

(** The part of a [Response] the client reads.  [retryAfter] is
    [headers.get('Retry-After')] and [json] is what [res.json()] resolves
    to, [None] when it rejects. *)
Record Response : Type := mkResponse {
  status : Z;
  statusText : string;
  retryAfter : option string;
  json : option JsonBody
}.

(** [res.ok], defined by the Fetch standard as a status in 200..299. *)
Definition ok (r : Response) : bool :=
  ((200 <=? status r) && (status r <? 300))%Z.

(** [url] and [init] of a [fetch] call; every request built by the facade
    carries the shared abort signal. *)
Record Request : Type := mkRequest {
  url : string;
  method : string;
  headers : list (string * string);
  body : option string
}.

Definition abortError : Thrown :=
  DOMException "AbortError" "The operation was aborted.".

(** [err instanceof DOMException && err.name === 'AbortError'] *)
Definition isAbortError (e : Thrown) : bool :=
  match e with
  | DOMException name _ => String.eqb name "AbortError"
  | _ => false
  end.

(** *** The world of one logical request *)

Inductive FetchOutcome : Type :=
| FetchResolves (r : Response)
| FetchRejects (e : Thrown).

(** The oracle: how the n-th network call settles, whether the signal is
    aborted while the n-th retry delay is pending, the n-th value of
    [Math.random()]. *)
Record Env : Type := mkEnv {
  fetch_outcome : nat -> FetchOutcome;
  abort_during_sleep : nat -> bool;
  random : nat -> Q
}.

(** What the request did: network calls with their outcome, timers with
    their delay and whether they fired. *)
Inductive Event : Type :=
| EvFetch (req : Request) (o : FetchOutcome)
| EvSleep (ms : number) (fired : bool).

Record State : Type := mkState {
  fetched : nat;        (* network calls made *)
  slept : nat;          (* timers started *)
  drawn : nat;          (* values taken from Math.random *)
  aborted : bool;       (* signal.aborted *)
  log : list Event
}.

Definition fresh : State := mkState 0 0 0 false [].

Definition IO : Type -> Type := @Eff State.

Section WithEnv.
Variable env : Env.

(** [fetch(url, init)]: with an aborted signal the platform rejects
    at once and nothing is sent; otherwise the call is made, and a
    rejection with an AbortError means the signal was aborted in flight. *)
Definition fetch (req : Request) : IO Response :=
  fun st =>
    if aborted st then (Rejected abortError, st)
    else
      let o := fetch_outcome env (fetched st) in
      match o with
      | FetchResolves r =>
          (* the signal is not aborted on this branch *)
          (Resolved r,
           mkState (S (fetched st)) (slept st) (drawn st) false
                   (log st ++ [EvFetch req o]))
      | FetchRejects e =>
          (Rejected e,
           mkState (S (fetched st)) (slept st) (drawn st) (isAbortError e)
                   (log st ++ [EvFetch req o]))
      end.

Definition Math_random : IO Q :=
  fun st =>
    (Resolved (random env (drawn st)),
     mkState (fetched st) (slept st) (S (drawn st)) (aborted st) (log st)).

(** Compute backoff delay: BASE_DELAY_MS * 2^attempt + random jitter;
    respects Retry-After on 429 responses. *)
Definition computeDelay (attempt : nat) (res : option Response) : IO number :=
  let backoff : IO number :=
    let exponential := BASE_DELAY_MS * 2 ^ Z.of_nat attempt in
    rnd <- Math_random ;;
    let jitter := rnd * MAX_JITTER_MS in
    ret (Fin (exponential + jitter)) in
  match res with
  | Some r =>
      if (status r =? 429)%Z then
        match retryAfter r with
        | Some retryAfter =>
            if String.eqb retryAfter "" then backoff
            else
              let seconds := Number retryAfter in
              if negb (isNaN seconds) && gt0 seconds
              then ret (times seconds 1000)
              else backoff
        | None => backoff
        end
      else backoff
  | None => backoff
  end.

(** Sleep for a given duration, but reject if the signal is aborted:
    at once when it already is, otherwise when the abort arrives before
    the timer fires. *)
Definition sleep (ms : number) : IO unit :=
  fun st =>
    if aborted st then (Rejected abortError, st)
    else if abort_during_sleep env (slept st) then
      (Rejected abortError,
       mkState (fetched st) (S (slept st)) (drawn st) true
               (log st ++ [EvSleep ms false]))
    else
      (Resolved tt,
       mkState (fetched st) (S (slept st)) (drawn st) false
               (log st ++ [EvSleep ms true])).

(** How one iteration of the retry loop ends: [return res], or on to the
    next iteration with the current value of [lastError]. *)
Inductive Completion : Type :=
| Return (res : Response)
| Continue (lastError : option Thrown).

Definition nonRetryable (res : Response) : bool :=
  ok res
  || ((400 <=? status res)%Z && (status res <? 500)%Z
      && negb (status res =? 429)%Z).

(** The [try] block of the loop body. *)
Definition tryBlock (req : Request) (attempt : nat)
           (lastError : option Thrown) : IO Completion :=
  res <- fetch req ;;
  (* Successful or non-retryable 4xx: return immediately *)
  if nonRetryable res then ret (Return res)
  (* Retryable status (429 or 5xx): retry if attempts remain *)
  else if (attempt <? MAX_RETRIES)%nat then
    delay <- computeDelay attempt (Some res) ;;
    sleep delay ;;
    ret (Continue lastError)
  (* Out of retries: return the last response *)
  else ret (Return res).

(** The [catch (err)] block of the loop body. *)
Definition catchBlock (attempt : nat) (err : Thrown) : IO Completion :=
  (* If the request was aborted, do not retry *)
  if isAbortError err then throw err
  (* Network error: retry if attempts remain *)
  else if (attempt <? MAX_RETRIES)%nat then
    delay <- computeDelay attempt None ;;
    sleep delay ;;
    ret (Continue (Some err))
  else ret (Continue (Some err)).

(** The body of the [for] loop of [fetchWithRetry]. *)
Definition attemptOnce (req : Request) (attempt : nat)
           (lastError : option Thrown) : IO Completion :=
  try_catch (tryBlock req attempt lastError) (catchBlock attempt).

(** [for (let attempt = 0; attempt <= MAX_RETRIES; attempt++) { ... }
    throw lastError] *)
Fixpoint retryLoop (fuel : nat) (req : Request) (attempt : nat)
         (lastError : option Thrown) : IO Response :=
  match fuel with
  | O => fun st => (Unfinished, st)
  | S fuel' =>
      if (attempt <=? MAX_RETRIES)%nat then
        c <- attemptOnce req attempt lastError ;;
        match c with
        | Return res => ret res
        | Continue lastError' => retryLoop fuel' req (S attempt) lastError'
        end
      else
        throw (match lastError with
               | Some e => e
               | None => ThrownUndefined
               end)
  end.

Definition fetchWithRetry (req : Request) : IO Response :=
  retryLoop (S (S MAX_RETRIES)) req 0 None.

(** *** The typed facade *)

Variable baseUrl apiKey : string.

(** [body.error || res.statusText] *)
Definition orElse (s : option string) (d : string) : string :=
  match s with
  | Some m => if String.eqb m "" then d else m
  | None => d
  end.

(** Safely parse JSON from a response, handling non-JSON 200s. *)
Definition parseJson (res : Response) : IO JsonBody :=
  match json res with
  | Some b => ret b
  | None => throw (TolinkuError "Invalid JSON in response body" (status res) None)
  end.

(** The [TypeError] of reading the member [prop] of [null], with the
    message of V8. *)
Definition nullError (prop : string) : Thrown :=
  TypeError ("Cannot read properties of null (reading '" ++ prop ++ "')").

(** [body.error] and [body.code]: reading a member of [null] throws, and
    [body.error] is read first. *)
Definition members (body : JsonBody) : IO (option string * option string) :=
  match body with
  | JsonNull => throw (nullError "error")
  | mkJsonBody error code _ => ret (error, code)
  end.

(** The common tail of [get], [post], [getPublic] and [postPublic]. *)
Definition interpret (res : Response) : IO JsonBody :=
  if negb (ok res) then
    let body :=
      match json res with
      | Some b => b
      | None => mkJsonBody (Some (statusText res)) None ""
      end in
    m <- members body ;;
    throw (TolinkuError (orElse (fst m) (statusText res))
                        (status res) (snd m))
  else parseJson res.

Definition withQuery (u : string) (qs : option string) : string :=
  match qs with
  | Some q => if String.eqb q "" then u else u ++ "?" ++ q
  | None => u
  end.

Definition authHeaders : list (string * string) := [("X-API-Key", apiKey)].

(** [qs] is [new URLSearchParams(params).toString()]. *)
Definition get (path : string) (qs : option string) : IO JsonBody :=
  res <- fetchWithRetry
           (mkRequest (withQuery (baseUrl ++ path) qs) "GET" authHeaders None) ;;
  interpret res.

(** [data] is [JSON.stringify(body)]. *)
Definition post (path : string) (data : option string) : IO JsonBody :=
  res <- fetchWithRetry
           (mkRequest (baseUrl ++ path) "POST"
                      (authHeaders ++ [("Content-Type", "application/json")])
                      data) ;;
  interpret res.

Definition getPublic (path : string) (qs : option string) : IO JsonBody :=
  res <- fetchWithRetry
           (mkRequest (withQuery (baseUrl ++ path) qs) "GET" [] None) ;;
  interpret res.

Definition postPublic (path : string) (data : option string) : IO JsonBody :=
  res <- fetchWithRetry
           (mkRequest (baseUrl ++ path) "POST"
                      [("Content-Type", "application/json")] data) ;;
  interpret res.

End WithEnv.

End Client.

(** ** [src/analytics.ts]: class [Analytics] *)

Module Analytics.
Import JsString Effects.
Local Open Scope nat_scope.
Local Open Scope io_scope.

Definition BATCH_SIZE : nat := 10.
Definition FLUSH_INTERVAL_MS : nat := 5000.
Definition MAX_QUEUE_SIZE : nat := 1000.

Definition TrackProperties : Type := list (string * string).

Record QueuedEvent : Type := mkEvent {
  event_type : string;
  properties : TrackProperties
}.

(** The argument of [track] as it arrives at run time. *)
Inductive JsValue : Type :=
| VUndefined
| VNull
| VBoolean (b : bool)
| VNumber (x : number)
| VString (s : string)
| VObject.

(** The body of a successful batch response; [None] in [PostResolves] is
    the JSON value [null]. *)
Record BatchResult : Type := mkBatchResult {
  ok : bool;
  accepted : option nat;
  errors : option (list string)
}.

(** How the promise of [client.post] settles. *)
Inductive PostOutcome : Type :=
| PostResolves (result : option BatchResult)
| PostRejects (e : Thrown).

(** A [client.post] call that has not settled, with the snapshot the
    suspended [flush] holds in [events]. *)
Record PendingPost : Type := mkPending {
  post_id : nat;
  post_events : list QueuedEvent
}.

(** A call of [navigator.sendBeacon]: the URL, the members of the JSON
    body, and the boolean the call returned. *)
Record Beacon : Type := mkBeacon {
  beacon_url : string;
  beacon_events : list QueuedEvent;
  beacon_apiKey : string;
  beacon_queued : bool
}.

(** The instance ([queue], [flushTimer], [unloadHandler]) and the part of
    the host it acts on: pending timers, pending and past POSTs, beacons,
    console warnings, the [beforeunload] listener. *)
Record Sys : Type := mkSys {
  queue : list QueuedEvent;
  flushTimer : option nat;
  unloadHandler : bool;
  timers : list nat;
  nextTimer : nat;
  inflight : list PendingPost;
  posted : list (list QueuedEvent);
  beacons : list Beacon;
  warnings : list (list string);
  listening : bool
}.

Definition set_queue (q : list QueuedEvent) (s : Sys) : Sys :=
  mkSys q (flushTimer s) (unloadHandler s) (timers s) (nextTimer s)
        (inflight s) (posted s) (beacons s) (warnings s) (listening s).

Definition set_flushTimer (t : option nat) (s : Sys) : Sys :=
  mkSys (queue s) t (unloadHandler s) (timers s) (nextTimer s)
        (inflight s) (posted s) (beacons s) (warnings s) (listening s).

Definition set_timers (ts : list nat) (s : Sys) : Sys :=
  mkSys (queue s) (flushTimer s) (unloadHandler s) ts (nextTimer s)
        (inflight s) (posted s) (beacons s) (warnings s) (listening s).

Definition set_inflight (ps : list PendingPost) (s : Sys) : Sys :=
  mkSys (queue s) (flushTimer s) (unloadHandler s) (timers s) (nextTimer s)
        ps (posted s) (beacons s) (warnings s) (listening s).

(** [setTimeout(callback, FLUSH_INTERVAL_MS)]: the only callback ever
    registered is the one of [track]; the handle is a fresh identifier. *)
Definition setTimeout (s : Sys) : nat * Sys :=
  (nextTimer s,
   mkSys (queue s) (flushTimer s) (unloadHandler s)
         (timers s ++ [nextTimer s]) (S (nextTimer s))
         (inflight s) (posted s) (beacons s) (warnings s) (listening s)).

(** [clearTimeout(id)]; idempotent. *)
Definition clearTimeout (id : nat) (s : Sys) : Sys :=
  set_timers (filter (fun t => negb (t =? id)) (timers s)) s.

(** [client.post('/v1/api/analytics/batch', { events })]: the call is
    recorded and left pending. *)
Definition client_post (events : list QueuedEvent) (s : Sys) : nat * Sys :=
  let id := List.length (posted s) in
  (id,
   mkSys (queue s) (flushTimer s) (unloadHandler s) (timers s) (nextTimer s)
         (inflight s ++ [mkPending id events]) (posted s ++ [events])
         (beacons s) (warnings s) (listening s)).

Definition M : Type -> Type := @Eff Sys.

Definition console_warn (msg : list string) : M unit :=
  fun s =>
    (Resolved tt,
     mkSys (queue s) (flushTimer s) (unloadHandler s) (timers s) (nextTimer s)
           (inflight s) (posted s) (beacons s) (warnings s ++ [msg])
           (listening s)).

Definition sendBeacon (b : Beacon) (s : Sys) : Sys :=
  mkSys (queue s) (flushTimer s) (unloadHandler s) (timers s) (nextTimer s)
        (inflight s) (posted s) (beacons s ++ [b]) (warnings s) (listening s).

(** An [async] call after its synchronous part: settled, or suspended on
    the POST with the given identifier. *)
Inductive Async : Type :=
| Settled (r : Result unit)
| AwaitingPost (id : nat).

(** *** Validation of the event name (the head of [track]) *)

Definition quote : string := String (ascii_of_nat 34) EmptyString.

Definition isNameChar (c : ascii) : bool :=
  let n := nat_of_ascii c in
  ((97 <=? n) && (n <=? 122)) || ((48 <=? n) && (n <=? 57)) || (n =? 95).

(** [/^custom\.[a-z0-9_]+$/.test(s)] *)
Definition eventNameRegex_test (s : string) : bool :=
  match stripPrefix "custom." s with
  | Some rest => negb (String.eqb rest "") && forallb isNameChar rest
  | None => false
  end.

Definition emptyNameError : Thrown :=
  Error "Tolinku: event name must be a non-empty string".

Definition invalidNameError (eventType : string) : Thrown :=
  Error ("Tolinku: event name " ++ quote ++ eventType ++ quote
         ++ " is invalid. Event names must match the pattern "
         ++ quote ++ "custom.[a-z0-9_]+" ++ quote
         ++ " (lowercase letters, numbers, and underscores only after "
         ++ quote ++ "custom." ++ quote ++ ")")%string.

(** The two checks and the prefixing at the head of [track]: the name to
    queue, or the error thrown. *)
Definition checkedName (eventType : JsValue) : Thrown + string :=
  match eventType with
  | VString name =>
      if String.length (trim name) =? 0 then inl emptyNameError
      else
        let eventType :=
          if startsWith name "custom." then name
          else ("custom." ++ name)%string in
        if negb (eventNameRegex_test eventType)
        then inl (invalidNameError eventType)
        else inr eventType
  | _ => inl emptyNameError
  end.

(** *** [flush] *)

(** The synchronous part of [flush()], up to the [await]. *)
Definition flush (s : Sys) : Sys * Async :=
  let s1 :=
    match flushTimer s with
    | Some id => set_flushTimer None (clearTimeout id s)
    | None => s
    end in
  match queue s1 with
  | [] => (s1, Settled (Resolved tt))
  | _ :: _ =>
      (* Drain the queue before sending *)
      let events := queue s1 in
      let s2 := set_queue [] s1 in
      let (id, s3) := client_post events s2 in
      (s3, AwaitingPost id)
  end.

(** [this.queue.unshift(...events)] *)
Definition unshift (events : list QueuedEvent) : M unit :=
  fun s => (Resolved tt, set_queue (events ++ queue s) s).

(** [this.queue.splice(0, n)], result dropped *)
Definition spliceFront (n : nat) : M unit :=
  fun s => (Resolved tt, set_queue (skipn n (queue s)) s).

Definition awaitPost (out : PostOutcome) : M BatchResult :=
  match out with
  | PostRejects e => throw e
  | PostResolves (Some result) => ret result
  | PostResolves None =>
      (* [result.errors] on [null] *)
      throw (TypeError "Cannot read properties of null (reading 'errors')")
  end.

(** The rest of [flush()] once the POST of [events] has settled. *)
Definition flush_resume (out : PostOutcome) (events : list QueuedEvent)
  : M unit :=
  try_catch
    (result <- awaitPost out ;;
     match errors result with
     | Some (e :: es) =>
         console_warn ("[TolinkuSDK] Batch partial failure:"%string :: e :: es)
     | _ => ret tt
     end)
    (fun _ =>
       (* re-queue the events at the front so they can be retried *)
       unshift events ;;
       (* drop the oldest events if the queue exceeds the max size *)
       fun s =>
         if MAX_QUEUE_SIZE <? List.length (queue s)
         then spliceFront (List.length (queue s) - MAX_QUEUE_SIZE) s
         else ret tt s).

(** The callback of the flush timer:
    [this.flushTimer = null; this.flush()]. *)
Definition onFlushTimer (s : Sys) : Sys * Async :=
  flush (set_flushTimer None s).

(** *** [track] *)

(** [track] from [this.queue.push] on, for a name that passed the checks. *)
Definition enqueue (eventType : string) (props : option TrackProperties)
           (s : Sys) : Sys * Async :=
  let s1 :=
    set_queue
      (queue s ++ [mkEvent eventType
                           (match props with Some p => p | None => [] end)])
      s in
  (* Start the flush timer if this is the first queued event *)
  let s2 :=
    if (List.length (queue s1) =? 1)
       && (match flushTimer s1 with Some _ => false | None => true end)
    then let (id, s') := setTimeout s1 in set_flushTimer (Some id) s'
    else s1 in
  (* Flush immediately if the batch is full *)
  if BATCH_SIZE <=? List.length (queue s2) then flush s2
  else (s2, Settled (Resolved tt)).

Definition track (eventType : JsValue) (props : option TrackProperties)
           (s : Sys) : Sys * Async :=
  match checkedName eventType with
  | inl err => (s, Settled (Rejected err))
  | inr eventType => enqueue eventType props s
  end.

(** *** Teardown *)

(** What the instance sees of its surroundings: whether [window] is
    defined, whether [navigator.sendBeacon] is a function, the boolean it
    returns, and the two accessors of the client. *)
Record Host : Type := mkHost {
  hasWindow : bool;
  hasSendBeacon : bool;
  beaconQueued : bool;
  baseUrl : string;
  key : string
}.

Section WithHost.
Variable host : Host.

(** The constructor. *)
Definition create : Sys :=
  mkSys [] None (hasWindow host) [] 1 [] [] [] [] (hasWindow host).

Definition flushBeacon (s : Sys) : Sys :=
  match queue s with
  | [] => s
  | _ :: _ =>
      let events := queue s in
      let s1 := set_queue [] s in
      let url := (baseUrl host ++ "/v1/api/analytics/batch")%string in
      if hasSendBeacon host
      then sendBeacon (mkBeacon url events (key host) (beaconQueued host)) s1
      else s1
  end.

Definition destroy (s : Sys) : Sys :=
  let s1 := flushBeacon s in
  let s2 :=
    match flushTimer s1 with
    | Some id => set_flushTimer None (clearTimeout id s1)
    | None => s1
    end in
  if hasWindow host && unloadHandler s2 then
    mkSys (queue s2) (flushTimer s2) false (timers s2) (nextTimer s2)
          (inflight s2) (posted s2) (beacons s2) (warnings s2) false
  else s2.

(** *** The event loop *)

Inductive Label : Type :=
| LTrack (eventType : JsValue) (props : option TrackProperties)
| LFlush
| LTimer (id : nat)
| LSettle (id : nat) (out : PostOutcome)
| LUnload
| LDestroy.

Definition findPending (id : nat) (s : Sys) : option PendingPost :=
  find (fun p => post_id p =? id) (inflight s).

Definition dropPending (id : nat) (s : Sys) : Sys :=
  set_inflight (filter (fun p => negb (post_id p =? id)) (inflight s)) s.

(** The pending POST [id] settles and the suspended [flush] runs on. *)
Definition settle (id : nat) (out : PostOutcome) (s : Sys)
  : option (Result unit * Sys) :=
  match findPending id s with
  | Some p => Some (flush_resume out (post_events p) (dropPending id s))
  | None => None
  end.

(** One task of the event loop.  A label that cannot happen (a timer
    that is not pending, a POST that is not in flight, a page unload
    with no listener) does nothing. *)
Definition exec (l : Label) (s : Sys) : Sys :=
  match l with
  | LTrack v props => fst (track v props s)
  | LFlush => fst (flush s)
  | LTimer id =>
      if existsb (Nat.eqb id) (timers s)
      then fst (onFlushTimer
                  (set_timers (filter (fun t => negb (t =? id)) (timers s)) s))
      else s
  | LSettle id out =>
      match settle id out s with
      | Some (_, s') => s'
      | None => s
      end
  | LUnload => if listening s then flushBeacon s else s
  | LDestroy => destroy s
  end.

Definition run (ls : list Label) (s : Sys) : Sys :=
  fold_left (fun s l => exec l s) ls s.

(** States reached from a new instance by steps satisfying [allowed]. *)
Inductive reachable (allowed : Label -> Prop) : Sys -> Prop :=
| reach_create : reachable allowed create
| reach_exec s l :
    reachable allowed s -> allowed l -> reachable allowed (exec l s).

End WithHost.

End Analytics.

(** ** The rest of the client module: constructor, abort handle, callers *)

Module ClientObject.
Import JsString Effects Client.
Local Open Scope nat_scope.
Local Open Scope io_scope.

Fixpoint allSlashes (s : string) : bool :=
  match s with
  | EmptyString => true
  | String c rest => Ascii.eqb c "/"%char && allSlashes rest
  end.

(** [s.replace(/\/+$/, '')]: the leftmost position from which a non-empty
    run of slashes reaches the end of the string is where the match starts;
    the match is replaced by the empty string. *)
Fixpoint stripTrailingSlashes (s : string) : string :=
  match s with
  | EmptyString => EmptyString
  | String c rest =>
      if Ascii.eqb c "/"%char && allSlashes rest then EmptyString
      else String c (stripTrailingSlashes rest)
  end.

(** The fields of an [HttpClient]; [abortController] holds the identity of
    an [AbortController] object, or is null. *)
Record HttpClient : Type := mkHttpClient {
  _baseUrl : string;
  apiKey : string;
  abortController : option nat
}.

(** The [AbortController] objects made so far (identities below
    [controllersMade]) and those whose signal is aborted. *)
Record Controllers : Type := mkControllers {
  controllersMade : nat;
  abortedControllers : list nat
}.

(** [new HttpClient(config)] *)
Definition construct (baseUrl key : string) : HttpClient :=
  mkHttpClient (stripTrailingSlashes baseUrl) key None.

(** Abort all in-flight requests. *)
Definition abort (c : HttpClient) (h : Controllers) : HttpClient * Controllers :=
  match abortController c with
  | Some ctl =>
      (mkHttpClient (_baseUrl c) (apiKey c) None,
       mkControllers (controllersMade h) (ctl :: abortedControllers h))
  | None => (c, h)
  end.

(** The getter [signal]: the signal of the current controller, creating a
    controller if needed.  A signal is named by its controller. *)
Definition signal (c : HttpClient) (h : Controllers)
  : nat * (HttpClient * Controllers) :=
  match abortController c with
  | Some ctl => (ctl, (c, h))
  | None =>
      let ctl := controllersMade h in
      (ctl,
       (mkHttpClient (_baseUrl c) (apiKey c) (Some ctl),
        mkControllers (S ctl) (abortedControllers h)))
  end.

(** [signal.aborted] *)
Definition signalAborted (ctl : nat) (h : Controllers) : bool :=
  existsb (Nat.eqb ctl) (abortedControllers h).

(** What a page does with the handle: start a request (which reads
    [this.signal]) or call [abort()]. *)
Inductive Use : Type :=
| StartRequest
| Abort.

Definition use (u : Use) (ch : HttpClient * Controllers)
  : HttpClient * Controllers :=
  match u with
  | StartRequest => snd (signal (fst ch) (snd ch))
  | Abort => abort (fst ch) (snd ch)
  end.

Definition uses (us : list Use) (ch : HttpClient * Controllers)
  : HttpClient * Controllers :=
  fold_left (fun ch u => use u ch) us ch.

(** *** [Deferred.claimByToken] (class [Deferred], the second part of
    [src/banners.ts]): a caller that catches every failure *)

(** [console.warn] in the monad of a request; the console is not part of
    the state of the request. *)
Definition console_warn (err : Thrown) : IO unit := ret tt.

(** [qs] is [new URLSearchParams({ token }).toString()]; [None] is the
    value [null]. *)
Definition claimByToken (env : Env) (baseUrl : string) (qs : option string)
  : IO (option JsonBody) :=
  try_catch
    (link <- getPublic env baseUrl "/v1/api/deferred/claim" qs ;;
     ret (Some link))
    (fun err =>
       console_warn err ;;
       ret None).

End ClientObject.

(** ** [src/referrals.ts]: class [Referrals], the lookup by code *)

Module Referrals.
Import JsString Effects Client.
Local Open Scope nat_scope.
Local Open Scope io_scope.

(** The characters [encodeURIComponent] leaves as they are:
    letters, digits and [- _ . ! ~ * ' ( )]. *)
Definition isUnreserved (c : ascii) : bool :=
  let n := nat_of_ascii c in
  ((65 <=? n) && (n <=? 90)) || ((97 <=? n) && (n <=? 122))
  || ((48 <=? n) && (n <=? 57))
  || (n =? 45) || (n =? 95) || (n =? 46) || (n =? 33) || (n =? 126)
  || (n =? 42) || (n =? 39) || (n =? 40) || (n =? 41).

Definition hexDigit (n : nat) : ascii :=
  if n <? 10 then ascii_of_nat (48 + n) else ascii_of_nat (55 + n).

(** [%XX] for the byte [b] *)
Definition percent (b : nat) : string :=
  String "%"%char (String (hexDigit (b / 16)) (String (hexDigit (b mod 16)) EmptyString)).

(** One code unit below 256: kept, or the escapes of its UTF-8 bytes (one
    byte below 128, two bytes from 128 on). *)
Definition encodeUnit (c : ascii) : string :=
  let n := nat_of_ascii c in
  if isUnreserved c then String c EmptyString
  else if n <? 128 then percent n
  else (percent (192 + n / 64) ++ percent (128 + n mod 64))%string.

Fixpoint encodeURIComponent (s : string) : string :=
  match s with
  | EmptyString => EmptyString
  | String c rest => (encodeUnit c ++ encodeURIComponent rest)%string
  end.

(** Get referral info by code:
    [this.client.get(`/v1/api/referral/${encodeURIComponent(code)}`)]. *)
Definition get (env : Env) (baseUrl apiKey : string) (code : string)
  : IO JsonBody :=
  Client.get env baseUrl apiKey
             ("/v1/api/referral/" ++ encodeURIComponent code)%string None.

End Referrals.

(** ** [src/index.ts]: class [Tolinku], the shorthand for tracking *)

Module Tolinku.
Import JsString Effects Analytics.
Local Open Scope nat_scope.

(** An object with string values as the list of its own properties; a key
    occurs once.  [o[k] = v]: an existing property keeps its place. *)
Fixpoint objectSet (k v : string) (o : TrackProperties) : TrackProperties :=
  match o with
  | [] => [(k, v)]
  | (k', v') :: rest =>
      if String.eqb k' k then (k', v) :: rest
      else (k', v') :: objectSet k v rest
  end.


(** [{ ...target, ...source }] on a target already built; spreading
    [undefined] adds nothing. *)
Definition spread (target : TrackProperties) (source : option TrackProperties)
  : TrackProperties :=
  match source with
  | Some src => fold_left (fun o kv => objectSet (fst kv) (snd kv) o) src target
  | None => target
  end.

(** [this._userId ? { user_id: this._userId, ...properties } : properties] *)
Definition mergedProps (userId : option string)
           (properties : option TrackProperties) : option TrackProperties :=
  match userId with
  | Some u =>
      if String.eqb u "" then properties
      else Some (spread [("user_id"%string, u)] properties)
  | None => properties
  end.

(** [Tolinku.track]: shorthand for [analytics.track] with the user id
    injected. *)
Definition track (userId : option string) (eventType : JsValue)
           (properties : option TrackProperties) (s : Sys) : Sys * Async :=
  Analytics.track eventType (mergedProps userId properties) s.

End Tolinku.

(** ** Vocabulary of the client properties *)

Module ClientSpec.
Import JsNumber Effects Client.
Local Open Scope nat_scope.
Local Open Scope list_scope.

(** Network calls recorded in a log. *)
Definition networkCalls (l : list Event) : nat :=
  List.length (filter (fun ev => match ev with EvFetch _ _ => true | _ => false end) l).

(** Delays of the timers recorded in a log, oldest first. *)
Fixpoint delays (l : list Event) : list number :=
  match l with
  | [] => []
  | EvSleep ms _ :: rest => ms :: delays rest
  | EvFetch _ _ :: rest => delays rest
  end.

(** The event records a cancellation: a network call rejected with an
    AbortError, or a retry delay cut short. *)
Definition isAbortEvent (ev : Event) : bool :=
  match ev with
  | EvFetch _ (FetchRejects e) => isAbortError e
  | EvFetch _ (FetchResolves _) => false
  | EvSleep _ fired => negb fired
  end.

(** The rate-limit hint of the specification: the numeric seconds value
    of the Retry-After header of a 429 response. *)
Definition rateLimitHint (res : option Response) : option number :=
  match res with
  | Some r =>
      if (status r =? 429)%Z then
        match retryAfter r with
        | Some raw =>
            if String.eqb raw "" then None
            else if isNaN (Number raw) then None else Some (Number raw)
        | None => None
        end
      else None
  | None => None
  end.

Definition NoAbort (l : list Event) : Prop :=
  Forall (fun ev => isAbortEvent ev = false) l.

(** A cancellation event can only be the last event. *)
Definition AbortOnlyLast (l : list Event) : Prop :=
  forall pre ev post,
    l = pre ++ ev :: post -> isAbortEvent ev = true -> post = [].

(** The backoff branch of [computeDelay]: one value is drawn from the
    random source. *)
Definition backoffFrom (env : Env) (attempt : nat) (st : State)
  : Result number * State :=
  (Resolved (Fin (BASE_DELAY_MS * 2 ^ Z.of_nat attempt
                  + random env (drawn st) * MAX_JITTER_MS)%Q),
   mkState (fetched st) (slept st) (S (drawn st)) (aborted st) (log st)).

Definition r500 : Response :=
  mkResponse 500 "Error" None (Some (mkJsonBody (Some "Server Error") None "")).

Definition r404 : Response :=
  mkResponse 404 "Error" None (Some (mkJsonBody (Some "Not Found") None "")).

Definition r429 (hint : option string) : Response :=
  mkResponse 429 "Error" hint (Some (mkJsonBody (Some "Rate limited") None "")).

Definition getTest : Request :=
  mkRequest "https://api.example.com/v1/test" "GET"
            [("X-API-Key", "tolk_pub_test_123")] None.

(** Every call answers 500, nothing is cancelled, [Math.random] is 0. *)
Definition always500 : Env :=
  mkEnv (fun _ => FetchResolves r500) (fun _ => false) (fun _ => 0%Q).

Definition always404 : Env :=
  mkEnv (fun _ => FetchResolves r404) (fun _ => false) (fun _ => 0%Q).


(** What the facade throws for a response that is not successful: a
    [TolinkuError] with the status of the response, its message taken from
    the body or from the status line, unless the body is [null]. *)
Definition facadeError (r : Response) : Thrown :=
  match json r with
  | Some JsonNull => nullError "error"
  | Some (mkJsonBody e c _) => TolinkuError (orElse e (statusText r)) (status r) c
  | None => TolinkuError (statusText r) (status r) None
  end.

(** A server error whose body is the JSON text [null]. *)
Definition r500null : Response :=
  mkResponse 500 "Internal Server Error" None (Some JsonNull).

Definition always500null : Env :=
  mkEnv (fun _ => FetchResolves r500null) (fun _ => false) (fun _ => 0%Q).

(** A client error whose body is the JSON text [null]. *)
Definition r404null : Response :=
  mkResponse 404 "Not Found" None (Some JsonNull).

Definition always404null : Env :=
  mkEnv (fun _ => FetchResolves r404null) (fun _ => false) (fun _ => 0%Q).

End ClientSpec.

(** ** Vocabulary of the batcher properties *)

Module AnalyticsSpec.
Import JsString Effects Analytics.
Local Open Scope nat_scope.
Local Open Scope list_scope.

(** What [splice(0, length - n)] leaves of a list longer than [n]: its
    last [n] elements; a shorter list is left as it is. *)
Definition dropOldest {A} (n : nat) (l : list A) : list A :=
  skipn (List.length l - n) l.

(** Steps of normal operation: everything but page unload and
    [destroy]. *)
Definition core (l : Label) : Prop :=
  match l with
  | LUnload | LDestroy => False
  | _ => True
  end.

Definition anyLabel (l : Label) : Prop := True.

(** Steps in which no POST fails: every step but a POST that is rejected
    or resolves with [null]. *)
Definition noFailure (l : Label) : Prop :=
  match l with
  | LSettle _ (PostRejects _) => False
  | LSettle _ (PostResolves None) => False
  | _ => True
  end.

(** Steps of normal operation in which no POST fails. *)
Definition delivering (l : Label) : Prop := core l /\ noFailure l.

(** The timer handle and the host's pending timers agree, and a timer is
    pending only while events are queued. *)
Definition TimerInv (s : Sys) : Prop :=
  (flushTimer s <> None -> queue s <> [])
  /\ timers s = match flushTimer s with Some id => [id] | None => [] end.

Definition validEvent (ev : QueuedEvent) : Prop :=
  eventNameRegex_test (event_type ev) = true.

(** Every event held anywhere has a valid name, and the identifiers of
    the pending POSTs are those of POSTs already issued. *)
Definition StoreInv (s : Sys) : Prop :=
  Forall validEvent (queue s)
  /\ Forall (fun p => Forall validEvent (post_events p)
                      /\ post_id p < List.length (posted s)) (inflight s)
  /\ Forall (Forall validEvent) (posted s)
  /\ Forall (fun b => Forall validEvent (beacon_events b)) (beacons s).

(** A browser page, as in the tests of the repository. *)
Definition browser : Host :=
  mkHost true true true "https://api.example.com" "tolk_pub_test".

Definition named (n : string) : Label := LTrack (VString n) None.

Definition event (n : string) : QueuedEvent := mkEvent n [].

Definition networkError : Thrown := Error "Network error".

(** Two events queued, then a manual flush whose POST is rejected. *)
Definition afterFailedFlush : Sys :=
  run browser
      [named "event_a"; named "event_b"; LFlush;
       LSettle 0 (PostRejects networkError)]
      (create browser).

(** An environment without [navigator.sendBeacon]. *)
Definition noBeacon : Host :=
  mkHost true false false "https://api.example.com" "tolk_pub_test".

(** The properties an event is queued with: [properties || {}]. *)
Definition queuedProps (props : option TrackProperties) : TrackProperties :=
  match props with
  | Some p => p
  | None => []
  end.

(** The event a step adds: the one of a [track] call that passes the
    checks. *)
Definition acceptedEvent (l : Label) : list QueuedEvent :=
  match l with
  | LTrack v props =>
      match checkedName v with
      | inr name => [mkEvent name (queuedProps props)]
      | inl _ => []
      end
  | _ => []
  end.

Definition acceptedEvents (ls : list Label) : list QueuedEvent :=
  flat_map acceptedEvent ls.

(** The events of the POSTs in flight, oldest POST first. *)
Definition pendingEvents (s : Sys) : list QueuedEvent :=
  List.concat (map post_events (inflight s)).

(** The events in flight followed by the queue are the most recent of the
    events [h] accepted so far, in the order of their [track] calls. *)
Definition InOrder (h : list QueuedEvent) (s : Sys) : Prop :=
  exists gone, h = gone ++ pendingEvents s ++ queue s.

(** A run of normal operation in which at most one POST is in flight at
    any time. *)
Fixpoint oneAtATime (host : Host) (ls : list Label) (s : Sys) : Prop :=
  match ls with
  | [] => True
  | l :: rest =>
      core l
      /\ List.length (inflight (exec host l s)) <= 1
      /\ oneAtATime host rest (exec host l s)
  end.

(** A hundred batches of ten events, each handed to the client when its
    tenth event is tracked, and none of the POSTs settled. *)
Definition hundredBatches : list Label :=
  flat_map (fun _ => repeat (named "e") 10) (seq 0 100).

(** The POSTs numbered below [n] fail one after the other. *)
Definition failInTurn (n : nat) : list Label :=
  map (fun k => LSettle k (PostRejects networkError)) (seq 0 n).

(** Ten events whose POST fails, then [n] times one more event, flushed
    with everything queued by the batch-size check of [track], and that
    POST failing too: one POST in flight at a time, and a queue that grows
    by one event per round. *)
Definition failingRounds (n : nat) : list Label :=
  named "first" :: repeat (named "e") 9
  ++ LSettle 0 (PostRejects networkError)
  :: flat_map (fun k => [named "e"; LSettle k (PostRejects networkError)])
              (seq 1 n).

(** A hundred POSTs in flight, and nine events tracked after them. *)
Definition nineMore : Sys :=
  run browser (hundredBatches ++ repeat (named "last") 9) (create browser).

(** While events are queued, the flush timer is set. *)
Definition TimerArmed (s : Sys) : Prop :=
  queue s <> [] -> flushTimer s <> None.

(** The states in which nothing is scheduled: no timer is pending and no
    POST is in flight. *)
Definition nothingScheduled (s : Sys) : Prop :=
  timers s = [] /\ inflight s = [].

(** The name under which the specification queues an event: the name
    itself when it starts with the prefix, the prefixed name otherwise. *)
Definition autoPrefix (name : string) : string :=
  if startsWith name "custom." then name else ("custom." ++ name)%string.

(** The names the specification accepts: strings that are not blank and
    whose prefixed form matches the pattern. *)
Definition acceptedName (v : JsValue) : option string :=
  match v with
  | VString name =>
      if (0 <? String.length (trim name))
         && eventNameRegex_test (autoPrefix name)
      then Some (autoPrefix name)
      else None
  | _ => None
  end.

End AnalyticsSpec.

(** ** Vocabulary of the further client properties *)

Module ClientExtraSpec.
Import JsNumber Effects Client ClientSpec.
Local Open Scope nat_scope.
Local Open Scope list_scope.

(** The state after a network call with outcome [o]. *)
Definition afterFetch (req : Request) (o : FetchOutcome) (st : State) : State :=
  mkState (S (fetched st)) (slept st) (drawn st)
          (match o with FetchRejects e => isAbortError e | FetchResolves _ => false end)
          (log st ++ [EvFetch req o]).

(** The state after a retry delay of [ms] that fired, or was cut short. *)
Definition afterSleep (ms : number) (fired : bool) (st : State) : State :=
  mkState (fetched st) (S (slept st)) (drawn st) (negb fired)
          (log st ++ [EvSleep ms fired]).

(** An attempt that the loop follows by another one when attempts remain:
    a response that is neither 2xx nor a 4xx other than 429, or a rejection
    that is not an AbortError. *)
Definition retryableOutcome (o : FetchOutcome) : bool :=
  match o with
  | FetchResolves r => negb (nonRetryable r)
  | FetchRejects e => negb (isAbortError e)
  end.

(** How a request settles when its last attempt had the outcome [o]. *)
Definition settledAs (o : FetchOutcome) : Result Response :=
  match o with
  | FetchResolves r => Resolved r
  | FetchRejects e => Rejected e
  end.



(** The ways one iteration of the retry loop can go. *)
Inductive AttemptStep (env : Env) (req : Request) (attempt : nat)
          (lastError : option Thrown) (st : State)
  : Result Completion -> State -> Prop :=
| StepRefused :
    aborted st = true ->
    AttemptStep env req attempt lastError st (Rejected abortError) st
| StepReturn r :
    aborted st = false ->
    fetch_outcome env (fetched st) = FetchResolves r ->
    nonRetryable r = true \/ MAX_RETRIES <= attempt ->
    AttemptStep env req attempt lastError st
                (Resolved (Return r)) (afterFetch req (FetchResolves r) st)
| StepRetry r d sd fired :
    aborted st = false ->
    fetch_outcome env (fetched st) = FetchResolves r ->
    nonRetryable r = false -> attempt < MAX_RETRIES ->
    computeDelay env attempt (Some r) (afterFetch req (FetchResolves r) st)
    = (Resolved d, sd) ->
    fired = negb (abort_during_sleep env (slept st)) ->
    AttemptStep env req attempt lastError st
                (if fired then Resolved (Continue lastError)
                 else Rejected abortError)
                (afterSleep d fired sd)
| StepAborted e :
    aborted st = false ->
    fetch_outcome env (fetched st) = FetchRejects e ->
    isAbortError e = true ->
    AttemptStep env req attempt lastError st
                (Rejected e) (afterFetch req (FetchRejects e) st)
| StepLastError e :
    aborted st = false ->
    fetch_outcome env (fetched st) = FetchRejects e ->
    isAbortError e = false -> MAX_RETRIES <= attempt ->
    AttemptStep env req attempt lastError st
                (Resolved (Continue (Some e))) (afterFetch req (FetchRejects e) st)
| StepRetryError e d sd fired :
    aborted st = false ->
    fetch_outcome env (fetched st) = FetchRejects e ->
    isAbortError e = false -> attempt < MAX_RETRIES ->
    computeDelay env attempt None (afterFetch req (FetchRejects e) st)
    = (Resolved d, sd) ->
    fired = negb (abort_during_sleep env (slept st)) ->
    AttemptStep env req attempt lastError st
                (if fired then Resolved (Continue (Some e))
                 else Rejected abortError)
                (afterSleep d fired sd).

(** What the facade makes of the final response of the executor. *)
Definition facadeResult (r : Response) : Result JsonBody :=
  if ok r then
    match json r with
    | Some b => Resolved b
    | None => Rejected (TolinkuError "Invalid JSON in response body" (status r) None)
    end
  else Rejected (facadeError r).





(** A state of the abort handle reached by a page from a new client. *)
Definition handleAfter (us : list ClientObject.Use) (baseUrl key : string)
  : ClientObject.HttpClient * ClientObject.Controllers :=
  ClientObject.uses us (ClientObject.construct baseUrl key,
                        ClientObject.mkControllers 0 []).

(** A network call of the log was made with the request [req]. *)
Definition sameRequest (req : Request) (ev : Event) : Prop :=
  match ev with
  | EvFetch r _ => r = req
  | EvSleep _ _ => True
  end.

(** A network call of the log carried no [X-API-Key] header. *)
Definition noApiKey (ev : Event) : Prop :=
  match ev with
  | EvFetch r _ =>
      existsb (fun h => String.eqb (fst h) "X-API-Key") (headers r) = false
  | EvSleep _ _ => True
  end.

(** *** Vocabulary of the callers *)



(** The request [Deferred.claimByToken] hands to the executor. *)
Definition claimRequest (baseUrl : string) (qs : option string) : Request :=
  mkRequest (withQuery (baseUrl ++ "/v1/api/deferred/claim")%string qs)
            "GET" [] None.

(** The controllers made so far are numbered below [controllersMade], and
    the controller the client holds has not been aborted. *)
Definition HandleInv (ch : ClientObject.HttpClient * ClientObject.Controllers)
  : Prop :=
  Forall (fun a => a < ClientObject.controllersMade (snd ch))
         (ClientObject.abortedControllers (snd ch))
  /\ match ClientObject.abortController (fst ch) with
     | Some ctl =>
         ctl < ClientObject.controllersMade (snd ch)
         /\ ClientObject.signalAborted ctl (snd ch) = false
     | None => True
     end.

(** *** Scenarios *)

(** Every call fails with the same network error. *)
Definition alwaysOffline : Env :=
  mkEnv (fun _ => FetchRejects (TypeError "Failed to fetch"))
        (fun _ => false) (fun _ => 0%Q).

Definition r200 : Response :=
  mkResponse 200 "OK" None (Some (mkJsonBody None None "success")).

(** Three server errors, then success. *)
Definition recovers : Env :=
  mkEnv (fun n => if n <? 3 then FetchResolves r500 else FetchResolves r200)
        (fun _ => false) (fun _ => 0%Q).

(** A rate-limited first call that asks for two seconds, then success;
    the random source is at its midpoint. *)
Definition rateLimitedOnce : Env :=
  mkEnv (fun n => if n =? 0 then FetchResolves (r429 (Some "2"))
                  else FetchResolves r200)
        (fun _ => false) (fun _ => (1 # 2)%Q).

End ClientExtraSpec.

(** ** Vocabulary of the further batcher properties *)

Module AnalyticsExtraSpec.
Import JsString Effects Analytics AnalyticsSpec.
Local Open Scope nat_scope.
Local Open Scope list_scope.

(** The events handed to the client, batch after batch, followed by those
    still queued. *)
Definition sentThenQueued (s : Sys) : list QueuedEvent :=
  List.concat (posted s) ++ queue s.

(** The queue holds at most [cap] events and every batch handed to the
    client holds between one and [cap + 1] events. *)
Definition Bounded (cap : nat) (s : Sys) : Prop :=
  List.length (queue s) <= cap
  /\ Forall (fun b => 1 <= List.length b <= S cap) (posted s).


(** What the console shows for a response that reports errors. *)
Definition partialFailureWarning (result : BatchResult) : list (list string) :=
  match errors result with
  | Some (e :: es) => [("[TolinkuSDK] Batch partial failure:"%string :: e :: es)]
  | _ => []
  end.

(** A response that reports two rejected events. *)
Definition partialFailure : BatchResult :=
  mkBatchResult false (Some 0) (Some ["bad event"%string; "worse event"%string]).

(** Two events queued and a manual flush whose POST is pending. *)
Definition flushPending : Sys :=
  run browser [named "event_a"; named "event_b"; LFlush] (create browser).

(** One event queued: the flush timer is pending. *)
Definition oneQueued : Sys := run browser [named "event_a"] (create browser).

End AnalyticsExtraSpec.

(** * Proofs *)

(** ** Properties of the rounding to binary64 *)

Module NumberFacts.
Import JsString JsNumber.
Local Open Scope Q_scope.

Lemma log2_below (q : Q) :
  0 < q ->
  2 ^ (Z.log2 (Qnum q) - Z.log2 (Zpos (Qden q)) - 1) < q.
Proof.
  destruct q as [n d]. unfold Qlt at 1. cbn [Qnum Qden]. rewrite Z.mul_1_r.
  cbn [Z.mul]. intros Hn.
  set (a := Z.log2 n). set (b := Z.log2 (Zpos d)).
  assert (Ha : (0 <= a)%Z) by apply Z.log2_nonneg.
  assert (Hb : (0 <= b)%Z) by apply Z.log2_nonneg.
  destruct (Z.log2_spec n Hn) as [La _]. fold a in La.
  destruct (Z.log2_spec (Zpos d) (Pos2Z.is_pos d)) as [_ Lb]. fold b in Lb.
  replace (a - b - 1)%Z with (a - (b + 1))%Z by lia.
  rewrite Qpower_minus by (intros H; discriminate H).
  rewrite (Qmake_Qdiv n d).
  rewrite <- (Zpower_Qpower 2 a Ha), <- (Zpower_Qpower 2 (b + 1)) by lia.
  assert (PB : 0 < inject_Z (2 ^ (b + 1))).
  { rewrite <- (Zlt_Qlt 0). apply Z.pow_pos_nonneg; lia. }
  assert (PD : 0 < inject_Z (Zpos d)).
  { rewrite <- (Zlt_Qlt 0). apply Pos2Z.is_pos. }
  apply Qlt_shift_div_r; [exact PB|].
  setoid_replace (inject_Z n / inject_Z (Z.pos d) * inject_Z (2 ^ (b + 1)))
    with ((inject_Z n * inject_Z (2 ^ (b + 1))) / inject_Z (Zpos d))
    by (field; intros H; rewrite H in PD; apply (Qlt_irrefl 0 PD)).
  apply Qlt_shift_div_l; [exact PD|].
  rewrite <- !inject_Z_mult, <- Zlt_Qlt.
  change (Z.succ b) with (b + 1)%Z in Lb.
  apply Z.le_lt_trans with (n * Z.pos d)%Z;
    [apply Z.mul_le_mono_nonneg_r; lia | apply Z.mul_lt_mono_pos_l; lia].
Qed.

Lemma ulpExponent_min (q : Q) : (-1074 <= ulpExponent q)%Z.
Proof. unfold ulpExponent. cbv zeta. apply Z.le_max_r. Qed.

Lemma ulpExponent_below (q : Q) :
  0 < q -> minDouble <= q -> 2 ^ ulpExponent q <= q.
Proof.
  intros Hq Hm. unfold ulpExponent. cbv zeta.
  set (k := (Z.log2 (Qnum q) - Z.log2 (Zpos (Qden q)))%Z).
  set (l := if Qle_bool (2 ^ k) q then k else (k - 1)%Z).
  assert (Hl : (l <= k)%Z) by (subst l; destruct (Qle_bool _ _); lia).
  destruct (Z.max_spec (l - 52) (-1074)) as [[_ E]|[_ E]]; rewrite E.
  - exact Hm.
  - apply Qle_trans with (2 ^ (k - 1)).
    + apply Qpower_le_compat_l; [lia | discriminate].
    + apply Qlt_le_weak. apply log2_below. exact Hq.
Qed.

Lemma roundHalfEven_floor (x : Q) : (Qfloor x <= roundHalfEven x)%Z.
Proof.
  unfold roundHalfEven. cbv zeta.
  destruct (Qcompare _ _); [destruct (Z.even _)| |]; lia.
Qed.

Lemma roundHalfEven_ge1 (x : Q) : 1 <= x -> (1 <= roundHalfEven x)%Z.
Proof.
  intros H. apply Z.le_trans with (Qfloor x); [|apply roundHalfEven_floor].
  change 1%Z with (Qfloor 1). apply Qfloor_resp_le. exact H.
Qed.

Lemma roundHalfEven_nonneg (x : Q) : 0 <= x -> (0 <= roundHalfEven x)%Z.
Proof.
  intros H. apply Z.le_trans with (Qfloor x); [|apply roundHalfEven_floor].
  change 0%Z with (Qfloor 0). apply Qfloor_resp_le. exact H.
Qed.

Lemma pow2_pos (e : Z) : 0 < 2 ^ e.
Proof. apply Qpower_0_lt. reflexivity. Qed.

(** A positive value of at least the least double is rounded to a positive double or to infinity. *)
Lemma roundPositive_positive (q : Q) :
  0 < q -> minDouble <= q -> gt0 (roundPositive q) = true.
Proof.
  intros Hq Hm. unfold roundPositive. cbv zeta.
  set (e := ulpExponent q). set (m := roundHalfEven (q / 2 ^ e)).
  destruct (Qle_bool _ _); [reflexivity|].
  cbn [gt0]. destruct (Qlt_le_dec 0 _) as [_|H]; [reflexivity|].
  exfalso. rewrite Qred_correct in H.
  assert (M : (1 <= m)%Z).
  { apply roundHalfEven_ge1. apply Qle_shift_div_l; [apply pow2_pos|].
    rewrite Qmult_1_l. apply ulpExponent_below; assumption. }
  pose proof (pow2_pos e) as P. rewrite Zle_Qle in M.
  change (inject_Z 1) with 1 in M. nra.
Qed.

(** What rounding returns is zero, or at least the least double. *)
Lemma roundPositive_range (q p : Q) :
  0 < q -> roundPositive q = Fin p -> p == 0 \/ minDouble <= p.
Proof.
  intros Hq. unfold roundPositive. cbv zeta.
  set (e := ulpExponent q). set (m := roundHalfEven (q / 2 ^ e)).
  destruct (Qle_bool _ _); [discriminate|]. intros H. injection H as <-.
  assert (Rc : Qred (inject_Z m * 2 ^ e) == inject_Z m * 2 ^ e) by apply Qred_correct.
  assert (M : (0 <= m)%Z).
  { apply roundHalfEven_nonneg. apply Qle_shift_div_l; [apply pow2_pos|].
    rewrite Qmult_0_l. apply Qlt_le_weak. exact Hq. }
  destruct (Z.eq_dec m 0) as [Z0|NZ].
  - left. rewrite Rc, Z0. ring.
  - right. rewrite Rc. assert (M1 : (1 <= m)%Z) by lia.
    assert (E : minDouble <= 2 ^ e).
    { unfold minDouble. apply Qpower_le_compat_l;
        [apply ulpExponent_min | discriminate]. }
    pose proof (pow2_pos e) as P. rewrite Zle_Qle in M1.
    change (inject_Z 1) with 1 in M1. nra.
Qed.

Lemma toDouble_range (q p : Q) :
  toDouble q = Fin p -> 0 < p -> minDouble <= p.
Proof.
  unfold toDouble. destruct (Qcompare q 0) eqn:C.
  - intros H Hp. inversion H; subst. discriminate Hp.
  - intros H Hp. apply Qlt_alt in C.
    destruct (roundPositive (- q)) as [| | |p'] eqn:R; try discriminate.
    inversion H; subst.
    assert (Hq : 0 < - q) by lra.
    destruct (roundPositive_range (- q) p' Hq R) as [Z0|Hm]; [lra|].
    assert (0 < minDouble) by apply pow2_pos. lra.
  - intros H Hp. apply Qgt_alt in C.
    destruct (roundPositive_range q p C H) as [Z0|Hm]; [lra | exact Hm].
Qed.

Lemma toDouble_positive (q : Q) :
  minDouble <= q -> gt0 (toDouble q) = true.
Proof.
  intros Hm. assert (Hq : 0 < q).
  { apply Qlt_le_trans with minDouble; [apply pow2_pos | exact Hm]. }
  unfold toDouble. rewrite (proj1 (Qgt_alt q 0) Hq).
  apply roundPositive_positive; assumption.
Qed.

(** The product of a positive double and 1000 is positive. *)
Lemma times_positive (x : number) (s : Q) :
  toDouble s = x -> gt0 x = true -> gt0 (times x 1000) = true.
Proof.
  intros E G. destruct x as [| | |p]; try discriminate; [reflexivity|].
  cbn [gt0] in G. destruct (Qlt_le_dec 0 p) as [Hp|]; [|discriminate].
  pose proof (toDouble_range s p E Hp) as Hm.
  cbn [times]. apply toDouble_positive.
  assert (0 < minDouble) by apply pow2_pos. lra.
Qed.





Lemma toDouble_not_NaN (q : Q) : isNaN (toDouble q) = false.
Proof.
  unfold toDouble, roundPositive. cbv zeta.
  destruct (Qcompare q 0); [reflexivity | |].
  - match goal with |- context [Qle_bool ?a ?b] => destruct (Qle_bool a b) end;
      reflexivity.
  - match goal with |- context [Qle_bool ?a ?b] => destruct (Qle_bool a b) end;
      reflexivity.
Qed.

(** What [Number] returns is [NaN], an infinity or a double. *)
Lemma Number_cases (raw : string) :
  Number raw = NaN \/ Number raw = PosInf \/ Number raw = NegInf
  \/ exists s, Number raw = toDouble s.
Proof.
  unfold Number. cbv zeta.
  destruct (trim raw) as [|c t] eqn:T.
  - right. right. right. exists 0. reflexivity.
  - destruct (radixLiteral (String c t)) as [[n|]|].
    + right. right. right. eexists. reflexivity.
    + left. reflexivity.
    + destruct (stripSign (String c t)) as [neg u].
      destruct (String.eqb u "Infinity").
      * destruct neg; auto.
      * destruct (unsignedDecimal u) as [q|]; [|auto].
        right. right. right. eexists. reflexivity.
Qed.

(** A hint that is greater than zero gives a delay that is a number
    greater than zero. *)
Lemma hint_times_positive (raw : string) :
  gt0 (Number raw) = true ->
  isNaN (times (Number raw) 1000) = false
  /\ gt0 (times (Number raw) 1000) = true.
Proof.
  intros G.
  destruct (Number_cases raw) as [E|[E|[E|[s E]]]]; rewrite E in *;
    try discriminate; [split; reflexivity|].
  split; [|apply (times_positive _ s eq_refl G)].
  destruct (toDouble s) as [| | |p] eqn:D; try discriminate; [reflexivity|].
  cbn [times]. apply toDouble_not_NaN.
Qed.

End NumberFacts.


(** ** Properties of the client *)

Module ClientFacts.
Import JsNumber Effects Client ClientSpec.
Local Open Scope nat_scope.
Local Open Scope list_scope.
Local Open Scope io_scope.

Lemma networkCalls_app l1 l2 :
  networkCalls (l1 ++ l2) = networkCalls l1 + networkCalls l2.
Proof. unfold networkCalls. rewrite filter_app, length_app. reflexivity. Qed.

Lemma nonRetryable_5xx r :
  (500 <= status r < 600)%Z -> nonRetryable r = false /\ (status r =? 429)%Z = false.
Proof.
  intros H. unfold nonRetryable, ok. split.
  - replace (status r <? 300)%Z with false by (symmetry; apply Z.ltb_ge; lia).
    replace (status r <? 500)%Z with false by (symmetry; apply Z.ltb_ge; lia).
    rewrite !andb_false_r. reflexivity.
  - apply Z.eqb_neq. lia.
Qed.

Lemma nonRetryable_4xx r :
  (400 <= status r < 500)%Z -> status r <> 429%Z ->
  nonRetryable r = true /\ ok r = false.
Proof.
  intros H N. unfold nonRetryable, ok.
  replace (status r <? 300)%Z with false by (symmetry; apply Z.ltb_ge; lia).
  replace (400 <=? status r)%Z with true by (symmetry; apply Z.leb_le; lia).
  replace (status r <? 500)%Z with true by (symmetry; apply Z.ltb_lt; lia).
  replace (status r =? 429)%Z with false by (symmetry; apply Z.eqb_neq; lia).
  rewrite andb_false_r. split; reflexivity.
Qed.

Section Run.
Variable env : Env.
Variable req : Request.

(** One iteration on a 5xx response with attempts left: one network
    call, one backoff delay with jitter, on to the next attempt. *)
Lemma attemptOnce_5xx_retry attempt lastError st r :
  aborted st = false ->
  fetch_outcome env (fetched st) = FetchResolves r ->
  (500 <= status r < 600)%Z ->
  attempt < MAX_RETRIES ->
  abort_during_sleep env (slept st) = false ->
  attemptOnce env req attempt lastError st =
    (Resolved (Continue lastError),
     mkState (S (fetched st)) (S (slept st)) (S (drawn st)) false
       (log st ++ [EvFetch req (FetchResolves r);
                   EvSleep (Fin (BASE_DELAY_MS * 2 ^ Z.of_nat attempt
                                 + random env (drawn st) * MAX_JITTER_MS)%Q) true])).
Proof.
  intros Hab Hf Hs Hlt Hsl.
  destruct (nonRetryable_5xx r Hs) as [Hnr H429].
  apply Nat.ltb_lt in Hlt.
  unfold attemptOnce, try_catch, tryBlock, bind, fetch, computeDelay.
  rewrite Hab, Hf. cbn [aborted fetched slept drawn log].
  rewrite Hnr, Hlt, H429.
  unfold bind, Math_random, sleep, ret.
  cbn [aborted fetched slept drawn log]. rewrite Hsl.
  rewrite <- app_assoc. reflexivity.
Qed.

(** The last iteration on a 5xx response: the response is returned. *)
Lemma attemptOnce_5xx_last attempt lastError st r :
  aborted st = false ->
  fetch_outcome env (fetched st) = FetchResolves r ->
  (500 <= status r < 600)%Z ->
  MAX_RETRIES <= attempt ->
  attemptOnce env req attempt lastError st =
    (Resolved (Return r),
     mkState (S (fetched st)) (slept st) (drawn st) false
       (log st ++ [EvFetch req (FetchResolves r)])).
Proof.
  intros Hab Hf Hs Hge.
  destruct (nonRetryable_5xx r Hs) as [Hnr _].
  apply Nat.ltb_ge in Hge.
  unfold attemptOnce, try_catch, tryBlock, bind, fetch.
  rewrite Hab, Hf. rewrite Hnr, Hge. reflexivity.
Qed.

(** An iteration on a 4xx response other than 429, whatever the
    attempt: the response is returned and no timer is started. *)
Lemma attemptOnce_4xx attempt lastError st r :
  aborted st = false ->
  fetch_outcome env (fetched st) = FetchResolves r ->
  (400 <= status r < 500)%Z -> status r <> 429%Z ->
  attemptOnce env req attempt lastError st =
    (Resolved (Return r),
     mkState (S (fetched st)) (slept st) (drawn st) false
       (log st ++ [EvFetch req (FetchResolves r)])).
Proof.
  intros Hab Hf Hs N.
  destruct (nonRetryable_4xx r Hs N) as [Hnr _].
  unfold attemptOnce, try_catch, tryBlock, bind, fetch.
  rewrite Hab, Hf. rewrite Hnr. reflexivity.
Qed.

End Run.

Lemma delays_app l1 l2 : delays (l1 ++ l2) = delays l1 ++ delays l2.
Proof.
  induction l1 as [|[rq o|ms f] l1 IH]; cbn [delays app].
  - reflexivity.
  - exact IH.
  - rewrite IH. reflexivity.
Qed.

(** *** Cancellation events in a log *)

Lemma NoAbort_no_abort l pre ev post :
  NoAbort l -> l = pre ++ ev :: post -> isAbortEvent ev = true -> False.
Proof.
  intros H E A. subst l. apply Forall_app in H. destruct H as [_ H].
  inversion H; subst. congruence.
Qed.

Lemma NoAbort_AbortOnlyLast l : NoAbort l -> AbortOnlyLast l.
Proof. intros H pre ev post E A. exfalso. eapply NoAbort_no_abort; eauto. Qed.

Lemma AbortOnlyLast_single ev : AbortOnlyLast [ev].
Proof.
  intros pre e post E _. destruct pre as [|a pre]; cbn in E.
  - inversion E. reflexivity.
  - inversion E. destruct pre; discriminate.
Qed.

Lemma AbortOnlyLast_cons a l :
  isAbortEvent a = false -> AbortOnlyLast l -> AbortOnlyLast (a :: l).
Proof.
  intros Ha H pre ev post E A. destruct pre as [|b pre]; cbn in E.
  - inversion E; subst. congruence.
  - inversion E; subst. eapply H; eauto.
Qed.

Lemma AbortOnlyLast_app l1 l2 :
  NoAbort l1 -> AbortOnlyLast l2 -> AbortOnlyLast (l1 ++ l2).
Proof.
  induction 1 as [|a l1 Ha _ IH]; intros H2; cbn [app].
  - exact H2.
  - apply AbortOnlyLast_cons; auto.
Qed.

(** [computeDelay] always yields a delay, and touches nothing but the
    random source. *)
Lemma computeDelay_effect env attempt res st :
  exists d,
    computeDelay env attempt res st
    = (Resolved d, mkState (fetched st) (slept st) (drawn st) (aborted st) (log st))
    \/ computeDelay env attempt res st
       = (Resolved d,
          mkState (fetched st) (slept st) (S (drawn st)) (aborted st) (log st)).
Proof.
  unfold computeDelay.
  destruct res as [r|]; [destruct (status r =? 429)%Z;
    [destruct (retryAfter r) as [raw|];
     [destruct (String.eqb raw "");
      [|destruct (negb (isNaN (Number raw)) && gt0 (Number raw))]|]|]|];
    try (eexists; right; reflexivity).
  eexists. left. destruct st; reflexivity.
Qed.

(** [computeDelay] by the rate-limit hint of the response. *)
Lemma computeDelay_by_hint env attempt res st :
  computeDelay env attempt res st =
    match rateLimitHint res with
    | Some hint =>
        if gt0 hint then (Resolved (times hint 1000), st)
        else backoffFrom env attempt st
    | None => backoffFrom env attempt st
    end.
Proof.
  unfold computeDelay, rateLimitHint, backoffFrom.
  destruct res as [r|]; [|reflexivity].
  destruct (status r =? 429)%Z; [|reflexivity].
  destruct (retryAfter r) as [raw|]; [|reflexivity].
  destruct (String.eqb raw ""); [reflexivity|].
  destruct (isNaN (Number raw)); [reflexivity|].
  cbn [negb andb]. destruct (gt0 (Number raw)); reflexivity.
Qed.

(** The loop body, by the outcome of its network call. *)
Lemma attemptOnce_cases env req attempt lastError st :
  attemptOnce env req attempt lastError st =
    if aborted st then catchBlock env attempt abortError st
    else
      match fetch_outcome env (fetched st) with
      | FetchResolves r =>
          let s1 := mkState (S (fetched st)) (slept st) (drawn st) false
                      (log st ++ [EvFetch req (FetchResolves r)]) in
          if nonRetryable r then (Resolved (Return r), s1)
          else if attempt <? MAX_RETRIES then
            match (delay <- computeDelay env attempt (Some r) ;;
                   sleep env delay ;; ret (Continue lastError)) s1 with
            | (Rejected e, s2) => catchBlock env attempt e s2
            | other => other
            end
          else (Resolved (Return r), s1)
      | FetchRejects e =>
          catchBlock env attempt e
            (mkState (S (fetched st)) (slept st) (drawn st) (isAbortError e)
               (log st ++ [EvFetch req (FetchRejects e)]))
      end.
Proof.
  unfold attemptOnce, try_catch, tryBlock, fetch.
  unfold bind at 1.
  destruct (aborted st); [reflexivity|].
  destruct (fetch_outcome env (fetched st)) as [r|e]; [|reflexivity].
  destruct (nonRetryable r); [reflexivity|].
  destruct (attempt <? MAX_RETRIES); reflexivity.
Qed.

(** What one iteration leaves in the log. *)
Lemma attemptOnce_events env req attempt lastError st :
  exists evs,
    log (snd (attemptOnce env req attempt lastError st)) = log st ++ evs
    /\ match fst (attemptOnce env req attempt lastError st) with
       | Resolved _ => NoAbort evs
       | Rejected e => isAbortError e = true /\ AbortOnlyLast evs
       | Unfinished => False
       end.
Proof.
  assert (Sleep : forall d s (evs0 : list Event) (c : Completion),
    aborted s = false -> NoAbort evs0 ->
    exists evs1,
      log (snd ((sleep env d ;; ret c) s)) = log s ++ evs1
      /\ match fst ((sleep env d ;; ret c) s) with
         | Resolved _ => NoAbort (evs0 ++ evs1)
         | Rejected e => isAbortError e = true /\ AbortOnlyLast (evs0 ++ evs1)
         | Unfinished => False
         end).
  { intros d s evs0 c Hs H0. unfold bind, sleep, ret. rewrite Hs.
    destruct (abort_during_sleep env (slept s)); cbn [fst snd log];
      eexists; (split; [reflexivity|]).
    - split; [reflexivity|].
      apply AbortOnlyLast_app; [exact H0 | apply AbortOnlyLast_single].
    - apply Forall_app. split; [exact H0|]. repeat constructor. }
  assert (Delay : forall res s (evs0 : list Event) (c : Completion),
    aborted s = false -> NoAbort evs0 ->
    exists evs1,
      log (snd ((delay <- computeDelay env attempt res ;; sleep env delay ;; ret c) s))
      = log s ++ evs1
      /\ match fst ((delay <- computeDelay env attempt res ;; sleep env delay ;; ret c) s) with
         | Resolved _ => NoAbort (evs0 ++ evs1)
         | Rejected e => isAbortError e = true /\ AbortOnlyLast (evs0 ++ evs1)
         | Unfinished => False
         end).
  { intros res s evs0 c Hs H0.
    destruct (computeDelay_effect env attempt res s) as [d [E|E]];
      unfold bind at 1 3; rewrite E;
      match goal with |- context [(sleep env d ;; ret c) ?s1] =>
        destruct (Sleep d s1 evs0 c Hs H0) as [evs1 [L1 P1]] end;
      exists evs1; split; [exact L1 | exact P1 | exact L1 | exact P1]. }
  assert (Catch : forall e s (evs0 : list Event),
    aborted s = isAbortError e ->
    (isAbortError e = true -> AbortOnlyLast evs0) ->
    (isAbortError e = false -> NoAbort evs0) ->
    exists evs1,
      log (snd (catchBlock env attempt e s)) = log s ++ evs1
      /\ match fst (catchBlock env attempt e s) with
         | Resolved _ => NoAbort (evs0 ++ evs1)
         | Rejected e' => isAbortError e' = true /\ AbortOnlyLast (evs0 ++ evs1)
         | Unfinished => False
         end).
  { intros e s evs0 Hs HA HN. unfold catchBlock.
    destruct (isAbortError e) eqn:Ha.
    - exists []. rewrite !app_nil_r. cbn [throw fst snd].
      split; [reflexivity|]. split; [exact Ha | apply HA; reflexivity].
    - destruct (attempt <? MAX_RETRIES).
      + apply Delay; [exact Hs | apply HN; reflexivity].
      + exists []. rewrite !app_nil_r. cbn [ret fst snd].
        split; [reflexivity | apply HN; reflexivity]. }
  rewrite attemptOnce_cases.
  destruct (aborted st) eqn:Hab.
  - (* signal already aborted: fetch rejects, nothing is sent *)
    destruct (Catch abortError st []) as [evs1 [L1 P1]].
    + rewrite Hab. reflexivity.
    + intros _. apply NoAbort_AbortOnlyLast. constructor.
    + intros _. constructor.
    + exists evs1. split; [exact L1 | exact P1].
  - destruct (fetch_outcome env (fetched st)) as [r|e] eqn:Ho.
    + (* a response *)
      set (s1 := mkState (S (fetched st)) (slept st) (drawn st) false
                   (log st ++ [EvFetch req (FetchResolves r)])).
      assert (N0 : NoAbort [EvFetch req (FetchResolves r)])
        by (repeat constructor).
      destruct (nonRetryable r).
      * exists [EvFetch req (FetchResolves r)]. split; [reflexivity | exact N0].
      * destruct (attempt <? MAX_RETRIES).
        -- destruct (Delay (Some r) s1 [EvFetch req (FetchResolves r)]
                       (Continue lastError) eq_refl N0) as [evs1 [L1 P1]].
           destruct ((delay <- computeDelay env attempt (Some r);;
                      sleep env delay;; ret (Continue lastError)) s1)
               as [[c|e|] s2] eqn:Hd; cbn [fst snd] in L1, P1.
           ++ exists ([EvFetch req (FetchResolves r)] ++ evs1).
              cbv zeta. rewrite Hd. cbn [fst snd]. split; [|exact P1].
              rewrite L1. subst s1. cbn [log]. rewrite <- app_assoc. reflexivity.
           ++ (* a rejected delay is caught, recognised and rethrown *)
              destruct P1 as [A1 T1]. cbv zeta. rewrite Hd.
              unfold catchBlock. rewrite A1. cbn [throw fst snd].
              exists ([EvFetch req (FetchResolves r)] ++ evs1).
              split; [|split; assumption].
              rewrite L1. subst s1. cbn [log]. rewrite <- app_assoc. reflexivity.
           ++ destruct P1.
        -- cbv zeta. exists [EvFetch req (FetchResolves r)]. split; [reflexivity | exact N0].
    + (* fetch rejects *)
      set (s1 := mkState (S (fetched st)) (slept st) (drawn st) (isAbortError e)
                   (log st ++ [EvFetch req (FetchRejects e)])).
      destruct (Catch e s1 [EvFetch req (FetchRejects e)]) as [evs1 [L1 P1]].
      * reflexivity.
      * intros _. apply AbortOnlyLast_single.
      * intros Ha. constructor; [exact Ha | constructor].
      * exists ([EvFetch req (FetchRejects e)] ++ evs1).
        split; [|exact P1].
        rewrite L1. subst s1. cbn [log]. rewrite <- app_assoc. reflexivity.
Qed.

(** One turn of the [for] loop. *)
Lemma retryLoop_step env req fuel attempt lastError st :
  attempt <= MAX_RETRIES ->
  retryLoop env (S fuel) req attempt lastError st =
    match attemptOnce env req attempt lastError st with
    | (Resolved (Return r), st') => (Resolved r, st')
    | (Resolved (Continue lastError'), st') =>
        retryLoop env fuel req (S attempt) lastError' st'
    | (Rejected e, st') => (Rejected e, st')
    | (Unfinished, st') => (Unfinished, st')
    end.
Proof.
  intros H. apply Nat.leb_le in H. cbn [retryLoop]. rewrite H.
  unfold bind.
  destruct (attemptOnce env req attempt lastError st) as [[[r|le]|e|] st'];
    reflexivity.
Qed.

(** What the whole loop leaves in the log, and that it settles. *)
Lemma retryLoop_events env req fuel :
  forall attempt lastError st,
    MAX_RETRIES + 1 - attempt < fuel ->
    exists evs,
      log (snd (retryLoop env fuel req attempt lastError st)) = log st ++ evs
      /\ AbortOnlyLast evs
      /\ match fst (retryLoop env fuel req attempt lastError st) with
         | Resolved _ => NoAbort evs
         | Rejected e => isAbortError e = true \/ NoAbort evs
         | Unfinished => False
         end.
Proof.
  induction fuel as [|fuel IH]; intros attempt lastError st Hfuel; [lia|].
  destruct (Nat.leb_spec attempt MAX_RETRIES) as [Hle|Hgt].
  - rewrite (retryLoop_step env req fuel attempt lastError st Hle).
    destruct (attemptOnce_events env req attempt lastError st) as [evs1 [L1 P1]].
    destruct (attemptOnce env req attempt lastError st) as [[[r|le']|e|] s1];
      cbn [fst snd] in L1, P1.
    + exists evs1. cbn [fst snd].
      split; [exact L1|]. split; [apply NoAbort_AbortOnlyLast|]; exact P1.
    + destruct (IH (S attempt) le' s1) as [evs2 [L2 [T2 P2]]]; [lia|].
      exists (evs1 ++ evs2).
      split; [rewrite L2, L1, app_assoc; reflexivity|].
      split; [apply AbortOnlyLast_app; assumption|].
      destruct (fst (retryLoop env fuel req (S attempt) le' s1)).
      * apply Forall_app; split; assumption.
      * destruct P2 as [P2|P2]; [left; exact P2|].
        right. apply Forall_app; split; assumption.
      * exact P2.
    + exists evs1. cbn [fst snd]. destruct P1 as [A1 T1].
      split; [exact L1|]. split; [exact T1 | left; exact A1].
    + destruct P1.
  - cbn [retryLoop]. apply Nat.leb_gt in Hgt. rewrite Hgt.
    exists []. cbn [throw fst snd]. rewrite app_nil_r.
    split; [reflexivity|].
    split; [apply NoAbort_AbortOnlyLast; constructor | right; constructor].
Qed.

(** The four entry points of the facade are [fetchWithRetry] on the
    request they build, followed by [interpret]. *)
Lemma facade_shape env baseUrl apiKey path qs data :
  get env baseUrl apiKey path qs
  = (res <- fetchWithRetry env
              (mkRequest (withQuery (baseUrl ++ path)%string qs) "GET"
                         (authHeaders apiKey) None) ;;
     interpret res)
  /\ post env baseUrl apiKey path data
     = (res <- fetchWithRetry env
                 (mkRequest (baseUrl ++ path)%string "POST"
                            (authHeaders apiKey
                             ++ [("Content-Type", "application/json")]%string)
                            data) ;;
        interpret res)
  /\ getPublic env baseUrl path qs
     = (res <- fetchWithRetry env
                 (mkRequest (withQuery (baseUrl ++ path)%string qs) "GET" [] None) ;;
        interpret res)
  /\ postPublic env baseUrl path data
     = (res <- fetchWithRetry env
                 (mkRequest (baseUrl ++ path)%string "POST"
                            [("Content-Type", "application/json")]%string data) ;;
        interpret res).
Proof. repeat split; reflexivity. Qed.

(** A non-successful response is surfaced by the facade as an error: a
    [TolinkuError] with the status of that response, or the [TypeError] of
    reading [null] when the body is [null]. *)
Lemma interpret_not_ok (r : Response) (st : State) :
  ok r = false ->
  interpret r st = (Rejected (facadeError r), st).
Proof.
  intros H. unfold interpret, facadeError, members, bind, throw, ret, orElse.
  rewrite H. cbn [negb].
  destruct (json r) as [[|e c p]|]; cbn [fst snd]; try reflexivity.
  destruct (String.eqb (statusText r) ""); reflexivity.
Qed.

Lemma facadeError_cases (r : Response) :
  (json r = Some JsonNull /\ facadeError r = nullError "error")
  \/ (json r <> Some JsonNull
      /\ exists message code, facadeError r = TolinkuError message (status r) code).
Proof.
  unfold facadeError. destruct (json r) as [[|e c p]|].
  - left. split; reflexivity.
  - right. split; [discriminate|]. eexists. eexists. reflexivity.
  - right. split; [discriminate|]. eexists. eexists. reflexivity.
Qed.

End ClientFacts.

(** ** The retry loop in general *)

Module RetryLoopFacts.
Import JsNumber Effects Client ClientSpec ClientExtraSpec ClientFacts.
Local Open Scope nat_scope.
Local Open Scope list_scope.
Local Open Scope io_scope.

Lemma computeDelay_keeps env attempt res s d sd :
  computeDelay env attempt res s = (Resolved d, sd) ->
  fetched sd = fetched s /\ slept sd = slept s /\ aborted sd = aborted s
  /\ log sd = log s /\ drawn s <= drawn sd <= S (drawn s).
Proof.
  intros H. destruct (computeDelay_effect env attempt res s) as [d' [E|E]];
    rewrite E in H; inversion H; subst; cbn; repeat split; lia.
Qed.

Lemma computeDelay_total env attempt res s :
  exists d sd, computeDelay env attempt res s = (Resolved d, sd).
Proof.
  destruct (computeDelay_effect env attempt res s) as [d [E|E]];
    rewrite E; eauto.
Qed.

Lemma catchBlock_abort env attempt e s :
  isAbortError e = true -> catchBlock env attempt e s = (Rejected e, s).
Proof. intros H. unfold catchBlock. rewrite H. reflexivity. Qed.

(** The delay of an iteration that retries: [computeDelay], then [sleep]. *)
Lemma delay_then_sleep env attempt res (c : Completion) s d sd :
  aborted s = false ->
  computeDelay env attempt res s = (Resolved d, sd) ->
  (delay <- computeDelay env attempt res ;; sleep env delay ;; ret c) s
  = (if negb (abort_during_sleep env (slept s)) then Resolved c
     else Rejected abortError,
     afterSleep d (negb (abort_during_sleep env (slept s))) sd).
Proof.
  intros Ha E. destruct (computeDelay_keeps _ _ _ _ _ _ E) as [_ [Hs [Hab _]]].
  unfold bind at 1. rewrite E. unfold bind, sleep, ret, afterSleep.
  rewrite Hab, Ha, Hs.
  destruct (abort_during_sleep env (slept s)); reflexivity.
Qed.

(** Every iteration goes one of the six ways of [AttemptStep]. *)
Lemma attemptOnce_step env req attempt lastError st :
  AttemptStep env req attempt lastError st
              (fst (attemptOnce env req attempt lastError st))
              (snd (attemptOnce env req attempt lastError st)).
Proof.
  rewrite attemptOnce_cases.
  destruct (aborted st) eqn:Hab.
  - rewrite catchBlock_abort by reflexivity. apply StepRefused. exact Hab.
  - destruct (fetch_outcome env (fetched st)) as [r|e] eqn:Ho.
    + cbv zeta.
      change (mkState (S (fetched st)) (slept st) (drawn st) false
                (log st ++ [EvFetch req (FetchResolves r)]))
        with (afterFetch req (FetchResolves r) st).
      destruct (nonRetryable r) eqn:Hn.
      * apply StepReturn; auto.
      * destruct (Nat.ltb_spec attempt MAX_RETRIES) as [Hlt|Hge].
        -- destruct (computeDelay_total env attempt (Some r)
                       (afterFetch req (FetchResolves r) st)) as [d [sd E]].
           rewrite (delay_then_sleep env attempt (Some r) (Continue lastError)
                      (afterFetch req (FetchResolves r) st) d sd eq_refl E).
           cbn [slept afterFetch].
           pose proof (StepRetry env req attempt lastError st r d sd
                         (negb (abort_during_sleep env (slept st)))
                         Hab Ho Hn Hlt E eq_refl) as Hstep.
           destruct (abort_during_sleep env (slept st)); cbn [negb] in *.
           ++ rewrite catchBlock_abort by reflexivity. exact Hstep.
           ++ exact Hstep.
        -- apply StepReturn; auto.
    + change (mkState (S (fetched st)) (slept st) (drawn st) (isAbortError e)
                (log st ++ [EvFetch req (FetchRejects e)]))
        with (afterFetch req (FetchRejects e) st).
      destruct (isAbortError e) eqn:Ha.
      * rewrite catchBlock_abort by exact Ha. apply StepAborted; auto.
      * unfold catchBlock. rewrite Ha.
        destruct (Nat.ltb_spec attempt MAX_RETRIES) as [Hlt|Hge].
        -- destruct (computeDelay_total env attempt None
                       (afterFetch req (FetchRejects e) st)) as [d [sd E]].
           assert (Hab1 : aborted (afterFetch req (FetchRejects e) st) = false)
             by (cbn; exact Ha).
           rewrite (delay_then_sleep env attempt None (Continue (Some e))
                      (afterFetch req (FetchRejects e) st) d sd Hab1 E).
           cbn [slept afterFetch].
           exact (StepRetryError env req attempt lastError st e d sd
                    (negb (abort_during_sleep env (slept st)))
                    Hab Ho Ha Hlt E eq_refl).
        -- apply StepLastError; auto.
Qed.

(** What an iteration adds to the counters and to the log. *)
Lemma AttemptStep_counts env req attempt lastError st res st1 :
  AttemptStep env req attempt lastError st res st1 ->
  fetched st <= fetched st1 <= S (fetched st)
  /\ slept st <= slept st1 <= slept st + (if attempt <? MAX_RETRIES then 1 else 0)
  /\ drawn st <= drawn st1 <= drawn st + (if attempt <? MAX_RETRIES then 1 else 0)
  /\ networkCalls (log st1) = networkCalls (log st) + (fetched st1 - fetched st)
  /\ List.length (delays (log st1))
     = List.length (delays (log st)) + (slept st1 - slept st).
Proof.
  intros H.
  destruct H as [Hab | r Hab Ho Hn | r d sd fired Hab Ho Hn Hlt E Hf
                 | e Hab Ho Ha | e Hab Ho Ha Hge | e d sd fired Hab Ho Ha Hlt E Hf];
    try (destruct (computeDelay_keeps _ _ _ _ _ _ E) as [Kf [Ks [_ [Kl Kd]]]];
         apply Nat.ltb_lt in Hlt; rewrite Hlt;
         cbn [afterSleep afterFetch fetched slept drawn log] in *;
         rewrite Kf, Ks, Kl, !networkCalls_app, !delays_app, !length_app;
         cbn -[Nat.sub]; repeat split; lia);
    cbn [afterFetch fetched slept drawn log];
    rewrite ?networkCalls_app, ?delays_app, ?length_app; cbn -[Nat.sub];
    destruct (attempt <? MAX_RETRIES); repeat split; lia.
Qed.

(** The counters and the log of the whole loop. *)
Lemma retryLoop_counts env req fuel :
  forall attempt lastError st,
    let st' := snd (retryLoop env fuel req attempt lastError st) in
    fetched st <= fetched st' <= fetched st + (S MAX_RETRIES - attempt)
    /\ slept st <= slept st' <= slept st + (MAX_RETRIES - attempt)
    /\ drawn st <= drawn st' <= drawn st + (MAX_RETRIES - attempt)
    /\ networkCalls (log st') = networkCalls (log st) + (fetched st' - fetched st)
    /\ List.length (delays (log st'))
       = List.length (delays (log st)) + (slept st' - slept st).
Proof.
  induction fuel as [|fuel IH]; intros attempt lastError st; cbv zeta.
  - cbn. repeat split; lia.
  - destruct (Nat.leb_spec attempt MAX_RETRIES) as [Hle|Hgt].
    + rewrite (retryLoop_step env req fuel attempt lastError st Hle).
      pose proof (attemptOnce_step env req attempt lastError st) as Hstep.
      apply AttemptStep_counts in Hstep.
      destruct (attemptOnce env req attempt lastError st) as [[[r|le']|e|] s1];
        cbn [fst snd] in *;
        try (destruct (Nat.ltb_spec attempt MAX_RETRIES); repeat split; lia).
      specialize (IH (S attempt) le' s1). cbv zeta in IH.
      destruct (Nat.ltb_spec attempt MAX_RETRIES); repeat split; lia.
    + cbn [retryLoop]. apply Nat.leb_gt in Hgt. rewrite Hgt.
      cbn. repeat split; lia.
Qed.




(** An iteration on a retryable outcome with attempts left, whose delay
    is not cut short: on to the next attempt. *)
Lemma attemptOnce_retryable env req attempt lastError st :
  aborted st = false ->
  retryableOutcome (fetch_outcome env (fetched st)) = true ->
  attempt < MAX_RETRIES ->
  abort_during_sleep env (slept st) = false ->
  exists lastError' s1 d,
    attemptOnce env req attempt lastError st = (Resolved (Continue lastError'), s1)
    /\ aborted s1 = false
    /\ fetched s1 = S (fetched st)
    /\ slept s1 = S (slept st)
    /\ log s1 = log st ++ [EvFetch req (fetch_outcome env (fetched st));
                           EvSleep d true].
Proof.
  intros Hab Hr Hlt Hs.
  pose proof (attemptOnce_step env req attempt lastError st) as Hstep.
  destruct (attemptOnce env req attempt lastError st) as [res s1].
  cbn [fst snd] in Hstep.
  destruct Hstep as [Hab' | r _ Ho Hn | r d sd fired _ Ho Hn _ E Hf
                     | e _ Ho Ha | e _ Ho Ha Hge | e d sd fired _ Ho Ha _ E Hf];
    try congruence; try lia; rewrite Ho in Hr; cbn [retryableOutcome] in Hr.
  - destruct Hn as [Hn|Hn]; [rewrite Hn in Hr; discriminate | lia].
  - rewrite Hs in Hf. cbn in Hf. subst fired.
    destruct (computeDelay_keeps _ _ _ _ _ _ E) as [Kf [Ks [Ka [Kl _]]]].
    exists lastError, (afterSleep d true sd), d. rewrite Ho.
    cbn [afterSleep afterFetch aborted fetched slept log negb] in *.
    rewrite Kf, Ks, Kl, <- app_assoc. auto.
  - rewrite Ha in Hr. discriminate.
  - rewrite Hs in Hf. cbn in Hf. subst fired.
    destruct (computeDelay_keeps _ _ _ _ _ _ E) as [Kf [Ks [Ka [Kl _]]]].
    exists (Some e), (afterSleep d true sd), d. rewrite Ho.
    cbn [afterSleep afterFetch aborted fetched slept log negb] in *.
    rewrite Kf, Ks, Kl, <- app_assoc. auto.
Qed.

(** [n] retryable attempts in a row are passed over. *)
Lemma retryLoop_skip env req :
  forall n attempt lastError st fuel,
    aborted st = false ->
    attempt + n <= MAX_RETRIES ->
    (forall i, i < n ->
               retryableOutcome (fetch_outcome env (fetched st + i)) = true) ->
    (forall j, j < n -> abort_during_sleep env (slept st + j) = false) ->
    exists lastError' s1,
      retryLoop env (n + fuel) req attempt lastError st
      = retryLoop env fuel req (attempt + n) lastError' s1
      /\ aborted s1 = false
      /\ fetched s1 = fetched st + n
      /\ slept s1 = slept st + n
      /\ drawn st <= drawn s1.
Proof.
  induction n as [|n IH]; intros attempt lastError st fuel Hab Hle Hr Hs.
  - exists lastError, st. rewrite !Nat.add_0_r. auto.
  - destruct (attemptOnce_retryable env req attempt lastError st Hab)
      as [le1 [s1 [d [E [A1 [F1 [S1 L1]]]]]]].
    + rewrite <- (Nat.add_0_r (fetched st)). apply Hr. lia.
    + lia.
    + rewrite <- (Nat.add_0_r (slept st)). apply Hs. lia.
    + destruct (IH (S attempt) le1 s1 fuel A1) as [le2 [s2 [E2 [A2 [F2 [S2 D2]]]]]].
      * lia.
      * intros i Hi. rewrite F1. replace (S (fetched st) + i) with (fetched st + S i) by lia.
        apply Hr. lia.
      * intros j Hj. rewrite S1. replace (S (slept st) + j) with (slept st + S j) by lia.
        apply Hs. lia.
      * exists le2, s2.
        change (S n + fuel) with (S (n + fuel)).
        rewrite (retryLoop_step env req (n + fuel) attempt lastError st) by lia.
        rewrite E, E2.
        replace (attempt + S n) with (S attempt + n) by lia.
        pose proof (attemptOnce_step env req attempt lastError st) as Hstep.
        apply AttemptStep_counts in Hstep. rewrite E in Hstep. cbn [snd] in Hstep.
        repeat split; try assumption; lia.
Qed.

(** An iteration on a response that ends the request. *)
Lemma attemptOnce_returns env req attempt lastError st r :
  aborted st = false ->
  fetch_outcome env (fetched st) = FetchResolves r ->
  nonRetryable r = true \/ MAX_RETRIES <= attempt ->
  attemptOnce env req attempt lastError st
  = (Resolved (Return r), afterFetch req (FetchResolves r) st).
Proof.
  intros Hab Ho H. rewrite attemptOnce_cases, Hab, Ho. cbv zeta.
  destruct (nonRetryable r); [reflexivity|].
  destruct H as [H|H]; [discriminate|].
  apply Nat.ltb_ge in H. rewrite H. reflexivity.
Qed.

(** The last iteration on a network error. *)
Lemma attemptOnce_last_error env req attempt lastError st e :
  aborted st = false ->
  fetch_outcome env (fetched st) = FetchRejects e ->
  isAbortError e = false ->
  MAX_RETRIES <= attempt ->
  attemptOnce env req attempt lastError st
  = (Resolved (Continue (Some e)), afterFetch req (FetchRejects e) st).
Proof.
  intros Hab Ho Ha H. rewrite attemptOnce_cases, Hab, Ho.
  unfold catchBlock. rewrite Ha. apply Nat.ltb_ge in H. rewrite H.
  unfold afterFetch. rewrite Ha. reflexivity.
Qed.

(** The common tail of the facade, as a table. *)
Lemma interpret_facadeResult r st : interpret r st = (facadeResult r, st).
Proof.
  unfold facadeResult. destruct (ok r) eqn:E.
  - unfold interpret, parseJson. rewrite E. cbn [negb].
    destruct (json r); reflexivity.
  - apply interpret_not_ok. exact E.
Qed.

(** What a resolved request returns. *)
Lemma retryLoop_resolved env req fuel :
  forall attempt lastError st r st',
    retryLoop env fuel req attempt lastError st = (Resolved r, st') ->
    (exists earlier, log st' = earlier ++ [EvFetch req (FetchResolves r)])
    /\ (nonRetryable r = true \/ fetched st' = fetched st + (S MAX_RETRIES - attempt))
    /\ aborted st' = false.
Proof.
  induction fuel as [|fuel IH]; intros attempt lastError st r st' H;
    [discriminate H|].
  destruct (Nat.leb_spec attempt MAX_RETRIES) as [Hle|Hgt].
  - rewrite (retryLoop_step env req fuel attempt lastError st Hle) in H.
    pose proof (attemptOnce_step env req attempt lastError st) as Hstep.
    destruct (attemptOnce env req attempt lastError st) as [[[r0|le']|e|] s1];
      cbn [fst snd] in Hstep; try discriminate H.
    + inversion H; subst. clear H.
      remember (Resolved (Return r)) as res eqn:Eres.
      destruct Hstep as [Hab' | r1 _ Ho Hn | r1 d sd fired _ Ho Hn _ E Hf
                     | e _ Ho Ha | e _ Ho Ha Hge | e d sd fired _ Ho Ha _ E Hf];
        try discriminate Eres; try (destruct fired; discriminate Eres).
      inversion Eres; subst. cbn [afterFetch log fetched aborted].
      split; [eexists; reflexivity|]. split; [|reflexivity].
      destruct Hn as [Hn|Hn]; [left; exact Hn | right; lia].
    + destruct (IH (S attempt) le' s1 r st' H) as [L [N A]].
      pose proof (AttemptStep_counts _ _ _ _ _ _ _ Hstep) as C.
      split; [exact L|]. split; [|exact A].
      destruct N as [N|N]; [left; exact N|]. right.
      remember (Resolved (Continue le')) as res eqn:Eres.
      destruct Hstep as [Hab' | r1 _ Ho Hn | r1 d sd fired _ Ho Hn Hlt E Hf
                     | e _ Ho Ha | e _ Ho Ha Hge | e d sd fired _ Ho Ha Hlt E Hf];
        try discriminate Eres;
        try (destruct (computeDelay_keeps _ _ _ _ _ _ E) as [Kf _];
             cbn [afterSleep afterFetch fetched] in *; lia).
      cbn [afterFetch fetched] in *. lia.
  - cbn [retryLoop] in H. apply Nat.leb_gt in Hgt. rewrite Hgt in H.
    discriminate H.
Qed.

(** What a rejected request throws. *)
Lemma retryLoop_rejected env req fuel :
  forall attempt lastError st e st',
    retryLoop env fuel req attempt lastError st = (Rejected e, st') ->
    isAbortError e = true
    \/ (attempt <= MAX_RETRIES
        /\ (exists earlier, log st' = earlier ++ [EvFetch req (FetchRejects e)])
        /\ fetched st' = fetched st + (S MAX_RETRIES - attempt))
    \/ (MAX_RETRIES < attempt /\ st' = st
        /\ e = match lastError with Some e0 => e0 | None => ThrownUndefined end).
Proof.
  induction fuel as [|fuel IH]; intros attempt lastError st e st' H;
    [discriminate H|].
  destruct (Nat.leb_spec attempt MAX_RETRIES) as [Hle|Hgt].
  - rewrite (retryLoop_step env req fuel attempt lastError st Hle) in H.
    pose proof (attemptOnce_step env req attempt lastError st) as Hstep.
    destruct (attemptOnce env req attempt lastError st) as [[[r0|le']|e0|] s1];
      cbn [fst snd] in Hstep; try discriminate H.
    + destruct (IH (S attempt) le' s1 e st' H) as [A|[[Hle' [L F]]|[Hgt' [Es Ee]]]].
      * left. exact A.
      * right. left. split; [exact Hle|]. split; [exact L|].
        remember (Resolved (Continue le')) as res eqn:Eres.
        destruct Hstep as [Hab' | r1 _ Ho Hn | r1 d sd fired _ Ho Hn Hlt E Hf
                     | e1 _ Ho Ha | e1 _ Ho Ha Hge | e1 d sd fired _ Ho Ha Hlt E Hf];
          try discriminate Eres;
          try (destruct (computeDelay_keeps _ _ _ _ _ _ E) as [Kf _];
               cbn [afterSleep afterFetch fetched] in *; lia).
        cbn [afterFetch fetched] in *. lia.
      * right. left. split; [exact Hle|]. subst st'.
        remember (Resolved (Continue le')) as res eqn:Eres.
        destruct Hstep as [Hab' | r1 _ Ho Hn | r1 d sd fired _ Ho Hn Hlt E Hf
                     | e1 _ Ho Ha | e1 _ Ho Ha Hge | e1 d sd fired _ Ho Ha Hlt E Hf];
          try discriminate Eres; try lia.
        inversion Eres; subst. cbn [afterFetch log fetched].
        split; [eexists; reflexivity | lia].
    + inversion H; subst. left.
      remember (@Rejected Completion e) as res eqn:Eres.
      destruct Hstep as [Hab' | r1 _ Ho Hn | r1 d sd fired _ Ho Hn Hlt E Hf
                     | e1 _ Ho Ha | e1 _ Ho Ha Hge | e1 d sd fired _ Ho Ha Hlt E Hf];
        try discriminate Eres;
        try (destruct fired; [discriminate Eres | inversion Eres; reflexivity]);
        inversion Eres; subst; try reflexivity; auto.
  - cbn [retryLoop] in H. rewrite (proj2 (Nat.leb_gt _ _) Hgt) in H.
    inversion H; subst. right. right. auto.
Qed.

(** An iteration whose response is retried, with the delay it waits. *)
Lemma attemptOnce_retry_delay env req attempt lastError st r d sd :
  aborted st = false ->
  fetch_outcome env (fetched st) = FetchResolves r ->
  nonRetryable r = false ->
  attempt < MAX_RETRIES ->
  abort_during_sleep env (slept st) = false ->
  computeDelay env attempt (Some r) (afterFetch req (FetchResolves r) st)
  = (Resolved d, sd) ->
  attemptOnce env req attempt lastError st
  = (Resolved (Continue lastError), afterSleep d true sd).
Proof.
  intros Hab Ho Hn Hlt Hs E.
  rewrite attemptOnce_cases, Hab, Ho. cbv zeta. rewrite Hn.
  apply Nat.ltb_lt in Hlt. rewrite Hlt.
  change (mkState (S (fetched st)) (slept st) (drawn st) false
            (log st ++ [EvFetch req (FetchResolves r)]))
    with (afterFetch req (FetchResolves r) st).
  rewrite (delay_then_sleep env attempt (Some r) (Continue lastError)
             (afterFetch req (FetchResolves r) st) d sd eq_refl E).
  cbn [afterFetch slept]. rewrite Hs. reflexivity.
Qed.

(** A rate-limit hint is what [Number] made of the header. *)
Lemma rateLimitHint_Number res h :
  rateLimitHint res = Some h -> exists raw, h = Number raw.
Proof.
  unfold rateLimitHint. destruct res as [r|]; [|discriminate].
  destruct (status r =? 429)%Z; [|discriminate].
  destruct (retryAfter r) as [raw|]; [|discriminate].
  destruct (String.eqb raw ""); [discriminate|].
  destruct (isNaN (Number raw)); [discriminate|].
  intros H. exists raw. congruence.
Qed.

(** A response with a rate-limit hint has status 429 and is retried. *)
Lemma rateLimitHint_429 r h :
  rateLimitHint (Some r) = Some h -> nonRetryable r = false.
Proof.
  unfold rateLimitHint, nonRetryable, ok.
  destruct (status r =? 429)%Z eqn:E; [|discriminate].
  intros _. apply Z.eqb_eq in E. rewrite E. reflexivity.
Qed.

(** The bounds of the backoff branch. *)
Lemma backoff_bounds (attempt : nat) (rnd : Q) :
  (0 <= rnd)%Q -> (rnd < 1)%Q ->
  (BASE_DELAY_MS * 2 ^ Z.of_nat attempt
   <= BASE_DELAY_MS * 2 ^ Z.of_nat attempt + rnd * MAX_JITTER_MS)%Q
  /\ (BASE_DELAY_MS * 2 ^ Z.of_nat attempt + rnd * MAX_JITTER_MS
      < BASE_DELAY_MS * 2 ^ Z.of_nat attempt + MAX_JITTER_MS)%Q
  /\ (BASE_DELAY_MS * 2 ^ Z.of_nat attempt + MAX_JITTER_MS
      <= BASE_DELAY_MS * 2 ^ Z.of_nat (S attempt))%Q.
Proof.
  intros H0 H1. unfold BASE_DELAY_MS, MAX_JITTER_MS.
  assert (P : (1 <= 2 ^ Z.of_nat attempt)%Q).
  { induction attempt as [|a IH]; [cbn; lra|].
    rewrite Nat2Z.inj_succ, <- Z.add_1_r.
    rewrite Qpower_plus by lra. change (2 ^ 1)%Q with 2%Q. nra. }
  assert (D : (2 ^ Z.of_nat (S attempt) == 2 * 2 ^ Z.of_nat attempt)%Q).
  { rewrite Nat2Z.inj_succ, <- Z.add_1_r.
    rewrite Qpower_plus by lra. change (2 ^ 1)%Q with 2%Q. ring. }
  rewrite D. repeat split; nra.
Qed.

(** One iteration calls the network with the request of the loop. *)
Lemma AttemptStep_sameRequest env req attempt lastError st res st1 :
  AttemptStep env req attempt lastError st res st1 ->
  exists evs, log st1 = log st ++ evs /\ Forall (sameRequest req) evs.
Proof.
  intros H.
  destruct H as [Hab | r Hab Ho Hn | r d sd fired Hab Ho Hn Hlt E Hf
                 | e Hab Ho Ha | e Hab Ho Ha Hge | e d sd fired Hab Ho Ha Hlt E Hf];
    try (destruct (computeDelay_keeps _ _ _ _ _ _ E) as [_ [_ [_ [Kl _]]]];
         cbn [afterSleep afterFetch log] in *; rewrite Kl, <- app_assoc;
         eexists; split; [reflexivity|]; repeat constructor);
    cbn [afterFetch log].
  - exists []. rewrite app_nil_r. split; [reflexivity | constructor].
  - eexists. split; [reflexivity|]. repeat constructor.
  - eexists. split; [reflexivity|]. repeat constructor.
  - eexists. split; [reflexivity|]. repeat constructor.
Qed.

Lemma retryLoop_sameRequest env req fuel :
  forall attempt lastError st,
  exists evs,
    log (snd (retryLoop env fuel req attempt lastError st)) = log st ++ evs
    /\ Forall (sameRequest req) evs.
Proof.
  induction fuel as [|fuel IH]; intros attempt lastError st.
  - exists []. cbn. rewrite app_nil_r. split; [reflexivity | constructor].
  - destruct (Nat.leb_spec attempt MAX_RETRIES) as [Hle|Hgt].
    + rewrite (retryLoop_step env req fuel attempt lastError st Hle).
      pose proof (attemptOnce_step env req attempt lastError st) as Hstep.
      apply AttemptStep_sameRequest in Hstep.
      destruct (attemptOnce env req attempt lastError st) as [[[r|le']|e|] s1];
        cbn [fst snd] in *; try exact Hstep.
      destruct Hstep as [evs1 [L1 F1]].
      destruct (IH (S attempt) le' s1) as [evs2 [L2 F2]].
      exists (evs1 ++ evs2). rewrite L2, L1, app_assoc.
      split; [reflexivity | apply Forall_app; split; assumption].
    + cbn [retryLoop]. rewrite (proj2 (Nat.leb_gt _ _) Hgt).
      exists []. cbn. rewrite app_nil_r. split; [reflexivity | constructor].
Qed.

(** The common tail of the facade leaves the state of the request alone. *)
Lemma facade_state env req st :
  snd ((res <- fetchWithRetry env req ;; interpret res) st)
  = snd (fetchWithRetry env req st).
Proof.
  unfold bind.
  destruct (fetchWithRetry env req st) as [[r|e|] s1]; try reflexivity.
  rewrite interpret_facadeResult. reflexivity.
Qed.

End RetryLoopFacts.

(** ** The claims about the client *)

Module ClientTheorems.
Import JsNumber Effects Client ClientSpec ClientExtraSpec ClientFacts
       RetryLoopFacts.
Local Open Scope nat_scope.
Local Open Scope list_scope.
Local Open Scope io_scope.

(** C1. When every network attempt of a logical request yields a 5xx
    response (so that no attempt and no delay is cut short by
    cancellation), [fetchWithRetry] makes exactly MAX_RETRIES + 1 = 4
    network calls and resolves with the response of the last one,
    unchanged.  The facade then rejects with a [TolinkuError] carrying the
    status of that response, except when the body of that response is the
    JSON value [null]: reading [body.error] then throws, and the caller
    gets a [TypeError] that carries no status. *)
Theorem all_5xx_exhausts_retries (env : Env) (req : Request) (st : State) :
  aborted st = false ->
  (forall n, exists r,
      fetch_outcome env n = FetchResolves r /\ (500 <= status r < 600)%Z) ->
  (forall n, abort_during_sleep env n = false) ->
  exists last st',
    fetch_outcome env (fetched st + MAX_RETRIES) = FetchResolves last
    /\ fetchWithRetry env req st = (Resolved last, st')
    /\ MAX_RETRIES + 1 = 4
    /\ fetched st' = fetched st + (MAX_RETRIES + 1)
    /\ networkCalls (log st') = networkCalls (log st) + (MAX_RETRIES + 1)
    /\ (exists earlier, log st' = earlier ++ [EvFetch req (FetchResolves last)])
    /\ (res <- fetchWithRetry env req ;; interpret res) st
       = (Rejected (facadeError last), st')
    /\ ((json last = Some JsonNull /\ facadeError last = nullError "error")
        \/ (json last <> Some JsonNull
            /\ exists message code,
                 facadeError last = TolinkuError message (status last) code)).
Proof.
  intros Hab Hall Hsl.
  destruct (Hall (fetched st)) as [r0 [F0 S0]].
  destruct (Hall (S (fetched st))) as [r1 [F1 S1]].
  destruct (Hall (S (S (fetched st)))) as [r2 [F2 S2]].
  destruct (Hall (S (S (S (fetched st))))) as [r3 [F3 S3]].
  assert (Run : exists st',
    fetchWithRetry env req st = (Resolved r3, st')
    /\ fetched st' = fetched st + 4
    /\ log st' = (log st ++ [EvFetch req (FetchResolves r0); EvSleep
          (Fin (BASE_DELAY_MS * 2 ^ Z.of_nat 0 + random env (drawn st) * MAX_JITTER_MS)%Q) true]
        ++ [EvFetch req (FetchResolves r1); EvSleep
          (Fin (BASE_DELAY_MS * 2 ^ Z.of_nat 1 + random env (S (drawn st)) * MAX_JITTER_MS)%Q) true]
        ++ [EvFetch req (FetchResolves r2); EvSleep
          (Fin (BASE_DELAY_MS * 2 ^ Z.of_nat 2 + random env (S (S (drawn st))) * MAX_JITTER_MS)%Q) true])
        ++ [EvFetch req (FetchResolves r3)]).
  { eexists. split.
    change (fetchWithRetry env req st)
      with (retryLoop env 5 req 0 None st).
    rewrite (retryLoop_step env req _ 0 None st) by (unfold MAX_RETRIES; lia).
    rewrite (attemptOnce_5xx_retry env req 0 None st r0)
      by (auto; unfold MAX_RETRIES; lia).
    cbn [fetched slept drawn aborted log].
    match goal with |- retryLoop _ _ _ _ _ ?s = _ =>
      rewrite (retryLoop_step env req _ 1 None s) by (unfold MAX_RETRIES; lia);
      rewrite (attemptOnce_5xx_retry env req 1 None s r1)
        by (cbn [aborted fetched slept]; auto; unfold MAX_RETRIES; lia) end.
    cbn [fetched slept drawn aborted log].
    match goal with |- retryLoop _ _ _ _ _ ?s = _ =>
      rewrite (retryLoop_step env req _ 2 None s) by (unfold MAX_RETRIES; lia);
      rewrite (attemptOnce_5xx_retry env req 2 None s r2)
        by (cbn [aborted fetched slept]; auto; unfold MAX_RETRIES; lia) end.
    cbn [fetched slept drawn aborted log].
    match goal with |- retryLoop _ _ _ _ _ ?s = _ =>
      rewrite (retryLoop_step env req _ 3 None s) by (unfold MAX_RETRIES; lia);
      rewrite (attemptOnce_5xx_last env req 3 None s r3)
        by (cbn [aborted fetched slept]; auto; unfold MAX_RETRIES; lia) end.
    reflexivity.
    cbn [fetched log drawn]. split; [lia|].
    rewrite <- !app_assoc. reflexivity. }
  destruct Run as [st' [Hrun [Hf Hl]]].
  exists r3, st'.
  split. { rewrite <- F3. f_equal. unfold MAX_RETRIES. lia. }
  split; [exact Hrun|].
  split; [reflexivity|].
  split. { rewrite Hf. reflexivity. }
  split. { rewrite Hl. rewrite !networkCalls_app. cbn. lia. }
  split. { eexists. exact Hl. }
  split; [|apply facadeError_cases].
  unfold bind. rewrite Hrun. apply interpret_not_ok.
  unfold ok. replace (status r3 <? 300)%Z with false
    by (symmetry; apply Z.ltb_ge; lia).
  apply andb_false_r.
Qed.

(** The failing input of C1: every call is answered 500 with the body
    [null].  Four calls are made and the fourth response is returned as it
    is, but the caller of [get] receives a [TypeError], not a
    [TolinkuError] with the status 500. *)
Lemma all_5xx_exhausts_retries_witness :
  exists st',
    fetchWithRetry always500null getTest fresh = (Resolved r500null, st')
    /\ fetched st' = 4
    /\ networkCalls (log st') = 4
    /\ (res <- fetchWithRetry always500null getTest ;; interpret res) fresh
       = (Rejected
            (TypeError "Cannot read properties of null (reading 'error')"),
          st').
Proof.
  destruct (all_5xx_exhausts_retries always500null getTest fresh)
    as [last [st' [F [R [_ [Hf [Hn [_ [I _]]]]]]]]].
  - reflexivity.
  - intros n. exists r500null. split; [reflexivity | simpl; lia].
  - reflexivity.
  - injection F as <-. exists st'.
    split; [exact R|]. split; [exact Hf|]. split; [exact Hn | exact I].
Defined.

(** The same scenario with an error body that is an object: the caller
    receives the [TolinkuError] the claim describes. *)
Example server_error_with_a_body :
  fst ((res <- fetchWithRetry always500 getTest ;; interpret res) fresh)
  = Rejected (TolinkuError "Server Error" 500 None).
Proof. vm_compute. reflexivity. Qed.

(** C6. When the network call of a logical request is answered with a 4xx
    status other than 429, the request makes exactly that one network call
    and starts no retry delay; [fetchWithRetry] resolves with the response
    as it is, and the facade turns it into an error: a [TolinkuError]
    with that status, or, when the body of the response is the JSON value
    [null], the [TypeError] of reading [body.error].  The loop returns in
    the same way at whatever attempt such a response arrives. *)
Theorem client_error_is_not_retried (env : Env) (req : Request) (st : State)
        (r : Response) :
  aborted st = false ->
  fetch_outcome env (fetched st) = FetchResolves r ->
  (400 <= status r < 500)%Z ->
  status r <> 429%Z ->
  exists st',
    fetchWithRetry env req st = (Resolved r, st')
    /\ log st' = log st ++ [EvFetch req (FetchResolves r)]
    /\ fetched st' = fetched st + 1
    /\ networkCalls (log st') = networkCalls (log st) + 1
    /\ delays (log st') = delays (log st)
    /\ (forall fuel attempt lastError,
          attempt <= MAX_RETRIES ->
          retryLoop env (S fuel) req attempt lastError st = (Resolved r, st'))
    /\ (res <- fetchWithRetry env req ;; interpret res) st
       = (Rejected (facadeError r), st')
    /\ ((json r = Some JsonNull /\ facadeError r = nullError "error")
        \/ (json r <> Some JsonNull
            /\ exists message code,
                 facadeError r = TolinkuError message (status r) code)).
Proof.
  intros Hab Hf Hs N.
  assert (Hrun : fetchWithRetry env req st =
            (Resolved r,
             mkState (S (fetched st)) (slept st) (drawn st) false
               (log st ++ [EvFetch req (FetchResolves r)]))).
  { change (fetchWithRetry env req st) with (retryLoop env 5 req 0 None st).
    rewrite (retryLoop_step env req _ 0 None st) by (unfold MAX_RETRIES; lia).
    rewrite (attemptOnce_4xx env req 0 None st r) by assumption.
    reflexivity. }
  eexists. split; [exact Hrun|]. cbn [log fetched].
  split; [reflexivity|].
  split; [lia|].
  split. { rewrite networkCalls_app. reflexivity. }
  split. { rewrite delays_app. cbn [delays]. apply app_nil_r. }
  split.
  { intros fuel attempt lastError Hle.
    rewrite (retryLoop_step env req fuel attempt lastError st Hle).
    rewrite (attemptOnce_4xx env req attempt lastError st r) by assumption.
    reflexivity. }
  destruct (nonRetryable_4xx r Hs N) as [_ Hok].
  split; [|apply facadeError_cases].
  unfold bind. rewrite Hrun. apply interpret_not_ok. exact Hok.
Qed.

Lemma client_error_is_not_retried_witness :
  exists st',
    fetchWithRetry always404 getTest fresh = (Resolved r404, st')
    /\ log st' = log fresh ++ [EvFetch getTest (FetchResolves r404)]
    /\ fetched st' = fetched fresh + 1
    /\ networkCalls (log st') = networkCalls (log fresh) + 1
    /\ delays (log st') = delays (log fresh)
    /\ (forall fuel attempt lastError,
          attempt <= MAX_RETRIES ->
          retryLoop always404 (S fuel) getTest attempt lastError fresh
          = (Resolved r404, st'))
    /\ (res <- fetchWithRetry always404 getTest ;; interpret res) fresh
       = (Rejected (facadeError r404), st')
    /\ ((json r404 = Some JsonNull /\ facadeError r404 = nullError "error")
        \/ (json r404 <> Some JsonNull
            /\ exists message code,
                 facadeError r404 = TolinkuError message (status r404) code)).
Proof.
  apply (client_error_is_not_retried always404 getTest fresh r404).
  - reflexivity.
  - reflexivity.
  - simpl. lia.
  - simpl. lia.
Defined.

(** A client error whose body is [null]: one call, and the error the
    caller receives is the [TypeError]. *)
Example client_error_with_a_null_body :
  (res <- fetchWithRetry always404null getTest ;; interpret res) fresh
  = (Rejected (TypeError "Cannot read properties of null (reading 'error')"),
     mkState 1 0 0 false [EvFetch getTest (FetchResolves r404null)]).
Proof. vm_compute. reflexivity. Qed.

(** The executor always settles: the fuel of the loop is never used up. *)
Lemma fetchWithRetry_settles (env : Env) (req : Request) (st : State) :
  fst (fetchWithRetry env req st) <> Unfinished.
Proof.
  intros H.
  destruct (retryLoop_events env req 5 0 None st) as [evs [_ [_ P]]];
    [unfold MAX_RETRIES; lia|].
  change (retryLoop env 5 req 0 None st) with (fetchWithRetry env req st) in P.
  rewrite H in P. exact P.
Qed.



(** Cancellation in flight: the call that is rejected with an AbortError
    is the only one, whatever the oracle holds for later calls. *)
Lemma abort_in_flight (env : Env) (req : Request) (st : State) (e : Thrown) :
  aborted st = false ->
  fetch_outcome env (fetched st) = FetchRejects e ->
  isAbortError e = true ->
  fetchWithRetry env req st =
    (Rejected e,
     mkState (S (fetched st)) (slept st) (drawn st) true
       (log st ++ [EvFetch req (FetchRejects e)])).
Proof.
  intros Hab Hf He.
  change (fetchWithRetry env req st) with (retryLoop env 5 req 0 None st).
  rewrite (retryLoop_step env req _ 0 None st) by (unfold MAX_RETRIES; lia).
  rewrite attemptOnce_cases, Hab, Hf. unfold catchBlock. rewrite He.
  reflexivity.
Qed.

(** A request started on an aborted signal is rejected without any
    network activity. *)
Lemma abort_before_start (env : Env) (req : Request) (st : State) :
  aborted st = true ->
  fetchWithRetry env req st = (Rejected abortError, st).
Proof.
  intros Hab.
  change (fetchWithRetry env req st) with (retryLoop env 5 req 0 None st).
  rewrite (retryLoop_step env req _ 0 None st) by (unfold MAX_RETRIES; lia).
  rewrite attemptOnce_cases, Hab. reflexivity.
Qed.

(** C7. With [Math.random] forced to zero and no rate-limit hint on the
    failing response, the delay computed before the n-th retry (attempt
    index n, from 0) is BASE_DELAY_MS * 2^n with BASE_DELAY_MS = 500:
    500, 1000 and 2000 ms for the three retries. *)
Theorem backoff_without_jitter (env : Env) (attempt : nat)
        (res : option Response) (st : State) :
  (random env (drawn st) == 0)%Q ->
  rateLimitHint res = None ->
  exists q,
    fst (computeDelay env attempt res st) = Resolved (Fin q)
    /\ (q == BASE_DELAY_MS * 2 ^ Z.of_nat attempt)%Q
    /\ (BASE_DELAY_MS == 500)%Q
    /\ (attempt = 0 -> (q == 500)%Q)
    /\ (attempt = 1 -> (q == 1000)%Q)
    /\ (attempt = 2 -> (q == 2000)%Q).
Proof.
  intros Hrnd Hhint.
  rewrite computeDelay_by_hint, Hhint. unfold backoffFrom. cbn [fst].
  eexists. split; [reflexivity|].
  assert (E : (BASE_DELAY_MS * 2 ^ Z.of_nat attempt
               + random env (drawn st) * MAX_JITTER_MS
               == BASE_DELAY_MS * 2 ^ Z.of_nat attempt)%Q).
  { rewrite Hrnd. ring. }
  split; [exact E|].
  split; [reflexivity|].
  repeat split; intros ->; rewrite E; reflexivity.
Qed.

Lemma backoff_without_jitter_witness :
  exists q,
    fst (computeDelay always500 2 (Some r500) fresh) = Resolved (Fin q)
    /\ (q == BASE_DELAY_MS * 2 ^ Z.of_nat 2)%Q
    /\ (BASE_DELAY_MS == 500)%Q
    /\ (2 = 0 -> (q == 500)%Q)
    /\ (2 = 1 -> (q == 1000)%Q)
    /\ (2 = 2 -> (q == 2000)%Q).
Proof.
  apply (backoff_without_jitter always500 2 (Some r500) fresh).
  - reflexivity.
  - reflexivity.
Defined.

(** The delays of a whole request answered with 500 throughout, jitter
    at zero. *)
Example delays_of_three_retries :
  delays (log (snd (fetchWithRetry always500 getTest fresh)))
  = [Fin 500; Fin 1000; Fin 2000].
Proof. vm_compute. reflexivity. Qed.



(** Retry-After: 2 means wait 2000 ms. *)
Example retry_after_two_seconds :
  fst (computeDelay always500 0 (Some (r429 (Some "2"))) fresh)
  = Resolved (Fin 2000).
Proof. vm_compute. reflexivity. Qed.


(** A positive value too small for a double is zero to the code: the hint
    is not honoured and a random value is drawn for the backoff. *)
Example retry_after_underflow :
  Number "1e-400" = Fin 0
  /\ computeDelay always500 0 (Some (r429 (Some "1e-400"))) fresh
     = backoffFrom always500 0 fresh.
Proof. split; vm_compute; reflexivity. Qed.

(** 1.005 is not a double, nor is the product of its nearest double and
    1000 a whole number: the delay is 1004.9999999999999 ms. *)
Example retry_after_is_rounded :
  fst (computeDelay always500 0 (Some (r429 (Some "1.005"))) fresh)
  = Resolved (Fin (8840073487319039 # 8796093022208))
  /\ (8840073487319039 # 8796093022208 < 1005)%Q
  /\ (1005 - (8840073487319039 # 8796093022208) < 1 # 1000000000000)%Q.
Proof. split; [vm_compute; reflexivity|]. split; reflexivity. Qed.

(** A value beyond the doubles is [Infinity], and so is the delay. *)
Example retry_after_overflow :
  Number "1e400" = PosInf
  /\ fst (computeDelay always500 0 (Some (r429 (Some "1e400"))) fresh)
     = Resolved PosInf.
Proof. split; vm_compute; reflexivity. Qed.

End ClientTheorems.

(** ** Properties of the analytics batcher *)

Module AnalyticsFacts.
Import JsString Effects Analytics AnalyticsSpec.
Local Open Scope nat_scope.
Local Open Scope list_scope.
Local Open Scope io_scope.

Lemma dropOldest_fits {A} n (l : list A) :
  List.length l <= n -> dropOldest n l = l.
Proof.
  intros H. unfold dropOldest.
  replace (List.length l - n) with 0 by lia. reflexivity.
Qed.

Lemma dropOldest_length {A} n (l : list A) :
  List.length (dropOldest n l) = Nat.min n (List.length l).
Proof. unfold dropOldest. rewrite length_skipn. lia. Qed.

Lemma dropOldest_suffix {A} n (l : list A) :
  exists dropped,
    l = dropped ++ dropOldest n l
    /\ List.length dropped = List.length l - n.
Proof.
  exists (firstn (List.length l - n) l). unfold dropOldest. split.
  - symmetry. apply firstn_skipn.
  - rewrite length_firstn. lia.
Qed.

Lemma Forall_dropOldest {A} (P : A -> Prop) n (l : list A) :
  Forall P l -> Forall P (dropOldest n l).
Proof.
  intros H. destruct (dropOldest_suffix n l) as [d [E _]].
  rewrite E in H. apply Forall_app in H. apply H.
Qed.

Lemma dropOldest_nonempty {A} n (l : list A) :
  0 < n -> l <> [] -> dropOldest n l <> [].
Proof.
  intros Hn Hl E. apply (f_equal (@List.length A)) in E.
  rewrite dropOldest_length in E. cbn [List.length] in E.
  destruct l; [congruence | cbn [List.length] in E; lia].
Qed.

(** *** The continuation of [flush] *)

(** After a rejected POST the snapshot goes back in front of the queue,
    which is then cut to its last MAX_QUEUE_SIZE elements. *)
Lemma flush_resume_rejected e events s :
  flush_resume (PostRejects e) events s
  = (Resolved tt,
     set_queue (dropOldest MAX_QUEUE_SIZE (events ++ queue s)) s).
Proof.
  unfold flush_resume, try_catch, bind, awaitPost, throw, unshift,
    spliceFront, ret.
  cbn [queue set_queue].
  destruct (Nat.ltb_spec MAX_QUEUE_SIZE (List.length (events ++ queue s)))
    as [H|H].
  - reflexivity.
  - rewrite dropOldest_fits by exact H. reflexivity.
Qed.

(** A POST that resolves with [null] lands in the same [catch]. *)
Lemma flush_resume_null events s :
  flush_resume (PostResolves None) events s
  = (Resolved tt,
     set_queue (dropOldest MAX_QUEUE_SIZE (events ++ queue s)) s).
Proof.
  unfold flush_resume, try_catch, bind, awaitPost, throw, unshift,
    spliceFront, ret.
  cbn [queue set_queue].
  destruct (Nat.ltb_spec MAX_QUEUE_SIZE (List.length (events ++ queue s)))
    as [H|H].
  - reflexivity.
  - rewrite dropOldest_fits by exact H. reflexivity.
Qed.

(** After a POST that resolves with a body the events are gone; a
    non-empty [errors] list is logged and nothing else changes. *)
Lemma flush_resume_delivered result events s :
  exists s',
    flush_resume (PostResolves (Some result)) events s = (Resolved tt, s')
    /\ queue s' = queue s /\ flushTimer s' = flushTimer s
    /\ timers s' = timers s /\ inflight s' = inflight s
    /\ posted s' = posted s /\ beacons s' = beacons s.
Proof.
  unfold flush_resume, try_catch, bind, awaitPost, ret.
  destruct (errors result) as [[|e es]|]; eexists;
    (split; [reflexivity | cbn; repeat split; reflexivity]).
Qed.

(** Whatever the POST does, the continuation of [flush] resolves. *)
Lemma flush_resume_resolves out events s :
  fst (flush_resume out events s) = Resolved tt.
Proof.
  destruct out as [[result|]|e].
  - destruct (flush_resume_delivered result events s) as [s' [E _]].
    rewrite E. reflexivity.
  - rewrite flush_resume_null. reflexivity.
  - rewrite flush_resume_rejected. reflexivity.
Qed.

(** *** The synchronous part of [flush] *)

Lemma flush_empty s :
  queue s = [] ->
  exists s', flush s = (s', Settled (Resolved tt))
             /\ queue s' = [] /\ flushTimer s' = None
             /\ posted s' = posted s /\ inflight s' = inflight s.
Proof.
  intros Hq. unfold flush.
  destruct (flushTimer s) as [id|] eqn:Ht;
    cbn [queue set_flushTimer clearTimeout set_timers]; rewrite Hq;
    eexists; (split; [reflexivity|]); cbn; auto.
Qed.

Lemma flush_nonempty s :
  queue s <> [] ->
  exists s',
    flush s = (s', AwaitingPost (List.length (posted s)))
    /\ queue s' = [] /\ flushTimer s' = None
    /\ timers s' = match flushTimer s with
                   | Some id => filter (fun t => negb (t =? id)) (timers s)
                   | None => timers s
                   end
    /\ nextTimer s' = nextTimer s
    /\ posted s' = posted s ++ [queue s]
    /\ inflight s'
       = inflight s ++ [mkPending (List.length (posted s)) (queue s)]
    /\ beacons s' = beacons s
    /\ unloadHandler s' = unloadHandler s /\ listening s' = listening s.
Proof.
  intros Hq. unfold flush.
  destruct (flushTimer s) as [id|] eqn:Ht;
    cbn [queue set_flushTimer clearTimeout set_timers];
    (destruct (queue s) as [|ev q] eqn:Eq; [congruence|]);
    cbn [client_post set_queue posted inflight]; eexists;
    (split; [reflexivity|]); cbn; rewrite ?Ht; repeat split; reflexivity.
Qed.

(** A flush that executes leaves no timer handle behind. *)
Lemma flush_clears_timer s : flushTimer (fst (flush s)) = None.
Proof.
  destruct (queue s) as [|ev q] eqn:Eq.
  - destruct (flush_empty s Eq) as [s' [E [_ [T _]]]]. rewrite E. exact T.
  - destruct (flush_nonempty s) as [s' [E [_ [T _]]]]; [congruence|].
    rewrite E. exact T.
Qed.

(** *** Invariants of the event loop *)

Lemma filter_self id : filter (fun t => negb (t =? id)) [id] = [].
Proof. cbn. rewrite Nat.eqb_refl. reflexivity. Qed.

Lemma checkedName_valid v name :
  checkedName v = inr name -> eventNameRegex_test name = true.
Proof.
  unfold checkedName. destruct v; try discriminate.
  destruct (String.length (trim s) =? 0); [discriminate|].
  match goal with |- context [negb ?b] => destruct b eqn:E end;
    cbn [negb]; [|discriminate].
  intros H. inversion H; subst. exact E.
Qed.

(** **** The timer invariant, operation by operation *)

Lemma TimerInv_flush s : TimerInv s -> TimerInv (fst (flush s)).
Proof.
  intros [H1 H2]. destruct s as [q ft uh ts nt inf po be wa li].
  cbn [flushTimer queue timers] in *. unfold flush, TimerInv.
  destruct ft as [id|]; subst ts;
    cbn [flushTimer queue timers set_flushTimer clearTimeout set_timers];
    destruct q as [|ev q]; cbn; rewrite ?Nat.eqb_refl;
    (split; [intros H; congruence | reflexivity]).
Qed.

Lemma TimerInv_enqueue name props s :
  TimerInv s -> TimerInv (fst (enqueue name props s)).
Proof.
  intros [H1 H2]. unfold enqueue. cbv zeta.
  set (ev := mkEvent name _).
  set (s1 := set_queue (queue s ++ [ev]) s).
  assert (I1 : TimerInv s1).
  { split; cbn [s1 set_queue queue flushTimer timers]; [|exact H2].
    intros _. destruct (queue s); discriminate. }
  match goal with |- context [if ?c then ?a else s1] =>
    set (s2 := if c then a else s1) end.
  assert (I2 : TimerInv s2).
  { subst s2.
    destruct (List.length (queue s1) =? 1); cbn [andb]; [|exact I1].
    destruct (flushTimer s1) as [id|] eqn:Ht; [exact I1|].
    destruct I1 as [_ T1]. rewrite Ht in T1.
    unfold setTimeout. split; cbn [set_flushTimer queue flushTimer timers].
    - intros _. subst s1. cbn [set_queue queue]. destruct (queue s); discriminate.
    - rewrite T1. reflexivity. }
  destruct (BATCH_SIZE <=? List.length (queue s2)).
  - apply TimerInv_flush. exact I2.
  - exact I2.
Qed.

Lemma TimerInv_track v props s :
  TimerInv s -> TimerInv (fst (track v props s)).
Proof.
  intros H. unfold track. destruct (checkedName v) as [err|name].
  - exact H.
  - apply TimerInv_enqueue. exact H.
Qed.

Lemma TimerInv_settle id out s r s' :
  TimerInv s -> settle id out s = Some (r, s') -> TimerInv s'.
Proof.
  intros [H1 H2]. unfold settle.
  destruct (findPending id s) as [p|]; [|discriminate].
  intros E. inversion E as [E']. clear E.
  assert (I0 : TimerInv (dropPending id s)) by (split; assumption).
  destruct out as [[result|]|e].
  - destruct (flush_resume_delivered result (post_events p) (dropPending id s))
      as [s1 [E1 [Q [T [Ts _]]]]].
    rewrite E1 in E'. inversion E'; subst.
    unfold TimerInv. rewrite Q, T, Ts. exact I0.
  - rewrite flush_resume_null in E'. inversion E'; subst.
    split; cbn [set_queue dropPending set_inflight queue flushTimer timers];
      [|exact H2].
    intros Ht. apply dropOldest_nonempty; [unfold MAX_QUEUE_SIZE; lia|].
    specialize (H1 Ht). destruct (post_events p); [exact H1 | discriminate].
  - rewrite flush_resume_rejected in E'. inversion E'; subst.
    split; cbn [set_queue dropPending set_inflight queue flushTimer timers];
      [|exact H2].
    intros Ht. apply dropOldest_nonempty; [unfold MAX_QUEUE_SIZE; lia|].
    specialize (H1 Ht). destruct (post_events p); [exact H1 | discriminate].
Qed.

(** A timer that fires is the one in [flushTimer], and the flush it
    starts leaves none. *)
Lemma timer_fires host id s :
  TimerInv s -> In id (timers s) ->
  flushTimer s = Some id
  /\ exec host (LTimer id) s
     = fst (flush (set_flushTimer None (set_timers [] s))).
Proof.
  intros [H1 H2] Hin. rewrite H2 in Hin.
  destruct (flushTimer s) as [id0|] eqn:Ht; [|destruct Hin].
  destruct Hin as [->|[]]. split; [reflexivity|].
  cbn [exec]. rewrite H2. cbn [existsb]. rewrite Nat.eqb_refl. cbn [orb].
  rewrite filter_self. reflexivity.
Qed.

Lemma TimerInv_exec host l s :
  TimerInv s -> core l -> TimerInv (exec host l s).
Proof.
  intros I C. destruct l as [v props| |id|id out| |]; cbn [core] in C;
    try contradiction.
  - apply TimerInv_track; exact I.
  - apply TimerInv_flush; exact I.
  - cbn [exec]. destruct (existsb (Nat.eqb id) (timers s)) eqn:Ex; [|exact I].
    apply existsb_exists in Ex. destruct Ex as [x [Hin Hx]].
    apply Nat.eqb_eq in Hx. subst x.
    destruct (timer_fires host id s I Hin) as [_ E].
    cbn [exec] in E. rewrite (proj2 (existsb_exists _ _)) in E
      by (exists id; split; [exact Hin | apply Nat.eqb_refl]).
    rewrite E. apply TimerInv_flush.
    split; cbn [set_flushTimer set_timers flushTimer timers queue];
      [congruence | reflexivity].
  - cbn [exec]. destruct (settle id out s) as [[r s']|] eqn:E; [|exact I].
    eapply TimerInv_settle; eauto.
Qed.

Lemma TimerInv_create host : TimerInv (create host).
Proof. split; cbn; [congruence | reflexivity]. Qed.

Lemma reachable_TimerInv host s : reachable host core s -> TimerInv s.
Proof.
  induction 1 as [|s l _ IH C].
  - apply TimerInv_create.
  - apply TimerInv_exec; assumption.
Qed.

(** **** The store invariant, operation by operation *)

Lemma flush_store s :
  queue (fst (flush s)) = []
  /\ beacons (fst (flush s)) = beacons s
  /\ match queue s with
     | [] => posted (fst (flush s)) = posted s
             /\ inflight (fst (flush s)) = inflight s
     | _ :: _ =>
         posted (fst (flush s)) = posted s ++ [queue s]
         /\ inflight (fst (flush s))
            = inflight s ++ [mkPending (List.length (posted s)) (queue s)]
     end.
Proof.
  destruct s as [q ft uh ts nt inf po be wa li]. unfold flush.
  destruct ft as [id|]; destruct q as [|ev q]; cbn; auto.
Qed.

Lemma pending_weaken (n m : nat) (ps : list PendingPost) :
  n <= m ->
  Forall (fun p => Forall validEvent (post_events p) /\ post_id p < n) ps ->
  Forall (fun p => Forall validEvent (post_events p) /\ post_id p < m) ps.
Proof.
  intros Hnm. apply Forall_impl. intros p [H1 H2]. split; [exact H1 | lia].
Qed.

Lemma StoreInv_flush s : StoreInv s -> StoreInv (fst (flush s)).
Proof.
  intros [Hq [Hi [Hp Hb]]].
  destruct (flush_store s) as [Q [B R]].
  unfold StoreInv. rewrite Q, B.
  split; [constructor|].
  destruct (queue s) as [|ev q] eqn:Eq; destruct R as [P I]; rewrite P, I.
  - auto.
  - split; [|split; [|exact Hb]].
    + apply Forall_app. split.
      * eapply pending_weaken; [|exact Hi]. rewrite length_app. lia.
      * constructor; [|constructor]. cbn [post_events post_id].
        split; [exact Hq | rewrite length_app; cbn; lia].
    + apply Forall_app. split; [exact Hp | constructor; [exact Hq | constructor]].
Qed.

Lemma StoreInv_enqueue name props s :
  eventNameRegex_test name = true ->
  StoreInv s -> StoreInv (fst (enqueue name props s)).
Proof.
  intros Hn [Hq [Hi [Hp Hb]]]. unfold enqueue. cbv zeta.
  set (ev := mkEvent name _).
  set (s1 := set_queue (queue s ++ [ev]) s).
  assert (I1 : StoreInv s1).
  { split; [|split; [|split]]; cbn [s1 set_queue queue inflight posted beacons];
      try assumption.
    apply Forall_app. split; [exact Hq | constructor; [exact Hn | constructor]]. }
  match goal with |- context [if ?c then ?a else s1] =>
    set (s2 := if c then a else s1) end.
  assert (I2 : StoreInv s2).
  { subst s2. destruct (_ && _); [|exact I1]. exact I1. }
  destruct (BATCH_SIZE <=? List.length (queue s2)).
  - apply StoreInv_flush. exact I2.
  - exact I2.
Qed.

Lemma StoreInv_track v props s :
  StoreInv s -> StoreInv (fst (track v props s)).
Proof.
  intros H. unfold track. destruct (checkedName v) as [err|name] eqn:E.
  - exact H.
  - apply StoreInv_enqueue; [eapply checkedName_valid; eauto | exact H].
Qed.

Lemma findPending_In id s p :
  findPending id s = Some p -> In p (inflight s) /\ post_id p = id.
Proof.
  unfold findPending. intros H. apply find_some in H.
  destruct H as [H1 H2]. apply Nat.eqb_eq in H2. auto.
Qed.

Lemma StoreInv_settle id out s r s' :
  StoreInv s -> settle id out s = Some (r, s') -> StoreInv s'.
Proof.
  intros [Hq [Hi [Hp Hb]]]. unfold settle.
  destruct (findPending id s) as [p|] eqn:F; [|discriminate].
  destruct (findPending_In id s p F) as [Hin _].
  assert (Hev : Forall validEvent (post_events p)).
  { rewrite Forall_forall in Hi. apply (Hi p Hin). }
  assert (Hi' : Forall (fun p => Forall validEvent (post_events p)
                                 /\ post_id p < List.length (posted s))
                  (filter (fun p => negb (post_id p =? id)) (inflight s))).
  { rewrite Forall_forall in *. intros x Hx. apply filter_In in Hx.
    apply Hi. apply Hx. }
  intros E. inversion E as [E']. clear E.
  assert (Requeue : StoreInv
    (set_queue (dropOldest MAX_QUEUE_SIZE (post_events p ++ queue (dropPending id s)))
               (dropPending id s))).
  { split; [|split; [|split]];
      cbn [set_queue dropPending set_inflight queue inflight posted beacons];
      try assumption.
    apply Forall_dropOldest. apply Forall_app. split; assumption. }
  destruct out as [[result|]|e].
  - destruct (flush_resume_delivered result (post_events p) (dropPending id s))
      as [s1 [E1 [Q [_ [_ [I [P B]]]]]]].
    rewrite E1 in E'. inversion E'; subst.
    unfold StoreInv. rewrite Q, I, P, B.
    cbn [dropPending set_inflight queue inflight posted beacons]. auto.
  - rewrite flush_resume_null in E'. inversion E'; subst. exact Requeue.
  - rewrite flush_resume_rejected in E'. inversion E'; subst. exact Requeue.
Qed.

Lemma StoreInv_flushBeacon host s :
  StoreInv s -> StoreInv (flushBeacon host s).
Proof.
  intros [Hq [Hi [Hp Hb]]]. unfold flushBeacon.
  destruct (queue s) as [|ev q] eqn:Eq.
  - repeat split; try assumption. rewrite Eq. constructor.
  - destruct (hasSendBeacon host);
      (split; [|split; [|split]]);
      cbn [sendBeacon set_queue queue inflight posted beacons];
      try assumption; try constructor.
    apply Forall_app. split; [exact Hb|].
    constructor; [|constructor]. cbn [beacon_events]. rewrite ?Eq. exact Hq.
Qed.

Lemma StoreInv_clear s :
  StoreInv s ->
  StoreInv (match flushTimer s with
            | Some id => set_flushTimer None (clearTimeout id s)
            | None => s
            end).
Proof. intros H. destruct (flushTimer s); exact H. Qed.

Lemma StoreInv_exec host l s : StoreInv s -> StoreInv (exec host l s).
Proof.
  intros I. destruct l as [v props| |id|id out| |]; cbn [exec].
  - apply StoreInv_track; exact I.
  - apply StoreInv_flush; exact I.
  - destruct (existsb (Nat.eqb id) (timers s)); [|exact I].
    unfold onFlushTimer. apply StoreInv_flush. exact I.
  - destruct (settle id out s) as [[r s']|] eqn:E; [|exact I].
    eapply StoreInv_settle; eauto.
  - destruct (listening s); [apply StoreInv_flushBeacon|]; exact I.
  - unfold destroy. cbv zeta.
    pose proof (StoreInv_clear _ (StoreInv_flushBeacon host s I)) as I2.
    destruct (hasWindow host && unloadHandler _); exact I2.
Qed.

Lemma StoreInv_create host : StoreInv (create host).
Proof. repeat split; constructor. Qed.

Lemma run_app host l1 l2 s : run host (l1 ++ l2) s = run host l2 (run host l1 s).
Proof. unfold run. apply fold_left_app. Qed.

Lemma StoreInv_run host ls : forall s, StoreInv s -> StoreInv (run host ls s).
Proof.
  induction ls as [|l ls IH]; intros s I; [exact I|].
  cbn [run fold_left]. apply IH. apply StoreInv_exec. exact I.
Qed.

Lemma reachable_StoreInv host allowed s : reachable host allowed s -> StoreInv s.
Proof.
  induction 1 as [|s l _ IH _].
  - apply StoreInv_create.
  - apply StoreInv_exec; assumption.
Qed.

Lemma find_app_found {A} (f : A -> bool) (l l' : list A) (x : A) :
  find f l = Some x -> find f (l ++ l') = Some x.
Proof.
  induction l as [|a l IH]; cbn [find app]; [discriminate|].
  destruct (f a); [auto | exact IH].
Qed.

(** A pending POST stays as it is until it is settled itself. *)
Lemma findPending_exec host l s id p :
  findPending id s = Some p ->
  (forall out, l <> LSettle id out) ->
  findPending id (exec host l s) = Some p.
Proof.
  intros F N.
  assert (Flush : forall s0, findPending id s0 = Some p ->
                             findPending id (fst (flush s0)) = Some p).
  { intros s0 F0. unfold findPending in *.
    destruct (flush_store s0) as [_ [_ R]].
    destruct (queue s0); destruct R as [_ I]; rewrite I; [exact F0|].
    apply find_app_found. exact F0. }
  assert (Beacon : findPending id (flushBeacon host s) = Some p).
  { unfold flushBeacon. destruct (queue s); [exact F|].
    destruct (hasSendBeacon host); exact F. }
  destruct l as [v props| |t|id' out| |]; cbn [exec].
  - unfold track. destruct (checkedName v); [exact F|].
    unfold enqueue. cbv zeta.
    match goal with |- context [if ?c then ?a else ?b] =>
      assert (F2 : findPending id (if c then a else b) = Some p)
        by (destruct c; exact F) end.
    destruct (BATCH_SIZE <=? _); [apply Flush|]; exact F2.
  - apply Flush. exact F.
  - destruct (existsb (Nat.eqb t) (timers s)); [|exact F].
    unfold onFlushTimer. apply Flush. exact F.
  - unfold settle. destruct (findPending id' s) as [p'|] eqn:F'; [|exact F].
    assert (Hne : id' <> id) by (intros ->; apply (N out); reflexivity).
    assert (F1 : findPending id (dropPending id' s) = Some p).
    { unfold findPending, dropPending in *. cbn [set_inflight inflight].
      clear F'. induction (inflight s) as [|x xs IH]; [discriminate|].
      cbn [find filter] in *.
      destruct (post_id x =? id) eqn:Ex.
      - apply Nat.eqb_eq in Ex.
        replace (post_id x =? id') with false
          by (symmetry; apply Nat.eqb_neq; lia).
        cbn [negb find]. rewrite (proj2 (Nat.eqb_eq _ _) Ex). exact F.
      - destruct (negb (post_id x =? id')); cbn [find]; rewrite ?Ex;
          apply IH; exact F. }
    destruct out as [[result|]|e].
    + destruct (flush_resume_delivered result (post_events p') (dropPending id' s))
        as [s1 [E1 [_ [_ [_ [I _]]]]]].
      rewrite E1. unfold findPending in *. rewrite I. exact F1.
    + rewrite flush_resume_null. exact F1.
    + rewrite flush_resume_rejected. exact F1.
  - destruct (listening s); [exact Beacon | exact F].
  - unfold destroy. cbv zeta.
    assert (F2 : findPending id
              (match flushTimer (flushBeacon host s) with
               | Some t => set_flushTimer None (clearTimeout t (flushBeacon host s))
               | None => flushBeacon host s
               end) = Some p)
      by (destruct (flushTimer (flushBeacon host s)); exact Beacon).
    destruct (hasWindow host && unloadHandler _); exact F2.
Qed.

Lemma findPending_run host ls : forall s id p,
  findPending id s = Some p ->
  Forall (fun l => forall out, l <> LSettle id out) ls ->
  findPending id (run host ls s) = Some p.
Proof.
  induction ls as [|l ls IH]; intros s id p F N; [exact F|].
  inversion N; subst. cbn [run fold_left]. apply IH; [|assumption].
  apply findPending_exec; assumption.
Qed.

(** **** While no POST fails, queued events have a timer *)

Lemma TimerArmed_flush s : TimerArmed (fst (flush s)).
Proof.
  intros H. destruct (flush_store s) as [Q _]. congruence.
Qed.

Lemma TimerArmed_enqueue name props s :
  TimerInv s -> TimerArmed s -> TimerArmed (fst (enqueue name props s)).
Proof.
  intros [T1 T2] A.
  destruct s as [q ft uh ts nt inf po be wa li].
  unfold TimerArmed in *. cbn [queue flushTimer timers] in *.
  unfold enqueue. cbv zeta. cbn [set_queue queue flushTimer].
  destruct q as [|a q].
  - destruct ft as [id|]; [exfalso; apply T1; congruence|].
    cbn. intros _. discriminate.
  - assert (Hft : ft <> None) by (apply A; discriminate).
    destruct ft as [id|]; [|congruence].
    cbn [app List.length].
    replace (S (List.length (q ++ [mkEvent name
               match props with Some p => p | None => [] end])) =? 1)
      with false
      by (symmetry; apply Nat.eqb_neq; rewrite length_app; cbn; lia).
    cbn [andb].
    destruct (BATCH_SIZE <=? _).
    + apply TimerArmed_flush.
    + cbn. intros _. discriminate.
Qed.

Lemma TimerArmed_exec host l s :
  TimerInv s -> TimerArmed s -> delivering l -> TimerArmed (exec host l s).
Proof.
  intros I A [C N]. destruct l as [v props| |id|id out| |]; cbn [core] in C;
    try contradiction.
  - cbn [exec]. unfold track. destruct (checkedName v) as [err|name];
      [exact A | apply TimerArmed_enqueue; assumption].
  - apply TimerArmed_flush.
  - cbn [exec]. destruct (existsb (Nat.eqb id) (timers s)); [|exact A].
    unfold onFlushTimer. apply TimerArmed_flush.
  - cbn [exec]. unfold settle.
    destruct (findPending id s) as [p|]; [|exact A].
    destruct out as [[result|]|e]; cbn [noFailure] in N; try contradiction.
    destruct (flush_resume_delivered result (post_events p) (dropPending id s))
      as [s' [E [Q [F _]]]].
    rewrite E. unfold TimerArmed. rewrite Q, F. exact A.
Qed.

(** **** The order of the events in flight and in the queue *)

Lemma reachable_run host allowed ls :
  forall s, reachable host allowed s -> Forall allowed ls ->
            reachable host allowed (run host ls s).
Proof.
  induction ls as [|l ls IH]; intros s R F; [exact R|].
  inversion F; subst. cbn [run fold_left].
  apply IH; [apply reach_exec|]; assumption.
Qed.

Lemma Forall_anyLabel (ls : list Label) : Forall anyLabel ls.
Proof. induction ls; constructor; [exact I | assumption]. Qed.

(** [track] from the push on, step by step: the event is appended, then
    the queue is flushed when it has reached the batch size. *)
Lemma enqueue_steps name props s :
  exists s2,
    queue s2 = queue s ++ [mkEvent name (queuedProps props)]
    /\ inflight s2 = inflight s
    /\ fst (enqueue name props s)
       = if BATCH_SIZE <=? S (List.length (queue s)) then fst (flush s2) else s2.
Proof.
  unfold enqueue. cbv zeta. fold (queuedProps props).
  set (ev := mkEvent name _).
  set (s1 := set_queue (queue s ++ [ev]) s).
  match goal with |- context [if ?c then ?a else s1] =>
    set (s2 := if c then a else s1) end.
  exists s2.
  assert (H2 : queue s2 = queue s ++ [ev] /\ inflight s2 = inflight s).
  { subst s2. destruct (_ && _); split; reflexivity. }
  destruct H2 as [Q2 P2]. split; [exact Q2|]. split; [exact P2|].
  replace (List.length (queue s2)) with (S (List.length (queue s)))
    by (rewrite Q2, length_app; cbn; lia).
  destruct (BATCH_SIZE <=? S (List.length (queue s))); reflexivity.
Qed.

Lemma pendingEvents_app (ps qs : list PendingPost) :
  List.concat (map post_events (ps ++ qs))
  = List.concat (map post_events ps) ++ List.concat (map post_events qs).
Proof. rewrite map_app, concat_app. reflexivity. Qed.

(** A flush keeps the events in flight followed by the queue as they
    are, however many POSTs are pending. *)
Lemma InOrder_flush h s : InOrder h s -> InOrder h (fst (flush s)).
Proof.
  intros [gone E]. exists gone. unfold pendingEvents in *.
  destruct (flush_store s) as [Q [_ R]]. rewrite Q.
  destruct (queue s) as [|ev q] eqn:Eq; destruct R as [_ I]; rewrite I.
  - exact E.
  - rewrite pendingEvents_app. cbn [map List.concat post_events].
    rewrite !app_nil_r. exact E.
Qed.

Lemma InOrder_enqueue h name props s :
  InOrder h s ->
  InOrder (h ++ [mkEvent name (queuedProps props)]) (fst (enqueue name props s)).
Proof.
  intros [gone E].
  destruct (enqueue_steps name props s) as [s2 [Q2 [I2 E2]]]. rewrite E2.
  assert (H : InOrder (h ++ [mkEvent name (queuedProps props)]) s2).
  { exists gone. unfold pendingEvents. rewrite Q2, I2, E, <- !app_assoc.
    reflexivity. }
  destruct (BATCH_SIZE <=? S (List.length (queue s)));
    [apply InOrder_flush|]; exact H.
Qed.

(** With at most one POST in flight, the one that settles is that one. *)
Lemma findPending_single id s p :
  findPending id s = Some p ->
  List.length (inflight s) <= 1 ->
  inflight s = [p] /\ inflight (dropPending id s) = [].
Proof.
  unfold findPending, dropPending. cbn [set_inflight inflight].
  destruct (inflight s) as [|p0 [|p1 ps]]; cbn [find filter List.length];
    [discriminate | | lia].
  destruct (post_id p0 =? id) eqn:E; [|discriminate].
  intros H _. inversion H; subst. cbn [negb]. split; reflexivity.
Qed.

Lemma InOrder_exec host h l s :
  core l ->
  List.length (inflight s) <= 1 ->
  InOrder h s ->
  InOrder (h ++ acceptedEvent l) (exec host l s).
Proof.
  intros C L H. destruct l as [v props| |id|id out| |]; cbn [core] in C;
    try contradiction; cbn [acceptedEvent]; rewrite ?app_nil_r.
  - cbn [exec]. unfold track.
    destruct (checkedName v) as [err|name];
      [rewrite app_nil_r; exact H | apply InOrder_enqueue; exact H].
  - apply InOrder_flush. exact H.
  - cbn [exec]. destruct (existsb (Nat.eqb id) (timers s)); [|exact H].
    unfold onFlushTimer. apply InOrder_flush. exact H.
  - cbn [exec]. unfold settle.
    destruct (findPending id s) as [p|] eqn:F; [|exact H].
    destruct (findPending_single id s p F L) as [I1 I0].
    destruct H as [gone E]. unfold pendingEvents in E. rewrite I1 in E.
    cbn [map List.concat] in E. rewrite app_nil_r in E.
    assert (Requeue : InOrder h
              (set_queue (dropOldest MAX_QUEUE_SIZE
                            (post_events p ++ queue (dropPending id s)))
                         (dropPending id s))).
    { destruct (dropOldest_suffix MAX_QUEUE_SIZE
                  (post_events p ++ queue (dropPending id s))) as [cut [Ec _]].
      exists (gone ++ cut). unfold pendingEvents.
      cbn [set_queue inflight queue]. rewrite I0. cbn [map List.concat app].
      cbn [dropPending set_inflight queue] in *.
      rewrite <- app_assoc, <- Ec. exact E. }
    destruct out as [[result|]|e].
    + destruct (flush_resume_delivered result (post_events p) (dropPending id s))
        as [s' [Es [Q [_ [_ [I' _]]]]]].
      rewrite Es. exists (gone ++ post_events p). unfold pendingEvents.
      rewrite Q, I', I0. cbn [map List.concat app dropPending set_inflight queue].
      rewrite <- app_assoc. exact E.
    + rewrite flush_resume_null. exact Requeue.
    + rewrite flush_resume_rejected. exact Requeue.
Qed.

Lemma InOrder_run host ls :
  forall h s,
    List.length (inflight s) <= 1 ->
    InOrder h s ->
    oneAtATime host ls s ->
    InOrder (h ++ acceptedEvents ls) (run host ls s).
Proof.
  induction ls as [|l ls IH]; intros h s L H O.
  - cbn. rewrite app_nil_r. exact H.
  - destruct O as [C [L' O']]. cbn [run fold_left].
    change (fold_left (fun s0 l0 => exec host l0 s0) ls (exec host l s))
      with (run host ls (exec host l s)).
    unfold acceptedEvents. cbn [flat_map]. rewrite app_assoc.
    apply IH; [exact L' | | exact O'].
    apply InOrder_exec; assumption.
Qed.

(** In such a run the state before any step has at most one POST in
    flight, from the second step on. *)
Lemma oneAtATime_inflight host (l1 l2 : list Label) :
  l1 <> [] ->
  forall s, oneAtATime host (l1 ++ l2) s ->
            List.length (inflight (run host l1 s)) <= 1.
Proof.
  induction l1 as [|l l1 IH]; intros N s O; [congruence|].
  destruct O as [_ [L O]]. cbn [run fold_left].
  destruct l1 as [|l' l1'].
  - exact L.
  - apply (IH ltac:(discriminate) _ O).
Qed.

Lemma InOrder_create host : InOrder [] (create host).
Proof. exists []. reflexivity. Qed.

Lemma reachable_core host s : reachable host delivering s -> reachable host core s.
Proof.
  induction 1 as [|s l _ IH [C _]]; [apply reach_create|].
  apply reach_exec; assumption.
Qed.

Lemma reachable_TimerArmed host s : reachable host delivering s -> TimerArmed s.
Proof.
  induction 1 as [|s l R IH D].
  - intros H. exfalso. apply H. reflexivity.
  - apply TimerArmed_exec; [|exact IH | exact D].
    apply (reachable_TimerInv host), reachable_core, R.
Qed.

End AnalyticsFacts.

Module AnalyticsTheorems.
Import JsString Effects Analytics AnalyticsSpec AnalyticsFacts.
Local Open Scope nat_scope.
Local Open Scope list_scope.

(** C10. [flushBeacon] empties the queue before it looks for
    [navigator.sendBeacon]: the queue is empty afterwards whether or not
    the function exists and whatever it returns, no POST is left pending
    that could put the events back, and without [sendBeacon] nothing is
    delivered at all.  After [destroy()] the queue is empty and the flush
    timer is null, and a second [destroy()] changes nothing. *)
Theorem destroy_discards_the_queue (host : Host) (s : Sys) :
  queue (flushBeacon host s) = []
  /\ inflight (flushBeacon host s) = inflight s
  /\ posted (flushBeacon host s) = posted s
  /\ (hasSendBeacon host = false ->
      beacons (flushBeacon host s) = beacons s)
  /\ (hasSendBeacon host = true -> queue s <> [] ->
      beacons (flushBeacon host s)
      = beacons s ++ [mkBeacon (baseUrl host ++ "/v1/api/analytics/batch")
                               (queue s) (key host) (beaconQueued host)])
  /\ queue (destroy host s) = []
  /\ flushTimer (destroy host s) = None
  /\ destroy host (destroy host s) = destroy host s.
Proof.
  destruct s as [q ft uh ts nt inf po be wa li].
  unfold destroy, flushBeacon.
  cbn [queue flushTimer inflight posted beacons].
  repeat split.
  - destruct q; [|destruct (hasSendBeacon host)]; reflexivity.
  - destruct q; [|destruct (hasSendBeacon host)]; reflexivity.
  - destruct q; [|destruct (hasSendBeacon host)]; reflexivity.
  - intros ->. destruct q; reflexivity.
  - intros -> Hq. destruct q; [congruence | reflexivity].
  - destruct q; [|destruct (hasSendBeacon host)];
      destruct ft; cbn; destruct (hasWindow host); destruct uh; reflexivity.
  - destruct q; [|destruct (hasSendBeacon host)];
      destruct ft; cbn; destruct (hasWindow host); destruct uh; reflexivity.
  - destruct q; [|destruct (hasSendBeacon host)];
      destruct ft; cbn; destruct (hasWindow host); destruct uh; reflexivity.
Qed.

Lemma destroy_discards_the_queue_witness :
  beacons (flushBeacon noBeacon (run noBeacon [named "final_event"] (create noBeacon)))
  = beacons (run noBeacon [named "final_event"] (create noBeacon))
  /\ queue (flushBeacon noBeacon (run noBeacon [named "final_event"] (create noBeacon)))
     = [].
Proof.
  destruct (destroy_discards_the_queue noBeacon
              (run noBeacon [named "final_event"] (create noBeacon)))
    as [Q [_ [_ [B _]]]].
  split; [apply B; reflexivity | exact Q].
Defined.

(** C2, as amended. A failed POST never escapes from [flush] as an
    exception, whoever awaits it: the continuation of [flush] catches the
    failure, puts the events back and resolves, both for the flush that
    [track()] triggers at the batch size and for a flush the caller
    invoked.  The only rejections of [track()] are the validation errors
    raised before anything is queued. *)
Theorem flush_failure_is_captured (v : JsValue) (props : option TrackProperties)
        (s : Sys) (id : nat) (out : PostOutcome) :
  (forall err s1,
      track v props s = (s1, Settled (Rejected err)) ->
      checkedName v = inl err /\ s1 = s)
  /\ (forall err s1, flush s <> (s1, Settled (Rejected err)))
  /\ (forall r s', settle id out s = Some (r, s') -> r = Resolved tt)
  /\ (forall e r s',
        out = PostRejects e ->
        settle id out s = Some (r, s') ->
        exists p,
          findPending id s = Some p
          /\ queue s'
             = skipn (List.length (post_events p ++ queue s) - MAX_QUEUE_SIZE)
                     (post_events p ++ queue s)).
Proof.
  assert (NoReject : forall s0 err s1, flush s0 <> (s1, Settled (Rejected err))).
  { intros s0 err s1. unfold flush.
    destruct (flushTimer s0);
      cbn [queue set_flushTimer clearTimeout set_timers];
      destruct (queue s0); cbn [client_post]; intros H; inversion H. }
  split; [|split; [|split]].
  - intros err s1. unfold track.
    destruct (checkedName v) as [err'|name].
    + intros H. inversion H. split; reflexivity.
    + unfold enqueue. cbv zeta.
      destruct (BATCH_SIZE <=? _); intros H.
      * exfalso. eapply NoReject. exact H.
      * inversion H.
  - apply NoReject.
  - intros r s'. unfold settle.
    destruct (findPending id s) as [p|]; [|discriminate].
    intros H. inversion H as [H'].
    pose proof (flush_resume_resolves out (post_events p) (dropPending id s)) as R.
    rewrite H' in R. exact R.
  - intros e r s' -> . unfold settle.
    destruct (findPending id s) as [p|]; [|discriminate].
    rewrite flush_resume_rejected. intros H. inversion H.
    exists p. split; reflexivity.
Qed.

Lemma flush_failure_is_captured_witness :
  exists p,
    findPending 0 (run browser [named "event_a"; named "event_b"; LFlush]
                       (create browser)) = Some p
    /\ queue afterFailedFlush
       = skipn (List.length (post_events p ++ []) - MAX_QUEUE_SIZE)
               (post_events p ++ []).
Proof.
  destruct (flush_failure_is_captured (VString "event_c") None
              (run browser [named "event_a"; named "event_b"; LFlush]
                   (create browser))
              0 (PostRejects networkError)) as [_ [_ [_ H]]].
  apply (H networkError (Resolved tt)).
  - reflexivity.
  - vm_compute. reflexivity.
Defined.

(** C2, as stated, fails for the caller-invoked flush: in the repository's
    own scenario (two events, [flush()], the POST rejected with a network
    error) the promise of [flush()] resolves, and the failure does not
    reach the caller. *)
Lemma manual_flush_swallows_the_failure :
  let s := run browser [named "event_a"; named "event_b"] (create browser) in
  snd (flush s) = AwaitingPost 0
  /\ (exists s',
        settle 0 (PostRejects networkError) (fst (flush s))
        = Some (Resolved tt, s')
        /\ queue s' = [event "custom.event_a"; event "custom.event_b"])
  /\ forall s',
       settle 0 (PostRejects networkError) (fst (flush s))
       <> Some (Rejected networkError, s').
Proof.
  cbv zeta. split; [vm_compute; reflexivity|]. split.
  - eexists. split; vm_compute; reflexivity.
  - intros s' H. vm_compute in H. discriminate H.
Qed.

(** C3, as amended. In every state reached from a new instance by
    [track], [flush], timer and POST-settlement steps: a flush timer
    exists only if the queue is non-empty; the host holds at most one
    pending timer, the one in [flushTimer], so no second timer is ever
    created; a [track] call arms the timer exactly when it takes the queue
    from empty to non-empty; and every flush that executes, from
    [track], from the caller or from the timer, leaves no timer.  As long
    as no POST has failed, the converse holds as well: the timer exists if
    and only if the queue is non-empty.  Only a failed POST, which puts
    events back without arming a timer, breaks that direction. *)
Theorem timer_only_while_queued (host : Host) (s : Sys) :
  reachable host core s ->
  (flushTimer s <> None -> queue s <> [])
  /\ timers s = match flushTimer s with Some id => [id] | None => [] end
  /\ (forall v props name,
        checkedName v = inr name ->
        (queue s = [] ->
         flushTimer (fst (track v props s)) = Some (nextTimer s)
         /\ timers (fst (track v props s)) = [nextTimer s]
         /\ queue (fst (track v props s))
            = [mkEvent name (match props with Some p => p | None => [] end)])
        /\ (queue s <> [] ->
            nextTimer (fst (track v props s)) = nextTimer s))
  /\ (forall v props err,
        checkedName v = inl err -> fst (track v props s) = s)
  /\ flushTimer (fst (flush s)) = None
  /\ timers (fst (flush s)) = []
  /\ (forall id,
        In id (timers s) ->
        flushTimer (exec host (LTimer id) s) = None
        /\ timers (exec host (LTimer id) s) = [])
  /\ (reachable host delivering s ->
      (flushTimer s <> None <-> queue s <> [])).
Proof.
  intros R. pose proof (reachable_TimerInv host s R) as I.
  assert (Flush : forall s0, TimerInv s0 ->
            flushTimer (fst (flush s0)) = None /\ timers (fst (flush s0)) = []).
  { intros s0 I0. pose proof (TimerInv_flush s0 I0) as [_ T].
    rewrite flush_clears_timer in T. split; [apply flush_clears_timer | exact T]. }
  destruct I as [I1 I2].
  split; [exact I1|]. split; [exact I2|].
  split; [|split; [|split; [|split; [|split]]]].
  - intros v props name Hn. unfold track. rewrite Hn.
    destruct s as [q ft uh ts nt inf po be wa li].
    cbn [queue flushTimer timers nextTimer] in *. split.
    + intros ->. destruct ft as [id|]; [exfalso; apply I1; congruence|].
      subst ts. cbn. auto.
    + intros Hq. destruct q as [|a q]; [congruence|].
      unfold enqueue. cbv zeta.
      cbn [set_queue queue flushTimer app List.length].
      replace (S (List.length (q ++ [mkEvent name
                 match props with Some p => p | None => [] end])) =? 1)
        with false
        by (symmetry; apply Nat.eqb_neq; rewrite length_app; cbn; lia).
      cbn [andb].
      destruct (BATCH_SIZE <=? _); [|reflexivity].
      unfold flush. destruct ft; cbn; reflexivity.
  - intros v props err He. unfold track. rewrite He. reflexivity.
  - apply Flush. split; assumption.
  - apply Flush. split; assumption.
  - intros id Hin.
    destruct (timer_fires host id s (conj I1 I2) Hin) as [_ E].
    rewrite E. apply Flush.
    split; cbn [set_flushTimer set_timers flushTimer timers queue];
      [congruence | reflexivity].
  - intros D. split; [exact I1 | apply (reachable_TimerArmed host s D)].
Qed.

Lemma timer_only_while_queued_witness :
  flushTimer (fst (flush (run browser [named "page_view"] (create browser))))
  = None
  /\ timers (run browser [named "page_view"] (create browser)) = [1]
  /\ (flushTimer (run browser [named "page_view"] (create browser)) <> None
      <-> queue (run browser [named "page_view"] (create browser)) <> []).
Proof.
  destruct (timer_only_while_queued browser
              (run browser [named "page_view"] (create browser)))
    as [_ [T [_ [_ [F [_ [_ D]]]]]]].
  - apply (reach_exec browser core (create browser) (named "page_view")).
    + apply reach_create.
    + exact I.
  - split; [exact F|]. split; [exact T|]. apply D.
    apply (reach_exec browser delivering (create browser) (named "page_view")).
    + apply reach_create.
    + split; exact I.
Defined.

(** C3, as stated, fails after a failed flush: the state is reached by
    track, flush and flush-failure steps, the queue holds the two re-queued
    events and no flush of any kind is scheduled, yet no timer exists; a
    further [track] does not arm one either. *)
Lemma no_timer_after_failed_flush :
  reachable browser core afterFailedFlush
  /\ queue afterFailedFlush = [event "custom.event_a"; event "custom.event_b"]
  /\ nothingScheduled afterFailedFlush
  /\ flushTimer afterFailedFlush = None
  /\ ~ (flushTimer afterFailedFlush <> None
        <-> queue afterFailedFlush <> [] /\ nothingScheduled afterFailedFlush)
  /\ flushTimer (exec browser (named "event_c") afterFailedFlush) = None.
Proof.
  split.
  { unfold afterFailedFlush.
    repeat (apply reach_exec || apply reach_create || exact I). }
  split; [vm_compute; reflexivity|].
  split; [split; vm_compute; reflexivity|].
  split; [vm_compute; reflexivity|].
  split; [|vm_compute; reflexivity].
  intros [_ H]. apply H; [|vm_compute; reflexivity].
  split; [vm_compute; discriminate | split; vm_compute; reflexivity].
Qed.

(** C4. When the POST of a flush fails, the snapshot taken at the start of
    that flush, which is the whole queue of that moment, goes back to the
    front of the queue in its original order, ahead of whatever the queue
    holds by then; after that the queue is cut at its front, where the
    snapshot now sits, down to MAX_QUEUE_SIZE = 1000 whenever it is longer.
    As long as at most one POST is in flight at any time, the queue that
    results is made of the most recently accepted events in the order of
    their [track] calls, so that what was cut are the oldest events.
    With several POSTs in flight that is not so: the batch of the POST
    that fails last is put in front, whatever its age. *)
Theorem failed_flush_requeues_snapshot_in_front (host : Host) (s : Sys)
        (during : list Label) (e : Thrown) :
  reachable host anyLabel s ->
  queue s <> [] ->
  Forall (fun l => forall out, l <> LSettle (List.length (posted s)) out) during ->
  exists s1 s3,
    flush s = (s1, AwaitingPost (List.length (posted s)))
    /\ queue s1 = []
    /\ settle (List.length (posted s)) (PostRejects e) (run host during s1)
       = Some (Resolved tt, s3)
    /\ queue s3
       = skipn (List.length (queue s ++ queue (run host during s1)) - MAX_QUEUE_SIZE)
               (queue s ++ queue (run host during s1))
    /\ (List.length (queue s ++ queue (run host during s1)) <= MAX_QUEUE_SIZE ->
        queue s3 = queue s ++ queue (run host during s1))
    /\ (MAX_QUEUE_SIZE < List.length (queue s ++ queue (run host during s1)) ->
        exists front,
          queue s ++ queue (run host during s1) = front ++ queue s3
          /\ List.length front
             = List.length (queue s ++ queue (run host during s1)) - MAX_QUEUE_SIZE
          /\ List.length (queue s3) = MAX_QUEUE_SIZE)
    /\ List.length (queue s3) <= MAX_QUEUE_SIZE
    /\ MAX_QUEUE_SIZE = 1000
    /\ (forall before,
          s = run host before (create host) ->
          oneAtATime host
            (before ++ LFlush :: during
                    ++ [LSettle (List.length (posted s)) (PostRejects e)])
            (create host) ->
          exists gone, acceptedEvents (before ++ during) = gone ++ queue s3).
Proof.
  intros R Hq Hd.
  destruct (flush_nonempty s Hq) as [s1 [E [Q1 [_ [_ [_ [_ [I1 _]]]]]]]].
  set (id := List.length (posted s)) in *.
  assert (F1 : findPending id s1 = Some (mkPending id (queue s))).
  { unfold findPending. rewrite I1. clear I1.
    destruct (reachable_StoreInv host anyLabel s R) as [_ [Hi _]].
    induction (inflight s) as [|p ps IH]; cbn [find app].
    - cbn. rewrite Nat.eqb_refl. reflexivity.
    - inversion Hi as [|? ? [_ Hp] Hps]; subst.
      replace (post_id p =? id) with false
        by (symmetry; apply Nat.eqb_neq; subst id; lia).
      apply IH. exact Hps. }
  pose proof (findPending_run host during s1 id _ F1 Hd) as F2.
  exists s1. eexists.
  set (s2 := run host during s1) in *.
  split; [rewrite E; reflexivity|].
  split; [exact Q1|].
  split. { unfold settle. rewrite F2, flush_resume_rejected. reflexivity. }
  cbn [set_queue dropPending set_inflight queue post_events].
  change (skipn (List.length (queue s ++ queue s2) - MAX_QUEUE_SIZE)
                (queue s ++ queue s2))
    with (dropOldest MAX_QUEUE_SIZE (queue s ++ queue s2)).
  split; [reflexivity|].
  split; [apply dropOldest_fits|].
  split.
  { intros Hlen.
    destruct (dropOldest_suffix MAX_QUEUE_SIZE (queue s ++ queue s2))
      as [d [Ed Ld]].
    exists d. split; [exact Ed|]. split; [exact Ld|].
    rewrite dropOldest_length. fold s2. lia. }
  split; [rewrite dropOldest_length; lia|].
  split; [reflexivity|].
  intros before Hs O.
  set (rejected := LSettle id (PostRejects e)) in *.
  assert (Run2 : run host (before ++ LFlush :: during) (create host) = s2).
  { rewrite run_app, <- Hs. cbn [run fold_left exec]. rewrite E. reflexivity. }
  assert (Run3 : run host (before ++ LFlush :: during ++ [rejected]) (create host)
                 = set_queue (dropOldest MAX_QUEUE_SIZE (queue s ++ queue s2))
                             (dropPending id s2)).
  { change (before ++ LFlush :: during ++ [rejected])
      with (before ++ (LFlush :: during) ++ [rejected]).
    rewrite app_assoc, run_app, Run2. cbn [run fold_left exec rejected].
    unfold settle. rewrite F2, flush_resume_rejected. reflexivity. }
  assert (L2 : List.length (inflight s2) <= 1).
  { rewrite <- Run2.
    change (before ++ LFlush :: during ++ [rejected])
      with (before ++ (LFlush :: during) ++ [rejected]) in O.
    rewrite app_assoc in O.
    apply (oneAtATime_inflight host (before ++ LFlush :: during) [rejected]);
      [|exact O].
    destruct before; discriminate. }
  destruct (findPending_single id s2 _ F2 L2) as [_ I0].
  destruct (InOrder_run host _ [] (create host) (Nat.le_0_l 1)
              (InOrder_create host) O) as [gone G].
  rewrite Run3 in G. unfold pendingEvents in G.
  cbn [set_queue inflight queue] in G. rewrite I0 in G.
  cbn [map List.concat app] in G.
  exists gone. fold s2. rewrite <- G. unfold acceptedEvents. subst rejected.
  rewrite !flat_map_app. cbn [flat_map acceptedEvent app].
  rewrite flat_map_app. cbn [flat_map acceptedEvent app].
  rewrite app_nil_r. reflexivity.
Qed.

(** The failing input of C4: a hundred batches of ten events are in
    flight, nine more events are tracked and flushed, the hundred POSTs
    fail in turn and then the POST of the nine fails.  The queue then
    holds the thousand events tracked first; the nine tracked last, which
    were put in front, are the ones cut. *)
Lemma failed_flush_requeues_snapshot_in_front_witness :
  exists s1 s3,
    flush nineMore = (s1, AwaitingPost 100)
    /\ queue nineMore = repeat (event "custom.last") 9
    /\ queue (run browser (failInTurn 100) s1) = repeat (event "custom.e") 1000
    /\ settle 100 (PostRejects networkError) (run browser (failInTurn 100) s1)
       = Some (Resolved tt, s3)
    /\ queue s3 = repeat (event "custom.e") 1000.
Proof.
  assert (P : List.length (posted nineMore) = 100) by (vm_compute; reflexivity).
  destruct (failed_flush_requeues_snapshot_in_front browser nineMore
              (failInTurn 100) networkError)
    as [s1 [s3 [E [_ [S [Q _]]]]]].
  - unfold nineMore. apply reachable_run; [apply reach_create|].
    apply Forall_anyLabel.
  - vm_compute. discriminate.
  - rewrite P. unfold failInTurn. apply Forall_forall. intros l Hin.
    apply in_map_iff in Hin. destruct Hin as [k [<- Hk]].
    apply in_seq in Hk. intros out H. inversion H. lia.
  - rewrite P in E, S. exists s1, s3.
    assert (Hs1 : s1 = fst (flush nineMore)) by (rewrite E; reflexivity).
    split; [exact E|].
    split; [vm_compute; reflexivity|].
    split; [rewrite Hs1; vm_compute; reflexivity|].
    split; [exact S|].
    rewrite Q, Hs1. vm_compute. reflexivity.
Defined.

(** The scenario of the repository's test with one more event tracked
    while the POST is pending: the snapshot comes back ahead of it. *)
Example requeued_ahead_of_newer_events :
  queue (run browser
             [named "event_a"; named "event_b"; LFlush; named "event_c";
              LSettle 0 (PostRejects networkError)]
             (create browser))
  = [event "custom.event_a"; event "custom.event_b"; event "custom.event_c"].
Proof. vm_compute. reflexivity. Qed.

(** One POST in flight at a time and every POST failing: when the queue
    outgrows its bound, the event tracked first is the one cut. *)
Example oldest_event_is_cut_first :
  acceptedEvents (failingRounds 991)
  = event "custom.first" :: repeat (event "custom.e") 1000
  /\ queue (run browser (failingRounds 990) (create browser))
     = event "custom.first" :: repeat (event "custom.e") 999
  /\ queue (run browser (failingRounds 991) (create browser))
     = repeat (event "custom.e") 1000.
Proof. vm_compute. repeat split; reflexivity. Qed.

(** Two POSTs in flight that fail in turn: the batch of the second comes
    to lie in front of the batch of the first. *)
Example later_batch_in_front :
  queue (run browser
             [named "first"; LFlush; named "second"; LFlush;
              LSettle 0 (PostRejects networkError);
              LSettle 1 (PostRejects networkError)]
             (create browser))
  = [event "custom.second"; event "custom.first"].
Proof. vm_compute. reflexivity. Qed.

Lemma checkedName_accepted v :
  match acceptedName v with
  | Some final => checkedName v = inr final
  | None => exists err, checkedName v = inl err
  end.
Proof.
  unfold acceptedName, checkedName, autoPrefix.
  destruct v; try (eexists; reflexivity).
  destruct (String.length (trim s)) as [|n]; cbn [Nat.eqb Nat.ltb Nat.leb andb].
  - eexists; reflexivity.
  - destruct (eventNameRegex_test _); cbn [negb]; [reflexivity|].
    eexists; reflexivity.
Qed.

Lemma enqueue_store name props s :
  let ev := mkEvent name (match props with Some p => p | None => [] end) in
  if BATCH_SIZE <=? S (List.length (queue s))
  then queue (fst (enqueue name props s)) = []
       /\ posted (fst (enqueue name props s)) = posted s ++ [queue s ++ [ev]]
  else queue (fst (enqueue name props s)) = queue s ++ [ev]
       /\ posted (fst (enqueue name props s)) = posted s.
Proof.
  cbv zeta. unfold enqueue. cbv zeta.
  set (ev := mkEvent name _).
  set (s1 := set_queue (queue s ++ [ev]) s).
  match goal with |- context [if ?c then ?a else s1] =>
    set (s2 := if c then a else s1) end.
  assert (H2 : queue s2 = queue s ++ [ev] /\ posted s2 = posted s).
  { subst s2. destruct (_ && _); split; reflexivity. }
  destruct H2 as [Q2 P2].
  replace (List.length (queue s2)) with (S (List.length (queue s)))
    by (rewrite Q2, length_app; cbn; lia).
  destruct (BATCH_SIZE <=? S (List.length (queue s))).
  - destruct (flush_store s2) as [Q [_ R]]. rewrite Q2 in R.
    destruct (queue s ++ [ev]) as [|a l] eqn:E.
    + destruct (queue s); discriminate E.
    + destruct R as [P _]. rewrite Q, P, P2. split; reflexivity.
  - cbn [fst]. split; assumption.
Qed.

(** C9. A [track] call whose name is not a non-blank string, or whose
    prefixed name does not match [^custom\.[a-z0-9_]+$], is rejected with
    a validation error and leaves the state, the queue included, as it
    was.  A valid name is queued under its prefixed form: [custom.] is
    added when the name lacks it and not added again when the name has it;
    the event is then the last of the queue, or of the batch posted at
    once when the batch size is reached.  Hence every event of every batch
    ever posted or sent by beacon has a valid name. *)
Theorem track_validates_before_queuing (host : Host) (v : JsValue)
        (props : option TrackProperties) (s : Sys) (history : list Label) :
  match acceptedName v with
  | None => exists err, track v props s = (s, Settled (Rejected err))
  | Some final =>
      let ev := mkEvent final (match props with Some p => p | None => [] end) in
      if BATCH_SIZE <=? S (List.length (queue s))
      then queue (fst (track v props s)) = []
           /\ posted (fst (track v props s)) = posted s ++ [queue s ++ [ev]]
      else queue (fst (track v props s)) = queue s ++ [ev]
           /\ posted (fst (track v props s)) = posted s
  end
  /\ (forall name final,
        v = VString name -> acceptedName v = Some final ->
        eventNameRegex_test final = true
        /\ (startsWith name "custom." = true -> final = name)
        /\ (startsWith name "custom." = false ->
            final = ("custom." ++ name)%string))
  /\ Forall (Forall validEvent) (posted (run host history (create host)))
  /\ Forall (fun b => Forall validEvent (beacon_events b))
            (beacons (run host history (create host)))
  /\ Forall validEvent (queue (run host history (create host))).
Proof.
  split; [|split].
  - pose proof (checkedName_accepted v) as C.
    destruct (acceptedName v) as [final|].
    + unfold track. rewrite C. apply enqueue_store.
    + destruct C as [err C]. exists err. unfold track. rewrite C. reflexivity.
  - intros name final -> H. pose proof (checkedName_accepted (VString name)) as C.
    rewrite H in C. split; [eapply checkedName_valid; exact C|].
    unfold acceptedName, autoPrefix in H.
    destruct (_ && _); [|discriminate]. inversion H as [H'].
    split; intros P; rewrite P; reflexivity.
  - destruct (StoreInv_run host history (create host) (StoreInv_create host))
      as [Hq [_ [Hp Hb]]].
    auto.
Qed.

Lemma track_validates_before_queuing_witness :
  eventNameRegex_test "custom.signup" = true
  /\ (startsWith "signup" "custom." = true -> "custom.signup"%string = "signup"%string)
  /\ (startsWith "signup" "custom." = false ->
      "custom.signup"%string = ("custom." ++ "signup")%string).
Proof.
  destruct (track_validates_before_queuing browser (VString "signup") None
              (create browser) []) as [_ [H _]].
  apply (H "signup"%string "custom.signup"%string); reflexivity.
Defined.

(** [track("signup")] queues [custom.signup], and [track("custom.purchase")]
    is not prefixed a second time. *)
Example track_signup_and_purchase :
  queue (run browser [named "signup"; named "custom.purchase"] (create browser))
  = [event "custom.signup"; event "custom.purchase"].
Proof. vm_compute. reflexivity. Qed.

(** The names the tests of the repository reject. *)
Example rejected_names :
  map acceptedName
      [VString ""; VNumber (Fin 123); VString "   "; VString "custom.MyEvent";
       VString "custom.my-event"; VString "custom.my event";
       VString "custom.my@event"; VString "custom."]
  = [None; None; None; None; None; None; None; None].
Proof. vm_compute. reflexivity. Qed.

End AnalyticsTheorems.

(** * Further properties *)

(** ** Further properties of the client *)

Module ClientExtra.
Import JsNumber Effects Client ClientSpec ClientExtraSpec ClientFacts RetryLoopFacts.
Local Open Scope nat_scope.
Local Open Scope list_scope.
Local Open Scope io_scope.

(** X1. Whatever the network does, one logical request makes at most
    MAX_RETRIES + 1 = 4 network calls and starts at most MAX_RETRIES = 3
    retry delays, and draws at most 3 values from [Math.random]. *)
Theorem request_makes_at_most_four_calls (env : Env) (req : Request) (st : State) :
  fetched (snd (fetchWithRetry env req st)) <= fetched st + 4
  /\ slept (snd (fetchWithRetry env req st)) <= slept st + 3
  /\ drawn (snd (fetchWithRetry env req st)) <= drawn st + 3
  /\ networkCalls (log (snd (fetchWithRetry env req st)))
     <= networkCalls (log st) + 4
  /\ List.length (delays (log (snd (fetchWithRetry env req st))))
     <= List.length (delays (log st)) + 3.
Proof.
  pose proof (retryLoop_counts env req 5 0 None st) as C. cbv zeta in C.
  change (retryLoop env 5 req 0 None st) with (fetchWithRetry env req st) in C.
  unfold MAX_RETRIES in C. repeat split; lia.
Qed.

(** X2. When all four attempts fail in a way the loop retries (a response
    that is neither 2xx nor a 4xx other than 429, or a network error, in any
    mix) and no delay is cut short, the request makes exactly 4 calls and 3
    delays and settles as its last attempt did: the last response is
    returned, or the last network error (not the first) is thrown. *)
Theorem retryable_failures_exhaust_the_attempts (env : Env) (req : Request)
        (st : State) :
  aborted st = false ->
  (forall i, i <= MAX_RETRIES ->
             retryableOutcome (fetch_outcome env (fetched st + i)) = true) ->
  (forall j, j < MAX_RETRIES -> abort_during_sleep env (slept st + j) = false) ->
  exists st',
    fetchWithRetry env req st
    = (settledAs (fetch_outcome env (fetched st + MAX_RETRIES)), st')
    /\ fetched st' = fetched st + 4
    /\ slept st' = slept st + 3.
Proof.
  intros Hab Hr Hs.
  destruct (retryLoop_skip env req MAX_RETRIES 0 None st 2 Hab)
    as [le [s1 [E [A1 [F1 [S1 _]]]]]].
  - lia.
  - intros i Hi. apply Hr. lia.
  - exact Hs.
  - change (fetchWithRetry env req st)
      with (retryLoop env (MAX_RETRIES + 2) req 0 None st).
    rewrite E. cbn [Nat.add].
    rewrite (retryLoop_step env req 1 MAX_RETRIES le s1) by lia.
    specialize (Hr MAX_RETRIES (Nat.le_refl _)). rewrite <- F1 in *.
    destruct (fetch_outcome env (fetched s1)) as [r|e] eqn:Ho;
      cbn [retryableOutcome settledAs] in *.
    + rewrite (attemptOnce_returns env req MAX_RETRIES le s1 r A1 Ho)
        by (right; lia).
      eexists. split; [reflexivity|]. cbn [afterFetch fetched slept].
      unfold MAX_RETRIES in *. lia.
    + apply negb_true_iff in Hr.
      rewrite (attemptOnce_last_error env req MAX_RETRIES le s1 e A1 Ho Hr)
        by lia.
      cbn [retryLoop]. replace (S MAX_RETRIES <=? MAX_RETRIES) with false
        by reflexivity.
      eexists. split; [reflexivity|]. cbn [afterFetch fetched slept].
      unfold MAX_RETRIES in *. lia.
Qed.

Lemma retryable_failures_exhaust_the_attempts_witness :
  exists st',
    fetchWithRetry alwaysOffline getTest fresh
    = (settledAs (fetch_outcome alwaysOffline (fetched fresh + MAX_RETRIES)), st')
    /\ fetched st' = fetched fresh + 4
    /\ slept st' = slept fresh + 3.
Proof.
  apply (retryable_failures_exhaust_the_attempts alwaysOffline getTest fresh).
  - reflexivity.
  - intros i _. reflexivity.
  - intros j _. reflexivity.
Defined.

(** X3. The first attempt whose response is 2xx or a 4xx other than 429
    ends the request: after [n <= 3] attempts that were retried, the
    response of attempt [n] is returned with [n + 1] calls and [n] delays
    made, and the facade turns it into the parsed body (2xx), into a
    [TolinkuError] with its status (a 2xx body that does not parse, a 4xx)
    or, for a 4xx whose body is the JSON value [null], into the
    [TypeError] of reading [body.error]. *)
Theorem first_terminal_response_wins (env : Env) (req : Request) (st : State)
        (n : nat) (r : Response) :
  aborted st = false ->
  n <= MAX_RETRIES ->
  (forall i, i < n ->
             retryableOutcome (fetch_outcome env (fetched st + i)) = true) ->
  (forall j, j < n -> abort_during_sleep env (slept st + j) = false) ->
  fetch_outcome env (fetched st + n) = FetchResolves r ->
  nonRetryable r = true ->
  exists st',
    fetchWithRetry env req st = (Resolved r, st')
    /\ fetched st' = fetched st + n + 1
    /\ slept st' = slept st + n
    /\ (res <- fetchWithRetry env req ;; interpret res) st = (facadeResult r, st').
Proof.
  intros Hab Hn Hr Hs Ho Ht.
  destruct (retryLoop_skip env req n 0 None st (5 - n) Hab)
    as [le [s1 [E [A1 [F1 [S1 _]]]]]]; try assumption.
  assert (Run : fetchWithRetry env req st
                = (Resolved r, afterFetch req (FetchResolves r) s1)).
  { change (fetchWithRetry env req st) with (retryLoop env 5 req 0 None st).
    replace 5 with (n + (5 - n)) at 1 by (unfold MAX_RETRIES in Hn; lia).
    rewrite E. cbn [Nat.add].
    destruct (5 - n) as [|fuel] eqn:Ef; [unfold MAX_RETRIES in Hn; lia|].
    rewrite (retryLoop_step env req fuel n le s1 Hn).
    rewrite <- F1 in Ho.
    rewrite (attemptOnce_returns env req n le s1 r A1 Ho) by (left; exact Ht).
    reflexivity. }
  eexists. split; [exact Run|]. cbn [afterFetch fetched slept].
  split; [lia|]. split; [lia|].
  unfold bind. rewrite Run. apply interpret_facadeResult.
Qed.

Lemma first_terminal_response_wins_witness :
  exists st',
    fetchWithRetry recovers getTest fresh = (Resolved r200, st')
    /\ fetched st' = fetched fresh + 3 + 1
    /\ slept st' = slept fresh + 3
    /\ (res <- fetchWithRetry recovers getTest ;; interpret res) fresh
       = (facadeResult r200, st').
Proof.
  apply (first_terminal_response_wins recovers getTest fresh 3 r200).
  - reflexivity.
  - unfold MAX_RETRIES. lia.
  - intros i Hi. cbn [fetched fresh Nat.add recovers fetch_outcome].
    destruct i as [|[|[|i]]]; [reflexivity | reflexivity | reflexivity | lia].
  - intros j _. reflexivity.
  - reflexivity.
  - reflexivity.
Defined.

(** X4. The response a request resolves with is always the one received
    last: the log ends with the network call that produced it, and either
    the response is one the loop does not retry or all four calls were
    made. *)
Theorem resolved_response_is_the_last_received (env : Env) (req : Request)
        (st st' : State) (r : Response) :
  fetchWithRetry env req st = (Resolved r, st') ->
  (exists earlier, log st' = earlier ++ [EvFetch req (FetchResolves r)])
  /\ (nonRetryable r = true \/ fetched st' = fetched st + 4)
  /\ aborted st' = false.
Proof.
  intros H.
  destruct (retryLoop_resolved env req 5 0 None st r st' H) as [L [N A]].
  split; [exact L|]. split; [|exact A].
  destruct N as [N|N]; [left; exact N | right; exact N].
Qed.

Lemma resolved_response_is_the_last_received_witness :
  (exists earlier,
      log (snd (fetchWithRetry recovers getTest fresh))
      = earlier ++ [EvFetch getTest (FetchResolves r200)])
  /\ (nonRetryable r200 = true
      \/ fetched (snd (fetchWithRetry recovers getTest fresh)) = fetched fresh + 4)
  /\ aborted (snd (fetchWithRetry recovers getTest fresh)) = false.
Proof.
  apply (resolved_response_is_the_last_received recovers getTest fresh).
  vm_compute. reflexivity.
Defined.

(** X5. A request is rejected only with an AbortError or with the network
    error of its fourth call: in the second case the log ends with that
    failed call and exactly four calls were made.  In particular no stale
    error and no [undefined] is ever thrown. *)
Theorem rejection_is_abort_or_last_network_error (env : Env) (req : Request)
        (st st' : State) (e : Thrown) :
  fetchWithRetry env req st = (Rejected e, st') ->
  isAbortError e = true
  \/ ((exists earlier, log st' = earlier ++ [EvFetch req (FetchRejects e)])
      /\ fetched st' = fetched st + 4).
Proof.
  intros H.
  destruct (retryLoop_rejected env req 5 0 None st e st' H)
    as [A|[[_ [L F]]|[Hgt _]]].
  - left. exact A.
  - right. split; [exact L | exact F].
  - unfold MAX_RETRIES in Hgt. lia.
Qed.

Lemma rejection_is_abort_or_last_network_error_witness :
  isAbortError (TypeError "Failed to fetch") = true
  \/ ((exists earlier,
          log (snd (fetchWithRetry alwaysOffline getTest fresh))
          = earlier ++ [EvFetch getTest (FetchRejects (TypeError "Failed to fetch"))])
      /\ fetched (snd (fetchWithRetry alwaysOffline getTest fresh))
         = fetched fresh + 4).
Proof.
  apply (rejection_is_abort_or_last_network_error alwaysOffline getTest fresh).
  vm_compute. reflexivity.
Defined.

(** X6. Without an honoured rate-limit hint and with [Math.random()] in
    [0, 1), the delay before one of the retries the loop makes (attempts
    0, 1 and 2) lies between 500 * 2^attempt and 500 * 2^attempt + 250,
    both ends included (in double arithmetic the sum can round up to the
    upper end), and this interval ends where the one of the next attempt
    begins or before: whatever the jitter, a backoff delay is never
    longer than a delay of the next attempt. *)
Theorem backoff_is_bounded_and_grows (env : Env) (attempt : nat)
        (res : option Response) (st : State) :
  attempt < MAX_RETRIES ->
  (forall h, rateLimitHint res = Some h -> gt0 h = false) ->
  (0 <= random env (drawn st))%Q -> (random env (drawn st) < 1)%Q ->
  exists d,
    fst (computeDelay env attempt res st) = Resolved (Fin d)
    /\ (BASE_DELAY_MS * 2 ^ Z.of_nat attempt <= d)%Q
    /\ (d <= BASE_DELAY_MS * 2 ^ Z.of_nat attempt + MAX_JITTER_MS)%Q
    /\ (BASE_DELAY_MS * 2 ^ Z.of_nat attempt + MAX_JITTER_MS
        <= BASE_DELAY_MS * 2 ^ Z.of_nat (S attempt))%Q.
Proof.
  intros _ Hh H0 H1. rewrite computeDelay_by_hint.
  assert (E : match rateLimitHint res with
              | Some hint =>
                  if gt0 hint then (Resolved (times hint 1000), st)
                  else backoffFrom env attempt st
              | None => backoffFrom env attempt st
              end = backoffFrom env attempt st).
  { destruct (rateLimitHint res) as [h|]; [|reflexivity].
    rewrite (Hh h eq_refl). reflexivity. }
  rewrite E. unfold backoffFrom. cbn [fst]. eexists. split; [reflexivity|].
  destruct (backoff_bounds attempt (random env (drawn st)) H0 H1) as [L [U G]].
  split; [exact L|]. split; [apply Qlt_le_weak; exact U | exact G].
Qed.

Lemma backoff_is_bounded_and_grows_witness :
  exists d,
    fst (computeDelay rateLimitedOnce 2 (Some r500) fresh) = Resolved (Fin d)
    /\ (BASE_DELAY_MS * 2 ^ Z.of_nat 2 <= d)%Q
    /\ (d <= BASE_DELAY_MS * 2 ^ Z.of_nat 2 + MAX_JITTER_MS)%Q
    /\ (BASE_DELAY_MS * 2 ^ Z.of_nat 2 + MAX_JITTER_MS
        <= BASE_DELAY_MS * 2 ^ Z.of_nat 3)%Q.
Proof.
  apply (backoff_is_bounded_and_grows rateLimitedOnce 2 (Some r500) fresh).
  - unfold MAX_RETRIES. lia.
  - intros h H. vm_compute in H. discriminate H.
  - vm_compute. discriminate.
  - vm_compute. reflexivity.
Defined.

(** X7. The delay handed to the timer is never NaN and always greater than
    zero, whatever the response and its Retry-After header, as long as
    [Math.random()] is not negative. *)
Theorem delay_is_a_positive_number (env : Env) (attempt : nat)
        (res : option Response) (st : State) :
  (0 <= random env (drawn st))%Q ->
  exists d,
    fst (computeDelay env attempt res st) = Resolved d
    /\ isNaN d = false /\ gt0 d = true.
Proof.
  intros H0. rewrite computeDelay_by_hint.
  assert (B : exists d, fst (backoffFrom env attempt st) = Resolved d
                        /\ isNaN d = false /\ gt0 d = true).
  { unfold backoffFrom. cbn [fst]. eexists. split; [reflexivity|].
    split; [reflexivity|]. cbn [gt0].
    destruct (Qlt_le_dec 0 _) as [_|Hle]; [reflexivity|].
    exfalso.
    assert (P : (1 <= 2 ^ Z.of_nat attempt)%Q).
    { clear. induction attempt as [|a IH]; [cbn; lra|].
      rewrite Nat2Z.inj_succ, <- Z.add_1_r.
      rewrite Qpower_plus by lra. change (2 ^ 1)%Q with 2%Q. nra. }
    unfold BASE_DELAY_MS, MAX_JITTER_MS in Hle. nra. }
  destruct (rateLimitHint res) as [h|] eqn:Eh; [|exact B].
  destruct (gt0 h) eqn:G; [|exact B].
  cbn [fst]. eexists. split; [reflexivity|].
  destruct (rateLimitHint_Number res h Eh) as [raw ->].
  apply NumberFacts.hint_times_positive. exact G.
Qed.

Lemma delay_is_a_positive_number_witness :
  exists d,
    fst (computeDelay rateLimitedOnce 0 (Some (r429 (Some "0"))) fresh)
    = Resolved d
    /\ isNaN d = false /\ gt0 d = true.
Proof.
  apply (delay_is_a_positive_number rateLimitedOnce 0
           (Some (r429 (Some "0"))) fresh).
  vm_compute. discriminate.
Defined.

(** X8. A request whose first call is answered 429 with a positive
    Retry-After hint and whose second call gets a response that is not
    retried does exactly this: the call, one delay of hint * 1000 ms (the
    product as the code computes it, in double arithmetic), the second
    call; [Math.random] is not consulted and the second response is
    returned. *)
Theorem rate_limited_request_waits_as_told (env : Env) (req : Request)
        (st : State) (r r' : Response) (hint : number) :
  aborted st = false ->
  fetch_outcome env (fetched st) = FetchResolves r ->
  rateLimitHint (Some r) = Some hint ->
  gt0 hint = true ->
  abort_during_sleep env (slept st) = false ->
  fetch_outcome env (S (fetched st)) = FetchResolves r' ->
  nonRetryable r' = true ->
  fetchWithRetry env req st
  = (Resolved r',
     mkState (S (S (fetched st))) (S (slept st)) (drawn st) false
             (log st ++ [EvFetch req (FetchResolves r);
                         EvSleep (times hint 1000) true;
                         EvFetch req (FetchResolves r')])).
Proof.
  intros Hab Ho Hh Hg Hs Ho' Hn'.
  change (fetchWithRetry env req st) with (retryLoop env 5 req 0 None st).
  rewrite (retryLoop_step env req 4 0 None st) by (unfold MAX_RETRIES; lia).
  assert (E : computeDelay env 0 (Some r) (afterFetch req (FetchResolves r) st)
              = (Resolved (times hint 1000), afterFetch req (FetchResolves r) st)).
  { rewrite computeDelay_by_hint, Hh, Hg. reflexivity. }
  rewrite (attemptOnce_retry_delay env req 0 None st r _ _ Hab Ho
             (rateLimitHint_429 r hint Hh)
             ltac:(unfold MAX_RETRIES; lia) Hs E).
  rewrite (retryLoop_step env req 3 1 None _) by (unfold MAX_RETRIES; lia).
  rewrite (attemptOnce_returns env req 1 None _ r')
    by (try reflexivity; try (left; exact Hn'); exact Ho').
  unfold afterFetch, afterSleep. cbn [fetched slept drawn aborted log negb].
  rewrite <- !app_assoc. reflexivity.
Qed.

Lemma rate_limited_request_waits_as_told_witness :
  fetchWithRetry rateLimitedOnce getTest fresh
  = (Resolved r200,
     mkState 2 1 0 false
             [EvFetch getTest (FetchResolves (r429 (Some "2")));
              EvSleep (times (Fin 2) 1000) true;
              EvFetch getTest (FetchResolves r200)]).
Proof.
  apply (rate_limited_request_waits_as_told rateLimitedOnce getTest fresh
           (r429 (Some "2")) r200 (Fin 2)); vm_compute; reflexivity.
Defined.

(** X9. Every network call of a logical request, the first one and each
    retry, is made with the same URL, method, headers and body: what the
    request adds to the log are calls with [req] and delays. *)
Theorem retries_repeat_the_same_request (env : Env) (req : Request) (st : State) :
  exists evs,
    log (snd (fetchWithRetry env req st)) = log st ++ evs
    /\ Forall (sameRequest req) evs.
Proof.
  exact (retryLoop_sameRequest env req 5 0 None st).
Qed.

(** X10. The public variants of the facade never send the API key: no
    network call made by [getPublic] or [postPublic], retries included,
    carries an [X-API-Key] header. *)
Theorem public_requests_never_carry_the_api_key (env : Env)
        (baseUrl path : string) (qs data : option string) (st : State) :
  (exists evs,
      log (snd (getPublic env baseUrl path qs st)) = log st ++ evs
      /\ Forall noApiKey evs)
  /\ (exists evs,
         log (snd (postPublic env baseUrl path data st)) = log st ++ evs
         /\ Forall noApiKey evs).
Proof.
  assert (K : forall req evs,
             existsb (fun h => String.eqb (fst h) "X-API-Key") (headers req) = false ->
             Forall (sameRequest req) evs -> Forall noApiKey evs).
  { intros req evs Hh H. eapply Forall_impl; [|exact H].
    intros [r o|ms f]; cbn [sameRequest noApiKey]; [|auto].
    intros ->. exact Hh. }
  split.
  - unfold getPublic. rewrite facade_state.
    destruct (retryLoop_sameRequest env
                (mkRequest (withQuery (baseUrl ++ path)%string qs) "GET" [] None)
                5 0 None st) as [evs [L F]].
    exists evs. split; [exact L|]. eapply K; [|exact F]. reflexivity.
  - unfold postPublic. rewrite facade_state.
    destruct (retryLoop_sameRequest env
                (mkRequest (baseUrl ++ path)%string "POST"
                           [("Content-Type", "application/json")]%string data)
                5 0 None st) as [evs [L F]].
    exists evs. split; [exact L|]. eapply K; [|exact F]. reflexivity.
Qed.

End ClientExtra.

(** ** The client object and the callers of the facade *)

Module CallersFacts.
Import JsString JsNumber Effects Client ClientSpec ClientExtraSpec ClientFacts
       RetryLoopFacts.
Import ClientObject.
Local Open Scope nat_scope.
Local Open Scope list_scope.
Local Open Scope io_scope.

Lemma strip_leaves_slashes (s : string) :
  exists t, allSlashes t = true /\ s = (stripTrailingSlashes s ++ t)%string.
Proof.
  induction s as [|c rest IH]; [exists EmptyString; split; reflexivity|].
  cbn [stripTrailingSlashes].
  destruct (Ascii.eqb c "/" && allSlashes rest) eqn:E.
  - exists (String c rest). split; [exact E | reflexivity].
  - destruct IH as [t [Ht Hs]]. exists t. split; [exact Ht|].
    cbn [String.append]. rewrite <- Hs. reflexivity.
Qed.

Lemma strip_empty (s : string) :
  stripTrailingSlashes s = EmptyString -> allSlashes s = true.
Proof.
  destruct s as [|c rest]; [reflexivity|]. cbn [stripTrailingSlashes allSlashes].
  destruct (Ascii.eqb c "/" && allSlashes rest); [reflexivity | discriminate].
Qed.

Lemma strip_no_final_slash (s : string) :
  forall t, stripTrailingSlashes s <> (t ++ "/")%string.
Proof.
  induction s as [|c rest IH]; intros t H.
  - destruct t; discriminate H.
  - cbn [stripTrailingSlashes] in H.
    destruct (Ascii.eqb c "/" && allSlashes rest) eqn:E.
    + destruct t; discriminate H.
    + destruct t as [|c' t']; cbn [String.append] in H.
      * inversion H as [[Hc Hr]]. rewrite (strip_empty rest Hr) in E.
        subst c. discriminate E.
      * inversion H as [[Hc Hr]]. exact (IH t' Hr).
Qed.

Lemma allSlashes_strip (s : string) :
  allSlashes (stripTrailingSlashes s) = allSlashes s.
Proof.
  induction s as [|c rest IH]; [reflexivity|].
  cbn [stripTrailingSlashes].
  destruct (Ascii.eqb c "/" && allSlashes rest) eqn:E.
  - cbn [allSlashes]. rewrite E. reflexivity.
  - cbn [allSlashes]. rewrite IH. reflexivity.
Qed.

Lemma strip_idempotent (s : string) :
  stripTrailingSlashes (stripTrailingSlashes s) = stripTrailingSlashes s.
Proof.
  induction s as [|c rest IH]; [reflexivity|].
  cbn [stripTrailingSlashes].
  destruct (Ascii.eqb c "/" && allSlashes rest) eqn:E; [reflexivity|].
  cbn [stripTrailingSlashes]. rewrite allSlashes_strip, E, IH. reflexivity.
Qed.

Lemma not_aborted_when_fresh (ctl : nat) (l : list nat) :
  Forall (fun a => a < ctl) l -> existsb (Nat.eqb ctl) l = false.
Proof.
  induction 1 as [|a l Ha _ IH]; [reflexivity|].
  cbn [existsb]. rewrite IH.
  destruct (Nat.eqb_spec ctl a); [lia | reflexivity].
Qed.

Lemma HandleInv_use (u : Use) ch : HandleInv ch -> HandleInv (use u ch).
Proof.
  destruct ch as [c h]. unfold HandleInv, use, signal, abort.
  cbn [fst snd]. intros [HA HC].
  destruct u; destruct (abortController c) as [ctl|] eqn:E;
    cbn [fst snd abortController controllersMade abortedControllers].
  - rewrite E. split; assumption.
  - split.
    + eapply Forall_impl; [|exact HA]. cbn. intros a Ha. lia.
    + split; [lia|]. unfold signalAborted.
      cbn [abortedControllers]. apply not_aborted_when_fresh. exact HA.
  - split; [|exact I]. constructor; [apply HC | exact HA].
  - rewrite E. split; assumption.
Qed.

Lemma HandleInv_uses (us : list Use) : forall ch, HandleInv ch -> HandleInv (uses us ch).
Proof.
  induction us as [|u us IH]; intros ch H; [exact H|].
  unfold uses. cbn [fold_left]. apply IH, HandleInv_use, H.
Qed.

Lemma HandleInv_handleAfter us baseUrl key : HandleInv (handleAfter us baseUrl key).
Proof.
  unfold handleAfter. apply HandleInv_uses.
  unfold HandleInv, construct. cbn. split; [constructor | exact I].
Qed.

(** A request of the facade settles. *)
Lemma request_settles env req st : fst (fetchWithRetry env req st) <> Unfinished.
Proof.
  intros H.
  destruct (retryLoop_events env req 5 0 None st) as [evs [_ [_ P]]];
    [unfold MAX_RETRIES; lia|].
  change (retryLoop env 5 req 0 None st) with (fetchWithRetry env req st) in P.
  rewrite H in P. exact P.
Qed.









End CallersFacts.

Module CallersExtra.
Import JsString JsNumber Effects Client ClientSpec ClientExtraSpec ClientFacts
       RetryLoopFacts CallersFacts.
Import ClientObject.
Local Open Scope nat_scope.
Local Open Scope list_scope.
Local Open Scope io_scope.

(** X11. The constructor removes the trailing slashes of the base URL and
    nothing else: the configured URL is the stored one followed by slashes
    only, the stored one does not end with a slash, and constructing again
    from the stored URL changes nothing. *)
Theorem base_url_loses_only_trailing_slashes (baseUrl key : string) :
  (exists t, allSlashes t = true
             /\ baseUrl = (_baseUrl (construct baseUrl key) ++ t)%string)
  /\ (forall t, _baseUrl (construct baseUrl key) <> (t ++ "/")%string)
  /\ _baseUrl (construct (_baseUrl (construct baseUrl key)) key)
     = _baseUrl (construct baseUrl key).
Proof.
  unfold construct. cbn [_baseUrl].
  split; [apply strip_leaves_slashes|].
  split; [apply strip_no_final_slash | apply strip_idempotent].
Qed.

(** X12. The abort handle, in any state a page can bring it to by starting
    requests and calling [abort()]: a request that starts gets a signal that
    is not aborted; the next request shares that signal; [abort()] aborts
    it; a second [abort()] does nothing; and the request started after the
    abort gets a new signal that is not aborted, so aborting cancels what
    is in flight and nothing that starts later. *)
Theorem abort_cancels_what_is_in_flight_only (us : list Use)
        (baseUrl key : string) :
  let started := signal (fst (handleAfter us baseUrl key))
                        (snd (handleAfter us baseUrl key)) in
  let aborted := abort (fst (snd started)) (snd (snd started)) in
  let restarted := signal (fst aborted) (snd aborted) in
  signalAborted (fst started) (snd (snd started)) = false
  /\ fst (signal (fst (snd started)) (snd (snd started))) = fst started
  /\ signalAborted (fst started) (snd aborted) = true
  /\ abort (fst aborted) (snd aborted) = aborted
  /\ fst restarted <> fst started
  /\ signalAborted (fst restarted) (snd (snd restarted)) = false.
Proof.
  pose proof (HandleInv_handleAfter us baseUrl key) as I0.
  pose proof (HandleInv_use StartRequest _ I0) as I1.
  pose proof (HandleInv_use Abort _ I1) as I2.
  pose proof (HandleInv_use StartRequest _ I2) as I3.
  revert I1 I2 I3. unfold use. cbn [fst snd].
  destruct (handleAfter us baseUrl key) as [[b k [ctl|]] [made ab]];
    unfold HandleInv, signal, abort, signalAborted in *;
    cbn [fst snd abortController controllersMade abortedControllers
         _baseUrl apiKey existsb] in *;
    destruct I0 as [HA HC]; intros I1 I2 I3.
  - rewrite Nat.eqb_refl. cbn [orb].
    repeat split; try tauto. lia.
  - rewrite Nat.eqb_refl. cbn [orb].
    repeat split; try tauto. lia.
Qed.

(** X13. [claimByToken] never rejects: it resolves with the link exactly
    when the request ends in a 2xx response whose body parses, and with
    null in every other case (an error status, an unparsable body, a
    network error after the last attempt, a cancellation), having made at
    most four network calls. *)
Theorem claimByToken_never_rejects (env : Env) (baseUrl : string)
        (qs : option string) (st : State) :
  exists res st',
    claimByToken env baseUrl qs st = (Resolved res, st')
    /\ st' = snd (fetchWithRetry env (claimRequest baseUrl qs) st)
    /\ res = match fst (fetchWithRetry env (claimRequest baseUrl qs) st) with
             | Resolved r => if Client.ok r then json r else None
             | _ => None
             end
    /\ fetched st' <= fetched st + 4.
Proof.
  pose proof (request_settles env (claimRequest baseUrl qs) st) as Hs.
  pose proof (retryLoop_counts env (claimRequest baseUrl qs) 5 0 None st) as C.
  cbv zeta in C.
  change (retryLoop env 5 (claimRequest baseUrl qs) 0 None st)
    with (fetchWithRetry env (claimRequest baseUrl qs) st) in C.
  assert (B : fetched (snd (fetchWithRetry env (claimRequest baseUrl qs) st))
              <= fetched st + 4) by (unfold MAX_RETRIES in C; lia).
  clear C.
  assert (G : getPublic env baseUrl "/v1/api/deferred/claim" qs st
              = match fetchWithRetry env (claimRequest baseUrl qs) st with
                | (Resolved r, s1) => (facadeResult r, s1)
                | (Rejected e, s1) => (Rejected e, s1)
                | (Unfinished, s1) => (Unfinished, s1)
                end).
  { unfold getPublic, bind.
    change (mkRequest (withQuery (baseUrl ++ "/v1/api/deferred/claim")%string qs)
                      "GET" [] None) with (claimRequest baseUrl qs).
    destruct (fetchWithRetry env (claimRequest baseUrl qs) st) as [[r|e|] s1];
      [apply interpret_facadeResult | reflexivity | reflexivity]. }
  cbv beta delta [claimByToken try_catch bind console_warn ret].
  rewrite G.
  destruct (fetchWithRetry env (claimRequest baseUrl qs) st) as [[r|e|] s1];
    cbn [fst snd] in *.
  - unfold facadeResult.
    destruct (Client.ok r); destruct (json r) as [b|];
      eexists; eexists; (split; [reflexivity|]); auto.
  - eexists; eexists; (split; [reflexivity|]); auto.
  - congruence.
Qed.



End CallersExtra.

(** ** Further properties of the analytics batcher *)

Module AnalyticsExtraFacts.
Import JsString Effects Analytics AnalyticsSpec AnalyticsExtraSpec AnalyticsFacts.
Local Open Scope nat_scope.
Local Open Scope list_scope.
Local Open Scope io_scope.

(** [track] from the push on: the event is appended, then the queue is
    flushed when it has reached the batch size. *)
Lemma enqueue_shape name props s :
  exists s2,
    queue s2 = queue s ++ [mkEvent name (queuedProps props)]
    /\ posted s2 = posted s
    /\ fst (enqueue name props s)
       = if BATCH_SIZE <=? S (List.length (queue s)) then fst (flush s2) else s2.
Proof.
  unfold enqueue. cbv zeta. fold (queuedProps props).
  set (ev := mkEvent name _).
  set (s1 := set_queue (queue s ++ [ev]) s).
  match goal with |- context [if ?c then ?a else s1] =>
    set (s2 := if c then a else s1) end.
  exists s2.
  assert (H2 : queue s2 = queue s ++ [ev] /\ posted s2 = posted s).
  { subst s2. destruct (_ && _); split; reflexivity. }
  destruct H2 as [Q2 P2]. split; [exact Q2|]. split; [exact P2|].
  replace (List.length (queue s2)) with (S (List.length (queue s)))
    by (rewrite Q2, length_app; cbn; lia).
  destruct (BATCH_SIZE <=? S (List.length (queue s))); reflexivity.
Qed.

Lemma sentThenQueued_flush s :
  sentThenQueued (fst (flush s)) = sentThenQueued s.
Proof.
  unfold sentThenQueued. destruct (flush_store s) as [Q [_ R]]. rewrite Q.
  destruct (queue s) as [|ev q]; destruct R as [P _]; rewrite P.
  - reflexivity.
  - rewrite concat_app. cbn [List.concat]. rewrite !app_nil_r. reflexivity.
Qed.

Lemma sentThenQueued_enqueue name props s :
  sentThenQueued (fst (enqueue name props s))
  = sentThenQueued s ++ [mkEvent name (queuedProps props)].
Proof.
  destruct (enqueue_shape name props s) as [s2 [Q2 [P2 E]]]. rewrite E.
  assert (H : sentThenQueued s2
              = sentThenQueued s ++ [mkEvent name (queuedProps props)]).
  { unfold sentThenQueued. rewrite Q2, P2, app_assoc. reflexivity. }
  destruct (BATCH_SIZE <=? S (List.length (queue s)));
    [rewrite sentThenQueued_flush|]; exact H.
Qed.

(** What the settlement of a POST changes. *)
Lemma settle_fields host id out s p :
  findPending id s = Some p ->
  queue (exec host (LSettle id out) s)
  = match out with
    | PostResolves (Some _) => queue s
    | _ => dropOldest MAX_QUEUE_SIZE (post_events p ++ queue s)
    end
  /\ posted (exec host (LSettle id out) s) = posted s
  /\ timers (exec host (LSettle id out) s) = timers s
  /\ flushTimer (exec host (LSettle id out) s) = flushTimer s
  /\ listening (exec host (LSettle id out) s) = listening s
  /\ warnings (exec host (LSettle id out) s)
     = warnings s ++ match out with
                     | PostResolves (Some result) => partialFailureWarning result
                     | _ => []
                     end.
Proof.
  intros F. cbn [exec]. unfold settle. rewrite F.
  destruct out as [[result|]|e].
  - unfold flush_resume, try_catch, bind, awaitPost, ret, console_warn,
      partialFailureWarning.
    destruct (errors result) as [[|e es]|]; cbn; rewrite ?app_nil_r;
      repeat split; reflexivity.
  - rewrite flush_resume_null. cbn. rewrite app_nil_r. repeat split; reflexivity.
  - rewrite flush_resume_rejected. cbn. rewrite app_nil_r.
    repeat split; reflexivity.
Qed.

Lemma settle_nothing host id out s :
  findPending id s = None -> exec host (LSettle id out) s = s.
Proof. intros F. cbn [exec]. unfold settle. rewrite F. reflexivity. Qed.

Lemma flushBeacon_fields host s :
  queue (flushBeacon host s) = []
  /\ posted (flushBeacon host s) = posted s
  /\ flushTimer (flushBeacon host s) = flushTimer s
  /\ timers (flushBeacon host s) = timers s
  /\ inflight (flushBeacon host s) = inflight s.
Proof.
  unfold flushBeacon. destruct (queue s) eqn:E; [auto|].
  destruct (hasSendBeacon host); cbn; auto.
Qed.

Lemma destroy_fields host s :
  queue (destroy host s) = []
  /\ posted (destroy host s) = posted s
  /\ flushTimer (destroy host s) = None
  /\ timers (destroy host s)
     = match flushTimer s with
       | Some id => filter (fun t => negb (t =? id)) (timers s)
       | None => timers s
       end
  /\ inflight (destroy host s) = inflight s.
Proof.
  unfold destroy. cbv zeta.
  destruct (flushBeacon_fields host s) as [Q [P [T [Ts I]]]].
  destruct (flushTimer (flushBeacon host s)) as [id|] eqn:E;
    rewrite <- T;
    match goal with |- context [if ?c then _ else _] => destruct c end;
    cbn; rewrite ?Q, ?P, ?Ts, ?I, ?E; repeat split; reflexivity.
Qed.

(** *** The bound on the queue and on the batches *)

Lemma Bounded_flush cap s :
  List.length (queue s) <= S cap ->
  Forall (fun b => 1 <= List.length b <= S cap) (posted s) ->
  Bounded cap (fst (flush s)).
Proof.
  intros Hq Hp. unfold Bounded. destruct (flush_store s) as [Q [_ R]].
  rewrite Q. split; [cbn; lia|].
  destruct (queue s) as [|ev q] eqn:E; destruct R as [P _]; rewrite P.
  - exact Hp.
  - apply Forall_app. split; [exact Hp|]. constructor; [|constructor].
    cbn [List.length] in *. lia.
Qed.

Lemma Bounded_enqueue cap name props s :
  BATCH_SIZE - 1 <= cap -> Bounded cap s ->
  Bounded cap (fst (enqueue name props s)).
Proof.
  intros Hc [Hq Hp].
  destruct (enqueue_shape name props s) as [s2 [Q2 [P2 E]]]. rewrite E.
  assert (L : List.length (queue s2) = S (List.length (queue s)))
    by (rewrite Q2, length_app; cbn; lia).
  destruct (Nat.leb_spec BATCH_SIZE (S (List.length (queue s)))) as [H|H].
  - apply Bounded_flush; [lia | rewrite P2; exact Hp].
  - split; [lia | rewrite P2; exact Hp].
Qed.

Lemma Bounded_exec host cap l s :
  BATCH_SIZE - 1 <= cap ->
  MAX_QUEUE_SIZE <= cap \/ noFailure l ->
  Bounded cap s -> Bounded cap (exec host l s).
Proof.
  intros Hc Hl B. pose proof B as [Hq Hp].
  destruct l as [v props| |id|id out| |].
  - cbn [exec]. unfold track. destruct (checkedName v); [exact B|].
    apply Bounded_enqueue; assumption.
  - cbn [exec]. apply Bounded_flush; [lia | exact Hp].
  - cbn [exec]. destruct (existsb (Nat.eqb id) (timers s)); [|exact B].
    unfold onFlushTimer. apply Bounded_flush; [cbn; lia | exact Hp].
  - destruct (findPending id s) as [p|] eqn:F;
      [|rewrite settle_nothing by exact F; exact B].
    destruct (settle_fields host id out s p F) as [Q [P _]].
    unfold Bounded. rewrite Q, P. split; [|exact Hp].
    destruct out as [[result|]|e]; try exact Hq;
      (destruct Hl as [Hl|Hl]; [|destruct Hl]);
      rewrite dropOldest_length; lia.
  - cbn [exec]. destruct (listening s); [|exact B].
    destruct (flushBeacon_fields host s) as [Q [P _]].
    unfold Bounded. rewrite Q, P. split; [cbn; lia | exact Hp].
  - cbn [exec]. destruct (destroy_fields host s) as [Q [P _]].
    unfold Bounded. rewrite Q, P. split; [cbn; lia | exact Hp].
Qed.

Lemma Bounded_create host cap : Bounded cap (create host).
Proof. split; [cbn; lia | constructor]. Qed.

(** *** Events are neither lost nor repeated while POSTs succeed *)

Lemma sentThenQueued_exec host l s :
  delivering l ->
  sentThenQueued (exec host l s) = sentThenQueued s ++ acceptedEvent l.
Proof.
  intros [C N]. destruct l as [v props| |id|id out| |]; cbn [core] in C;
    try destruct C; cbn [acceptedEvent]; rewrite ?app_nil_r.
  - cbn [exec]. unfold track.
    destruct (checkedName v) as [err|name]; [rewrite app_nil_r; reflexivity|].
    apply sentThenQueued_enqueue.
  - cbn [exec]. apply sentThenQueued_flush.
  - cbn [exec]. destruct (existsb (Nat.eqb id) (timers s)); [|reflexivity].
    unfold onFlushTimer. rewrite sentThenQueued_flush. reflexivity.
  - destruct (findPending id s) as [p|] eqn:F;
      [|rewrite settle_nothing by exact F; reflexivity].
    destruct (settle_fields host id out s p F) as [Q [P _]].
    unfold sentThenQueued. rewrite Q, P.
    destruct out as [[result|]|e]; [reflexivity | destruct N | destruct N].
Qed.

Lemma sentThenQueued_run host ls :
  forall s, Forall delivering ls ->
            sentThenQueued (run host ls s) = sentThenQueued s ++ acceptedEvents ls.
Proof.
  induction ls as [|l ls IH]; intros s H.
  - cbn. rewrite app_nil_r. reflexivity.
  - inversion H as [|? ? Hl Hls]; subst. cbn [run fold_left].
    change (fold_left (fun s0 l0 => exec host l0 s0) ls (exec host l s))
      with (run host ls (exec host l s)).
    rewrite (IH _ Hls), (sentThenQueued_exec host l s Hl).
    unfold acceptedEvents. cbn [flat_map]. rewrite app_assoc. reflexivity.
Qed.


End AnalyticsExtraFacts.

Module AnalyticsExtra.
Import JsString Effects Analytics AnalyticsSpec AnalyticsExtraSpec AnalyticsFacts
       AnalyticsExtraFacts.
Local Open Scope nat_scope.
Local Open Scope list_scope.

(** X16. Whatever happens to an instance (tracking, flushes, timers, POSTs
    that succeed or fail, page unload, teardown), between two steps its
    queue holds at most MAX_QUEUE_SIZE = 1000 events; and no batch handed
    to the client is ever empty or larger than 1001 events. *)
Theorem queue_never_exceeds_its_bound (host : Host) (s : Sys) :
  reachable host anyLabel s ->
  List.length (queue s) <= MAX_QUEUE_SIZE
  /\ Forall (fun b => 1 <= List.length b <= S MAX_QUEUE_SIZE) (posted s).
Proof.
  induction 1 as [|s l R IH _].
  - apply Bounded_create.
  - apply Bounded_exec; [unfold BATCH_SIZE, MAX_QUEUE_SIZE; lia | | exact IH].
    left. lia.
Qed.

Lemma queue_never_exceeds_its_bound_witness :
  List.length (queue afterFailedFlush) <= MAX_QUEUE_SIZE
  /\ Forall (fun b => 1 <= List.length b <= S MAX_QUEUE_SIZE)
            (posted afterFailedFlush).
Proof.
  apply (queue_never_exceeds_its_bound browser afterFailedFlush).
  unfold afterFailedFlush, run. cbn [fold_left].
  repeat (apply reach_exec; [|exact I]). apply reach_create.
Defined.

(** X17. As long as no POST fails, the queue holds fewer than
    BATCH_SIZE = 10 events between two steps, and every batch handed to
    the client holds between one and ten events. *)
Theorem batches_hold_at_most_ten_events (host : Host) (s : Sys) :
  reachable host noFailure s ->
  List.length (queue s) < BATCH_SIZE
  /\ Forall (fun b => 1 <= List.length b <= BATCH_SIZE) (posted s).
Proof.
  intros R.
  assert (B : Bounded (BATCH_SIZE - 1) s).
  { induction R as [|s l R IH Hl].
    - apply Bounded_create.
    - apply Bounded_exec; [lia | right; exact Hl | exact IH]. }
  destruct B as [Hq Hp]. unfold BATCH_SIZE in *. cbn [Nat.sub] in *.
  split; [lia | exact Hp].
Qed.

Lemma batches_hold_at_most_ten_events_witness :
  List.length (queue flushPending) < BATCH_SIZE
  /\ Forall (fun b => 1 <= List.length b <= BATCH_SIZE) (posted flushPending).
Proof.
  apply (batches_hold_at_most_ten_events browser flushPending).
  unfold flushPending, run. cbn [fold_left].
  repeat (apply reach_exec; [|exact I]). apply reach_create.
Defined.

(** X18. While POSTs succeed and the page is neither unloaded nor the
    instance destroyed, no accepted event is lost, repeated or reordered:
    after any such steps, the batches handed to the client, one after the
    other, followed by the queue are exactly the events of the accepted
    [track] calls in call order. *)
Theorem events_are_sent_once_and_in_order (host : Host) (ls : list Label) :
  Forall delivering ls ->
  sentThenQueued (run host ls (create host)) = acceptedEvents ls.
Proof.
  intros H. rewrite (sentThenQueued_run host ls (create host) H). reflexivity.
Qed.

Lemma events_are_sent_once_and_in_order_witness :
  sentThenQueued
    (run browser
         [named "event_a"; named "Not Valid"; LFlush; named "event_b";
          LSettle 0 (PostResolves (Some partialFailure)); LTimer 2]
         (create browser))
  = acceptedEvents
      [named "event_a"; named "Not Valid"; LFlush; named "event_b";
       LSettle 0 (PostResolves (Some partialFailure)); LTimer 2].
Proof.
  apply (events_are_sent_once_and_in_order browser).
  repeat constructor.
Defined.

(** X19. When a pending POST settles, its batch goes back to the queue
    (in front, cut to its last 1000 events) exactly when the POST was rejected
    or resolved with [null]; a response with a body, whatever its [ok]
    flag and its [errors], leaves the queue as it is, and a non-empty
    [errors] list is only logged.  In no case is anything posted or any
    timer armed by the settlement. *)
Theorem only_a_failed_post_is_requeued (host : Host) (id : nat)
        (out : PostOutcome) (s : Sys) (p : PendingPost) :
  findPending id s = Some p ->
  queue (exec host (LSettle id out) s)
  = match out with
    | PostResolves (Some _) => queue s
    | _ => dropOldest MAX_QUEUE_SIZE (post_events p ++ queue s)
    end
  /\ warnings (exec host (LSettle id out) s)
     = warnings s ++ match out with
                     | PostResolves (Some result) => partialFailureWarning result
                     | _ => []
                     end
  /\ posted (exec host (LSettle id out) s) = posted s
  /\ timers (exec host (LSettle id out) s) = timers s
  /\ flushTimer (exec host (LSettle id out) s) = flushTimer s.
Proof.
  intros F.
  destruct (settle_fields host id out s p F) as [Q [P [T [FT [_ W]]]]].
  repeat split; assumption.
Qed.

Lemma only_a_failed_post_is_requeued_witness :
  queue (exec browser (LSettle 0 (PostResolves (Some partialFailure))) flushPending)
  = queue flushPending
  /\ warnings (exec browser (LSettle 0 (PostResolves (Some partialFailure)))
                    flushPending)
     = warnings flushPending ++ partialFailureWarning partialFailure
  /\ posted (exec browser (LSettle 0 (PostResolves (Some partialFailure)))
                  flushPending)
     = posted flushPending
  /\ timers (exec browser (LSettle 0 (PostResolves (Some partialFailure)))
                  flushPending)
     = timers flushPending
  /\ flushTimer (exec browser (LSettle 0 (PostResolves (Some partialFailure)))
                      flushPending)
     = flushTimer flushPending.
Proof.
  apply (only_a_failed_post_is_requeued browser 0
           (PostResolves (Some partialFailure)) flushPending
           (mkPending 0 [event "custom.event_a"; event "custom.event_b"])).
  reflexivity.
Defined.

(** X20. In normal operation, when the flush timer fires everything
    queued is handed to the client as one batch: the queue is empty
    afterwards, no timer is left and the handle is null. *)
Theorem timer_sends_the_whole_queue (host : Host) (s : Sys) (id : nat) :
  reachable host core s ->
  In id (timers s) ->
  posted (exec host (LTimer id) s) = posted s ++ [queue s]
  /\ queue s <> []
  /\ queue (exec host (LTimer id) s) = []
  /\ timers (exec host (LTimer id) s) = []
  /\ flushTimer (exec host (LTimer id) s) = None.
Proof.
  intros R Hin. pose proof (reachable_TimerInv host s R) as I.
  destruct (timer_fires host id s I Hin) as [Ft E]. rewrite E.
  assert (Hq : queue s <> []) by (apply I; congruence).
  destruct (flush_nonempty (set_flushTimer None (set_timers [] s)) Hq)
    as [s' [Ef [Q [T [Ts [_ [P _]]]]]]].
  rewrite Ef. cbn [fst]. repeat split; assumption.
Qed.

Lemma timer_sends_the_whole_queue_witness :
  posted (exec browser (LTimer 1) oneQueued) = posted oneQueued ++ [queue oneQueued]
  /\ queue oneQueued <> []
  /\ queue (exec browser (LTimer 1) oneQueued) = []
  /\ timers (exec browser (LTimer 1) oneQueued) = []
  /\ flushTimer (exec browser (LTimer 1) oneQueued) = None.
Proof.
  apply (timer_sends_the_whole_queue browser oneQueued 1).
  - unfold oneQueued, run. cbn [fold_left].
    repeat (apply reach_exec; [|exact I]). apply reach_create.
  - left. reflexivity.
Defined.

(** X21. [destroy] does not detach a POST that is in flight: when that
    POST is rejected afterwards, as it is when the teardown aborts the
    client, its batch is put back into the queue of the destroyed
    instance, where no timer is pending, no handle is set and no unload
    listener is left to send it. *)
Theorem late_rejection_refills_a_destroyed_instance (host : Host) (s : Sys)
        (id : nat) (p : PendingPost) (e : Thrown) :
  reachable host core s ->
  findPending id s = Some p ->
  queue (exec host (LSettle id (PostRejects e)) (destroy host s))
  = dropOldest MAX_QUEUE_SIZE (post_events p)
  /\ timers (exec host (LSettle id (PostRejects e)) (destroy host s)) = []
  /\ flushTimer (exec host (LSettle id (PostRejects e)) (destroy host s)) = None
  /\ posted (exec host (LSettle id (PostRejects e)) (destroy host s)) = posted s.
Proof.
  intros R F. pose proof (reachable_TimerInv host s R) as [_ I].
  destruct (destroy_fields host s) as [Q [P [FT [Ts Inf]]]].
  assert (F' : findPending id (destroy host s) = Some p).
  { unfold findPending in *. rewrite Inf. exact F. }
  destruct (settle_fields host id (PostRejects e) (destroy host s) p F')
    as [Q' [P' [T' [FT' _]]]].
  rewrite Q', P', T', FT', Q, P, FT, Ts, app_nil_r.
  repeat split; try reflexivity.
  rewrite I. destruct (flushTimer s) as [t|]; [apply filter_self | reflexivity].
Qed.

Lemma late_rejection_refills_a_destroyed_instance_witness :
  queue (exec browser (LSettle 0 (PostRejects networkError))
              (destroy browser flushPending))
  = dropOldest MAX_QUEUE_SIZE [event "custom.event_a"; event "custom.event_b"]
  /\ timers (exec browser (LSettle 0 (PostRejects networkError))
                  (destroy browser flushPending)) = []
  /\ flushTimer (exec browser (LSettle 0 (PostRejects networkError))
                      (destroy browser flushPending)) = None
  /\ posted (exec browser (LSettle 0 (PostRejects networkError))
                  (destroy browser flushPending)) = posted flushPending.
Proof.
  apply (late_rejection_refills_a_destroyed_instance browser flushPending 0
           (mkPending 0 [event "custom.event_a"; event "custom.event_b"])
           networkError).
  - unfold flushPending, run. cbn [fold_left].
    repeat (apply reach_exec; [|exact I]). apply reach_create.
  - reflexivity.
Defined.

End AnalyticsExtra.

(** ** The shorthand [Tolinku.track] *)

Module TolinkuExtra.
Import JsString Effects Analytics AnalyticsSpec AnalyticsExtraSpec AnalyticsFacts
       AnalyticsExtraFacts CallersFacts.
Local Open Scope nat_scope.
Local Open Scope list_scope.



End TolinkuExtra.
